(** * Shortest paths over weighted graphs: heap, Dijkstra, Bellman-Ford,
      Floyd-Warshall

    A shallow embedding of the C sources of the repository
    (heap.c, graph_list.c, graph_matrix.c, main_dijkstra.c,
    main_dijkstra_markov.c, main_bellman_ford.c, main_floyd_warshall.c)
    and the properties of its specification.

    Conventions of the embedding.
    - A C [int] is a [Z]; every index the programs compute is bounded by
      the vertex count, so no wrap-around is involved.
    - A C array is a [list]; an access outside of it, or the read of a
      slot that was never written, is undefined behaviour and yields
      [Undefined].
    - The assertions are enabled, and a failing [assert] aborts the
      program: [AssertFail].
    - The heap is generic in the type of the keys and their comparison
      [<]; it is used with [double] (exact numbers and +infinity) and
      with the real numbers for the Markov variant. *)

From Stdlib Require Import ZArith Lia Bool Reals Lra.
From stdpp Require Import base list.

Local Open Scope Z_scope.

(** ** Outcomes of a C function *)

(** [Ok a]: the function returns [a]; [AssertFail]: an [assert] fails and
    the program aborts; [Undefined]: undefined behaviour (an access out
    of an array, or to a cell never written); [Timeout]: the bound put on
    the rounds of the main loop of [dijkstra] is reached, which never
    happens (see [dijkstra_run_nt]). *)
Inductive result (A : Type) : Type :=
| Ok (a : A)
| AssertFail
| Undefined
| Timeout.
Arguments Ok {A} a.
Arguments AssertFail {A}.
Arguments Undefined {A}.
Arguments Timeout {A}.

Definition result_bind {A B} (f : A -> result B) (m : result A) : result B :=
  match m with
  | Ok a => f a
  | AssertFail => AssertFail
  | Undefined => Undefined
  | Timeout => Timeout
  end.

#[export] Instance result_mbind : MBind result := @result_bind.
#[export] Instance result_mret : MRet result := @Ok.

(** [assert(b)] *)
Definition assert (b : bool) : result unit :=
  if b then Ok tt else AssertFail.

(** ** Arrays *)

(** [a[i]] read *)
Definition rd {A} (a : list A) (i : Z) : result A :=
  if i <? 0 then Undefined
  else match a !! Z.to_nat i with
       | Some x => Ok x
       | None => Undefined
       end.

(** [a[i] = x] *)
Definition wr {A} (a : list A) (i : Z) (x : A) : result (list A) :=
  if (0 <=? i) && (i <? Z.of_nat (length a))
  then Ok (<[Z.to_nat i := x]> a)
  else Undefined.

(** read of a slot of a [malloc]ed array: [None] is a slot never written *)
Definition rdv {A} (a : list (option A)) (i : Z) : result A :=
  o ← rd a i;
  match o with
  | Some x => Ok x
  | None => Undefined
  end.

(** ** The indexed binary heap (heap.c) *)

Section Heap.

(** the type of the weights ([double] in the source) and its [<] *)
Variable W : Type.
Variable wlt : W -> W -> bool.

Record vertex_s : Type := mk_vertex {
  ind : Z;
  weight : W;
  prev : Z
}.

Record heap_s : Type := mk_heap {
  array : list (option vertex_s);
  inds : list Z;
  nb_elements : Z;
  max_elements : Z
}.

Definition swap (h : heap_s) (v w : Z) : result heap_s :=
  tmp_v ← rdv (array h) v;
  a_w ← rdv (array h) w;
  arr1 ← wr (array h) v (Some a_w);
  inds1 ← wr (inds h) (ind a_w) v;
  arr2 ← wr arr1 w (Some tmp_v);
  inds2 ← wr inds1 (ind tmp_v) w;
  Ok (mk_heap arr2 inds2 (nb_elements h) (max_elements h)).

(** [malloc] of a negative size fails, and the [assert] after it fires *)
Definition heap_create (nb_inds : Z) : result heap_s :=
  if nb_inds <? 0 then AssertFail
  else Ok (mk_heap (replicate (Z.to_nat nb_inds) None)
                   (replicate (Z.to_nat nb_inds) (-1))
                   0 nb_inds).

Fixpoint check_slots (h : heap_s) (slots : list Z) : result bool :=
  match slots with
  | [] => Ok true
  | i :: rest =>
      a_i ← rdv (array h) i;
      s ← rd (inds h) (ind a_i);
      if negb (s =? i) then Ok false else check_slots h rest
  end.

Definition check_heap (h : heap_s) : result bool :=
  if nb_elements h >=? max_elements h then Ok false
  else check_slots h (seqZ 0 (nb_elements h)).

(** the sift-up loop of [heap_add]; [i] strictly decreases, so that
    [Z.to_nat i] rounds are enough *)
Fixpoint sift_up (n : nat) (h : heap_s) (i : Z) : result heap_s :=
  match n with
  | O => Ok h
  | S n' =>
      if i >? 0 then
        a_i ← rdv (array h) i;
        a_p ← rdv (array h) (Z.quot (i - 1) 2);
        if wlt (weight a_i) (weight a_p) then
          s ← rd (inds h) (ind a_i);
          _ ← assert (s =? i);
          h' ← swap h i (Z.quot (i - 1) 2);
          sift_up n' h' (Z.quot (i - 1) 2)
        else Ok h
      else Ok h
  end.

Definition heap_add (vertex : vertex_s) (heap : heap_s) : result heap_s :=
  b ← check_heap heap;
  _ ← assert b;
  s ← rd (inds heap) (ind vertex);
  h' ← (if s =? -1 then
          let i := nb_elements heap in
          let nb := nb_elements heap + 1 in
          _ ← assert (nb <=? max_elements heap);
          arr ← wr (array heap) i (Some vertex);
          inds' ← wr (inds heap) (ind vertex) i;
          sift_up (Z.to_nat i) (mk_heap arr inds' nb (max_elements heap)) i
        else
          let i := s in
          a_i ← rdv (array heap) i;
          if wlt (weight vertex) (weight a_i) then
            arr ← wr (array heap) i (Some vertex);
            Ok (mk_heap arr (inds heap) (nb_elements heap) (max_elements heap))
          else Ok heap);
  b' ← check_heap h';
  _ ← assert b';
  Ok h'.

Definition heap_empty (heap : heap_s) : bool := nb_elements heap =? 0.

Definition heap_peek (heap : heap_s) : result vertex_s :=
  _ ← assert (negb (heap_empty heap));
  rdv (array heap) 0.

(** the sift-down loop of [heap_remove]; [i] strictly increases and
    stays below [nb_elements], so that [nb_elements] rounds are enough *)
Fixpoint sift_down (n : nat) (h : heap_s) (i : Z) : result heap_s :=
  match n with
  | O => Ok h
  | S n' =>
      if i <? nb_elements h then
        let left_index := i * 2 + 1 in
        let right_index := i * 2 + 2 in
        let largest_index := i in
        largest_index ←
          (if left_index <? nb_elements h then
             a_l ← rdv (array h) left_index;
             a_g ← rdv (array h) largest_index;
             Ok (if wlt (weight a_l) (weight a_g) then left_index else largest_index)
           else Ok largest_index);
        largest_index ←
          (if right_index <? nb_elements h then
             a_r ← rdv (array h) right_index;
             a_g ← rdv (array h) largest_index;
             Ok (if wlt (weight a_r) (weight a_g) then right_index else largest_index)
           else Ok largest_index);
        if largest_index =? i then Ok h
        else
          h' ← swap h i largest_index;
          sift_down n' h' largest_index
      else Ok h
  end.

Definition heap_remove (heap : heap_s) : result heap_s :=
  b ← check_heap heap;
  _ ← assert b;
  last ← rdv (array heap) (nb_elements heap - 1);
  arr ← wr (array heap) 0 (Some last);
  inds' ← wr (inds heap) (ind last) 0;
  let h1 := mk_heap arr inds' (nb_elements heap - 1) (max_elements heap) in
  h' ← sift_down (Z.to_nat (nb_elements h1)) h1 0;
  b' ← check_heap h';
  _ ← assert b';
  Ok h'.

End Heap.

Arguments mk_vertex {W} ind weight prev.
Arguments ind {W} v.
Arguments weight {W} v.
Arguments prev {W} v.
Arguments mk_heap {W} array inds nb_elements max_elements.
Arguments array {W} h.
Arguments inds {W} h.
Arguments nb_elements {W} h.
Arguments max_elements {W} h.
Arguments swap {W} h v w.
Arguments heap_create {W} nb_inds.
Arguments check_slots {W} h slots.
Arguments check_heap {W} h.
Arguments sift_up {W} wlt n h i.
Arguments sift_down {W} wlt n h i.
Arguments heap_add {W} wlt vertex heap.
Arguments heap_empty {W} heap.
Arguments heap_peek {W} heap.
Arguments heap_remove {W} wlt heap.

(** ** [double] values: exact numbers and +infinity *)

(** [Num z] is the [double] of integer value [z]: on these values (below
    2^53 in magnitude) the sum and the comparison of [double] are exact,
    and the graphs of the specification have no other weights. *)
Inductive double : Type :=
| Num (z : Z)
| INFINITY.

(** [a < b] *)
Definition dlt (a b : double) : bool :=
  match a, b with
  | Num x, Num y => x <? y
  | Num _, INFINITY => true
  | INFINITY, _ => false
  end.

(** [a + b] *)
Definition dadd (a b : double) : double :=
  match a, b with
  | Num x, Num y => Num (x + y)
  | _, _ => INFINITY
  end.

(** [a != INFINITY] *)
Definition is_finite (a : double) : bool :=
  match a with Num _ => true | INFINITY => false end.

(** ** Edges, as [create_graph] receives them (graph_list.h, graph_matrix.h) *)

(** [e_src], [e_dst] and [e_weight] are the fields [src], [dst] and
    [weight] of the source *)
Record edge_s (W : Type) : Type := mk_edge {
  e_src : Z;
  e_dst : Z;
  e_weight : W
}.
Arguments mk_edge {W} e_src e_dst e_weight.
Arguments e_src {W} e.
Arguments e_dst {W} e.
Arguments e_weight {W} e.

(** ** Adjacency lists (graph_list.c) *)

Module GraphList.
Section Graph.

Variable W : Type.

(** an [adj_list_s] chain is the list of its [vertex] fields *)
Record graph_s : Type := mk_graph {
  nb_vertices : Z;
  nb_edges : Z;
  directed : bool;
  adj_lists : list (list (vertex_s W))
}.

(** one round of the loop over the edges: the new node is linked in
    front of the list of its source *)
Definition add_edge (directed : bool) (adj : list (list (vertex_s W)))
    (e : edge_s W) : result (list (list (vertex_s W))) :=
  old ← rd adj (e_src e);
  adj1 ← wr adj (e_src e) (mk_vertex (e_dst e) (e_weight e) (e_src e) :: old);
  if negb directed then
    old' ← rd adj1 (e_dst e);
    wr adj1 (e_dst e) (mk_vertex (e_src e) (e_weight e) (e_dst e) :: old')
  else Ok adj1.

Fixpoint add_edges (directed : bool) (adj : list (list (vertex_s W)))
    (edges : list (edge_s W)) (range : list Z) : result (list (list (vertex_s W))) :=
  match range with
  | [] => Ok adj
  | i :: rest =>
      e ← rd edges i;
      adj' ← add_edge directed adj e;
      add_edges directed adj' edges rest
  end.

(** the allocations are taken to succeed *)
Definition create_graph (nb_vertices nb_edges : Z) (directed : bool)
    (edges : list (edge_s W)) : result graph_s :=
  adj ← add_edges directed (replicate (Z.to_nat nb_vertices) []) edges
        (seqZ 0 nb_edges);
  Ok (mk_graph nb_vertices nb_edges directed adj).

(** [NULL] is the empty list *)
Definition get_adj_list (g : graph_s) (ind : Z) : result (list (vertex_s W)) :=
  if ind >=? nb_vertices g then Ok [] else rd (adj_lists g) ind.

End Graph.

Arguments mk_graph {W} nb_vertices nb_edges directed adj_lists.
Arguments nb_vertices {W} g.
Arguments nb_edges {W} g.
Arguments directed {W} g.
Arguments adj_lists {W} g.
Arguments create_graph {W} nb_vertices nb_edges directed edges.
Arguments get_adj_list {W} g ind.
End GraphList.

(** ** Dijkstra's algorithm (main_dijkstra.c) *)

Section Dijkstra.

Variable W : Type.
(** [a < b], [a + b], [INFINITY] and [0.0] on the weights *)
Variable wlt : W -> W -> bool.
Variable wadd : W -> W -> W.
Variable winf : W.
Variable wzero : W.

Import GraphList.

(** the state of the main loop *)
Record dijkstra_state : Type := mk_state {
  visited_vertices : list bool;
  dist : list (vertex_s W);
  q : heap_s W
}.

(** the loop over the adjacency list of the vertex [v] *)
Fixpoint relax (v : vertex_s W) (dist : list (vertex_s W))
    (adj : list (vertex_s W)) (q : heap_s W) : result (heap_s W) :=
  match adj with
  | [] => Ok q
  | a :: rest =>
      let new_weight := wadd (weight v) (weight a) in
      d ← rd dist (ind a);
      q' ← (if wlt new_weight (weight d)
            then heap_add wlt (mk_vertex (ind a) new_weight (ind v)) q
            else Ok q);
      relax v dist rest q'
  end.

(** one round of the main loop *)
Definition dijkstra_step (g : graph_s W) (st : dijkstra_state) : result dijkstra_state :=
  v ← heap_peek (q st);
  q1 ← heap_remove wlt (q st);
  seen ← rd (visited_vertices st) (ind v);
  if negb seen then
    visited' ← wr (visited_vertices st) (ind v) true;
    d ← rd (dist st) (ind v);
    dist' ← wr (dist st) (ind v) (mk_vertex (ind d) (weight v) (prev v));
    adj ← get_adj_list g (ind v);
    q2 ← relax v dist' adj q1;
    Ok (mk_state visited' dist' q2)
  else Ok (mk_state (visited_vertices st) (dist st) q1).

Fixpoint dijkstra_loop (fuel : nat) (g : graph_s W) (st : dijkstra_state)
    : result dijkstra_state :=
  if heap_empty (q st) then Ok st
  else match fuel with
       | O => Timeout
       | S fuel' =>
           st' ← dijkstra_step g st;
           dijkstra_loop fuel' g st'
       end.

(** the adjacency list of [w], empty when [get_adj_list] has none *)
Definition adj_of (g : graph_s W) (w : Z) : list (vertex_s W) :=
  match get_adj_list g w with
  | Ok adj => adj
  | _ => []
  end.

(** the number of edges out of the vertices not yet visited, [w] being
    the vertex of the first cell of [visited] *)
Fixpoint pending (g : graph_s W) (w : Z) (visited : list bool) : nat :=
  match visited with
  | [] => 0
  | b :: rest =>
      ((if b then 0 else length (adj_of g w)) + pending g (w + 1) rest)%nat
  end.

(** a bound on the rounds of the main loop: every round takes one entry
    out of the heap, and only the first visit of a vertex puts entries
    in, one per outgoing edge at most *)
Definition dijkstra_fuel (g : graph_s W) : nat :=
  S (pending g 0 (replicate (Z.to_nat (nb_vertices g)) false)).

(** the run up to the end of the main loop; [malloc] of a negative size
    fails, and the [assert] after it fires *)
Definition dijkstra_run (g : graph_s W) (src : Z) : result dijkstra_state :=
  let nb_vertices := nb_vertices g in
  _ ← assert (0 <=? nb_vertices);
  let visited_vertices := replicate (Z.to_nat nb_vertices) false in
  let dist := (fun i => mk_vertex i winf (-1)) <$> seqZ 0 nb_vertices in
  q ← heap_create nb_vertices;
  d ← rd dist src;
  dist ← wr dist src (mk_vertex (ind d) wzero (prev d));
  d ← rd dist src;
  q ← heap_add wlt d q;
  dijkstra_loop (dijkstra_fuel g) g (mk_state visited_vertices dist q).

Definition dijkstra (g : graph_s W) (src : Z) : result (list (vertex_s W)) :=
  st ← dijkstra_run g src;
  Ok (dist st).

End Dijkstra.

Arguments mk_state {W} visited_vertices dist q.
Arguments visited_vertices {W} _.
Arguments dist {W} _.
Arguments q {W} _.
Arguments relax {W} wlt wadd v dist adj q.
Arguments dijkstra_step {W} wlt wadd g st.
Arguments dijkstra_loop {W} wlt wadd fuel g st.
Arguments adj_of {W} g w.
Arguments pending {W} g w visited.
Arguments dijkstra_fuel {W} g.
Arguments dijkstra_run {W} wlt wadd winf wzero g src.
Arguments dijkstra {W} wlt wadd winf wzero g src.

(** ** Adjacency matrices (graph_matrix.c) *)

#[export] Instance double_inhabited : Inhabited double := populate INFINITY.

(** [a[i]] and [a[i] = x] for the arrays of the matrix programs, whose
    indices are loop counters below the size of the array *)
Definition aget {A} `{Inhabited A} (a : list A) (i : Z) : A := a !!! Z.to_nat i.
Definition aset {A} (a : list A) (i : Z) (x : A) : list A := <[Z.to_nat i := x]> a.

(** [m[i][j]] and [m[i][j] = x] *)
Definition aget2 {A} `{Inhabited A} (m : list (list A)) (i j : Z) : A :=
  aget (aget m i) j.
Definition aset2 {A} (m : list (list A)) (i j : Z) (x : A) : list (list A) :=
  aset m i (aset (aget m i) j x).

(** [for (i = lo; i < hi; i++) body] *)
Definition for_loop {St} (lo hi : Z) (body : Z -> St -> St) (s : St) : St :=
  foldl (fun s i => body i s) s (seqZ lo (hi - lo)).

Module GraphMatrix.

(** the rows of the fresh matrix: 0 on the diagonal, INFINITY elsewhere *)
Definition init_matrix (nb_vertices : Z) : list (list double) :=
  (fun i => (fun j => if i =? j then Num 0 else INFINITY) <$> seqZ 0 nb_vertices)
    <$> seqZ 0 nb_vertices.

Definition in_range (nb_vertices i : Z) : bool := (0 <=? i) && (i <? nb_vertices).

(** one round of the loop over the edges *)
Definition add_edge (nb_vertices : Z) (directed : bool)
    (m : list (list double)) (e : edge_s double) : result (list (list double)) :=
  if in_range nb_vertices (e_src e) && in_range nb_vertices (e_dst e) then
    let m1 := aset2 m (e_src e) (e_dst e) (e_weight e) in
    Ok (if negb directed then aset2 m1 (e_dst e) (e_src e) (e_weight e) else m1)
  else Undefined.

Fixpoint add_edges (nb_vertices : Z) (directed : bool) (m : list (list double))
    (edges : list (edge_s double)) (range : list Z) : result (list (list double)) :=
  match range with
  | [] => Ok m
  | i :: rest =>
      e ← rd edges i;
      m' ← add_edge nb_vertices directed m e;
      add_edges nb_vertices directed m' edges rest
  end.

(** the adjacency matrix that [create_graph] builds *)
Definition create_matrix (nb_vertices nb_edges : Z) (directed : bool)
    (edges : list (edge_s double)) : result (list (list double)) :=
  add_edges nb_vertices directed (init_matrix nb_vertices) edges (seqZ 0 nb_edges).

End GraphMatrix.

(** ** Bellman-Ford (main_bellman_ford.c, graph_matrix.h) *)

Module BellmanFord.

Record graph_s : Type := mk_graph {
  nb_vertices : Z;
  nb_edges : Z;
  directed : bool;
  adj_matrix : list (list double);
  dist : list double;
  parent : list Z;
  neg_weight_cycle : bool
}.

(** Modelled from the spec: graph_matrix.c of the Bellman-Ford program is
    not among the sources; the adjacency matrix is the one of the
    Floyd-Warshall program's graph_matrix.c (0 on the diagonal, INFINITY
    where there is no edge, the last weight of a pair wins), [dist] and
    [parent] have [nb_vertices] cells and the flag starts cleared. *)
Definition create_graph (nb_vertices nb_edges : Z) (directed : bool)
    (edges : list (edge_s double)) : result graph_s :=
  m ← GraphMatrix.create_matrix nb_vertices nb_edges directed edges;
  Ok (mk_graph nb_vertices nb_edges directed m
        (replicate (Z.to_nat nb_vertices) INFINITY)
        (replicate (Z.to_nat nb_vertices) (-1)) false).

(** the body of the two inner loops of the relaxation *)
Definition relax_edge (adj_matrix : list (list double)) (w u : Z)
    (st : list double * list Z) : list double * list Z :=
  let '(dist, parent) := st in
  if is_finite (aget2 adj_matrix u w) then
    let new_distance := dadd (aget dist u) (aget2 adj_matrix u w) in
    if dlt new_distance (aget dist w)
    then (aset dist w new_distance, aset parent w u)
    else st
  else st.

(** [for w ... for u ...] of the relaxation *)
Definition relax_pass (nb_vertices : Z) (adj_matrix : list (list double))
    (st : list double * list Z) : list double * list Z :=
  for_loop 0 nb_vertices (fun w =>
    for_loop 0 nb_vertices (fun u => relax_edge adj_matrix w u)) st.

(** the test of the last pair of loops *)
Definition improves (adj_matrix : list (list double)) (dist : list double)
    (w u : Z) : bool :=
  is_finite (aget2 adj_matrix u w)
  && dlt (dadd (aget dist u) (aget2 adj_matrix u w)) (aget dist w).

(** the last pair of loops returns at the first pair [(w, u)] that passes
    the test, and changes nothing but the flag *)
Definition detect (nb_vertices : Z) (adj_matrix : list (list double))
    (dist : list double) : bool :=
  existsb (fun w => existsb (fun u => improves adj_matrix dist w u)
                      (seqZ 0 nb_vertices))
          (seqZ 0 nb_vertices).

(** the initialisation loop *)
Definition init (nb_vertices src : Z) : list double * list Z :=
  ((fun w => if negb (w =? src) then INFINITY else Num 0) <$> seqZ 0 nb_vertices,
   (fun w => if negb (w =? src) then -1 else w) <$> seqZ 0 nb_vertices).

(** [for (int k = 1; k < nb_vertices - 1; k++)] *)
Definition main_loop (nb_vertices : Z) (adj_matrix : list (list double))
    (st : list double * list Z) : list double * list Z :=
  for_loop 1 (nb_vertices - 1) (fun k => relax_pass nb_vertices adj_matrix) st.

Definition bellman_ford (g : graph_s) (src : Z) : graph_s :=
  let nb_vertices := nb_vertices g in
  let adj_matrix := adj_matrix g in
  let '(dist, parent) := main_loop nb_vertices adj_matrix (init nb_vertices src) in
  mk_graph nb_vertices (nb_edges g) (directed g) adj_matrix dist parent
    (if detect nb_vertices adj_matrix dist then true else neg_weight_cycle g).

End BellmanFord.

(** ** Floyd-Warshall (main_floyd_warshall.c, graph_matrix.c) *)

Module FloydWarshall.

Record graph_s : Type := mk_graph {
  nb_vertices : Z;
  nb_edges : Z;
  directed : bool;
  adj_matrix : list (list double);
  dist : list (list double);
  parent : list (list Z)
}.

(** [dist] and [parent] are allocated and left unwritten: every cell is
    written by [floyd_warshall] before it is read *)
Definition create_graph (nb_vertices nb_edges : Z) (directed : bool)
    (edges : list (edge_s double)) : result graph_s :=
  m ← GraphMatrix.create_matrix nb_vertices nb_edges directed edges;
  Ok (mk_graph nb_vertices nb_edges directed m
        (replicate (Z.to_nat nb_vertices) (replicate (Z.to_nat nb_vertices) INFINITY))
        (replicate (Z.to_nat nb_vertices) (replicate (Z.to_nat nb_vertices) (-1)))).

(** the initialisation of [dist] and [parent] *)
Definition init (nb_vertices : Z) (adj_matrix : list (list double))
    : list (list double) * list (list Z) :=
  ((fun v => (fun w => aget2 adj_matrix v w) <$> seqZ 0 nb_vertices)
     <$> seqZ 0 nb_vertices,
   (fun v => (fun w => if is_finite (aget2 adj_matrix v w) then v else -1)
               <$> seqZ 0 nb_vertices)
     <$> seqZ 0 nb_vertices).

(** the body of the triple loop *)
Definition relax_via (k v w : Z) (st : list (list double) * list (list Z))
    : list (list double) * list (list Z) :=
  let '(dist, parent) := st in
  let new_distance := dadd (aget2 dist v k) (aget2 dist k w) in
  if dlt new_distance (aget2 dist v w)
  then (aset2 dist v w new_distance, aset2 parent v w (aget2 parent k w))
  else st.

Definition triple_loop (nb_vertices : Z)
    (st : list (list double) * list (list Z)) : list (list double) * list (list Z) :=
  for_loop 0 nb_vertices (fun k =>
    for_loop 0 nb_vertices (fun v =>
      for_loop 0 nb_vertices (fun w => relax_via k v w))) st.

(** the function ends with [return true] after the triple loop; the
    result is the graph with its matrices filled, and the value returned *)
Definition floyd_warshall (g : graph_s) : graph_s * bool :=
  let nb_vertices := nb_vertices g in
  let '(dist, parent) := triple_loop nb_vertices (init nb_vertices (adj_matrix g)) in
  (mk_graph nb_vertices (nb_edges g) (directed g) (adj_matrix g) dist parent, true).

(** [main]: [bool has_neg_weight_cycle = !floyd_warshall(g);] *)
Definition has_neg_weight_cycle (g : graph_s) : bool := negb (snd (floyd_warshall g)).

End FloydWarshall.

(** ** The Markov variant of Dijkstra (main_dijkstra_markov.c) *)

Section Markov.

Variable W : Type.
(** [a < b] on the keys of the heap, [a > b] and [a * b] on the
    probabilities, [-a], [exp] and [log], [0.0] and [1.0] *)
Variable wlt : W -> W -> bool.
Variable wgt : W -> W -> bool.
Variable wmul : W -> W -> W.
Variable wneg : W -> W.
Variable wexp : W -> W.
Variable wlog : W -> W.
Variable wzero : W.
Variable wone : W.

Import GraphList.

(** the loop over the adjacency list of the vertex [v], whose weight is
    already its probability *)
Fixpoint relax_markov (v : vertex_s W) (dist : list (vertex_s W))
    (adj : list (vertex_s W)) (q : heap_s W) : result (heap_s W) :=
  match adj with
  | [] => Ok q
  | a :: rest =>
      let new_weight := wmul (weight v) (weight a) in
      d ← rd dist (ind a);
      q' ← (if wgt new_weight (weight d)
            then heap_add wlt (mk_vertex (ind a) (wneg (wlog new_weight)) (ind v)) q
            else Ok q);
      relax_markov v dist rest q'
  end.

Definition markov_step (g : graph_s W) (st : dijkstra_state W)
    : result (dijkstra_state W) :=
  v ← heap_peek (q st);
  q1 ← heap_remove wlt (q st);
  let v := mk_vertex (ind v) (wexp (wneg (weight v))) (prev v) in
  seen ← rd (visited_vertices st) (ind v);
  if negb seen then
    visited' ← wr (visited_vertices st) (ind v) true;
    d ← rd (dist st) (ind v);
    dist' ← wr (dist st) (ind v) (mk_vertex (ind d) (weight v) (prev v));
    adj ← get_adj_list g (ind v);
    q2 ← relax_markov v dist' adj q1;
    Ok (mk_state visited' dist' q2)
  else Ok (mk_state (visited_vertices st) (dist st) q1).

Fixpoint markov_loop (fuel : nat) (g : graph_s W) (st : dijkstra_state W)
    : result (dijkstra_state W) :=
  if heap_empty (q st) then Ok st
  else match fuel with
       | O => Timeout
       | S fuel' =>
           st' ← markov_step g st;
           markov_loop fuel' g st'
       end.

Definition markov_run (g : graph_s W) (src : Z) : result (dijkstra_state W) :=
  let nb_vertices := nb_vertices g in
  _ ← assert (0 <=? nb_vertices);
  let visited_vertices := replicate (Z.to_nat nb_vertices) false in
  let dist := (fun i => mk_vertex i wzero (-1)) <$> seqZ 0 nb_vertices in
  q ← heap_create nb_vertices;
  d ← rd dist src;
  dist ← wr dist src (mk_vertex (ind d) wone (prev d));
  d ← rd dist src;
  q ← heap_add wlt d q;
  markov_loop (dijkstra_fuel g) g (mk_state visited_vertices dist q).

Definition dijkstra_markov (g : graph_s W) (src : Z) : result (list (vertex_s W)) :=
  st ← markov_run g src;
  Ok (dist st).

End Markov.

Arguments dijkstra_markov {W} wlt wgt wmul wneg wexp wlog wzero wone g src.

(** ** The programs on [double] and on the real numbers *)


(** [dijkstra] on [double] weights *)
Definition dijkstra_double : GraphList.graph_s double -> Z -> result (list (vertex_s double)) :=
  dijkstra dlt dadd INFINITY (Num 0).

Definition dijkstra_double_run : GraphList.graph_s double -> Z -> result (dijkstra_state double) :=
  dijkstra_run dlt dadd INFINITY (Num 0).

(** [a < b] and [a > b] on the real numbers *)
Definition Rltb (x y : R) : bool := if Rlt_dec x y then true else false.
Definition Rgtb (x y : R) : bool := if Rgt_dec x y then true else false.

(** [dijkstra_markov] on real numbers: [exp] and [log] are the
    exponential and the natural logarithm *)
Definition dijkstra_markov_real : GraphList.graph_s R -> Z -> result (list (vertex_s R)) :=
  dijkstra_markov Rltb Rgtb Rmult Ropp exp ln 0%R 1%R.

(** ** Sequences of heap operations *)

Section HeapRuns.

Variable W : Type.
Variable wlt : W -> W -> bool.

(** [heap_add] of each vertex of a list, in order *)
Fixpoint heap_adds (vs : list (vertex_s W)) (h : heap_s W) : result (heap_s W) :=
  match vs with
  | [] => Ok h
  | v :: rest => h' ← heap_add wlt v h; heap_adds rest h'
  end.

(** [while (!heap_empty(q)) { v = heap_peek(q); q = heap_remove(q); }]:
    the entries in the order they come out *)
Fixpoint heap_drain (fuel : nat) (h : heap_s W) : result (list (vertex_s W)) :=
  if heap_empty h then Ok []
  else match fuel with
       | O => Timeout
       | S fuel' =>
           v ← heap_peek h;
           h' ← heap_remove wlt h;
           rest ← heap_drain fuel' h';
           Ok (v :: rest)
       end.

(** a heap operation of a client *)
Inductive heap_op : Type :=
| Add (v : vertex_s W)
| Remove.

Definition run_op (op : heap_op) (h : heap_s W) : result (heap_s W) :=
  match op with
  | Add v => heap_add wlt v h
  | Remove => heap_remove wlt h
  end.

Fixpoint run_ops (ops : list heap_op) (h : heap_s W) : result (heap_s W) :=
  match ops with
  | [] => Ok h
  | op :: rest => h' ← run_op op h; run_ops rest h'
  end.

(** the slot [i] is live and holds [a] *)
Definition slot (h : heap_s W) (i : Z) (a : vertex_s W) : Prop :=
  0 <= i < nb_elements h /\ array h !! Z.to_nat i = Some (Some a).

(** every live entry satisfies [P] *)
Definition live_all (P : vertex_s W -> Prop) (h : heap_s W) : Prop :=
  forall i a, slot h i a -> P a.

(** key(parent(i)) <= key(i) for every live slot but the root *)
Definition heap_ordered (h : heap_s W) : Prop :=
  forall i a p, 0 < i -> slot h i a -> slot h (Z.quot (i - 1) 2) p ->
    wlt (weight a) (weight p) = false.

(** the heap holds one live entry for each vertex of [added], and the
    index of every other vertex is still -1 *)
Definition heap_counts (h : heap_s W) (added : list Z) : Prop :=
  nb_elements h = Z.of_nat (length added)
  /\ live_all (fun a => ind a ∈ added) h
  /\ forall x s, 0 <= x -> x ∉ added -> inds h !! Z.to_nat x = Some s -> s = -1.

(** the heap order, but for the slots whose parent is [i] *)
Definition ordered_below (h : heap_s W) (i : Z) : Prop :=
  forall j a p, 0 < j -> Z.quot (j - 1) 2 <> i ->
    slot h j a -> slot h (Z.quot (j - 1) 2) p ->
    wlt (weight a) (weight p) = false.

(** the heap order, but for the slot [i] itself *)
Definition ordered_above (h : heap_s W) (i : Z) : Prop :=
  forall j a p, 0 < j -> j <> i ->
    slot h j a -> slot h (Z.quot (j - 1) 2) p ->
    wlt (weight a) (weight p) = false.

(** the children of [i] are not below the parent of [i] *)
Definition children_above_parent (h : heap_s W) (i : Z) : Prop :=
  forall c a p, 0 < i -> 0 < c -> Z.quot (c - 1) 2 = i ->
    slot h c a -> slot h (Z.quot (i - 1) 2) p ->
    wlt (weight a) (weight p) = false.

(** inds[array[i].ind] == i for every live slot *)
Definition index_consistent (h : heap_s W) : Prop :=
  forall i a, slot h i a -> inds h !! Z.to_nat (ind a) = Some i /\ 0 <= ind a.

End HeapRuns.

Arguments heap_adds {W} wlt vs h.
Arguments heap_drain {W} wlt fuel h.
Arguments Add {W} v.
Arguments Remove {W}.
Arguments run_op {W} wlt op h.
Arguments run_ops {W} wlt ops h.
Arguments slot {W} h i a.
Arguments live_all {W} P h.
Arguments heap_counts {W} h added.
Arguments heap_ordered {W} wlt h.
Arguments ordered_below {W} wlt h i.
Arguments ordered_above {W} wlt h i.
Arguments children_above_parent {W} wlt h i.
Arguments index_consistent {W} h.

(** ** Paths of a graph and the invariant of the main loop of [dijkstra] *)

Section Paths.

Variable W : Type.
Variable wadd : W -> W -> W.
Variable winf : W.
Variable wzero : W.

Import GraphList.

(** [g] has an edge from [v] to [w] of weight [c] *)
Definition has_edge (g : graph_s W) (v w : Z) (c : W) : Prop :=
  exists adj a, get_adj_list g v = Ok adj /\ a ∈ adj /\ ind a = w /\ weight a = c.

(** there is a path from [src] to [w] whose weights add up to [d], the
    sum being taken from the source on, as [dijkstra] does *)
Inductive path_weight (g : graph_s W) (src : Z) : Z -> W -> Prop :=
| path_here : path_weight g src src wzero
| path_step v w d c :
    path_weight g src v d -> has_edge g v w c ->
    path_weight g src w (wadd d c).

(** the entry pushed for the source, and the entry of a vertex that was
    never reached *)
Definition source_entry (src : Z) : vertex_s W := mk_vertex src wzero (-1).
Definition unreached_entry (w : Z) : vertex_s W := mk_vertex w winf (-1).

(** the entry [a] extends by one edge the path recorded in the table
    [dist] for its predecessor *)
Definition extends (g : graph_s W) (src : Z) (dist : list (vertex_s W))
    (a : vertex_s W) : Prop :=
  exists dp c,
    0 <= prev a /\ dist !! Z.to_nat (prev a) = Some dp
    /\ path_weight g src (prev a) (weight dp)
    /\ has_edge g (prev a) (ind a) c
    /\ weight a = wadd (weight dp) c.

(** [extends], for a predecessor that is visited *)
Definition relaxed (g : graph_s W) (src : Z) (visited : list bool)
    (dist : list (vertex_s W)) (a : vertex_s W) : Prop :=
  extends g src dist a /\ visited !! Z.to_nat (prev a) = Some true.

Definition justified (g : graph_s W) (src : Z) (visited : list bool)
    (dist : list (vertex_s W)) (a : vertex_s W) : Prop :=
  a = source_entry src \/ relaxed g src visited dist a.

Record dijkstra_inv (g : graph_s W) (src : Z) (st : dijkstra_state W) : Prop := {
  inv_ind : forall w d, dist st !! w = Some d -> ind d = Z.of_nat w;
  inv_source : 0 <= src /\ dist st !! Z.to_nat src = Some (source_entry src);
  inv_unvisited : forall w d,
    visited_vertices st !! w = Some false -> dist st !! w = Some d ->
    Z.of_nat w <> src -> d = unreached_entry (Z.of_nat w);
  inv_visited : forall w d,
    visited_vertices st !! w = Some true -> dist st !! w = Some d ->
    path_weight g src (Z.of_nat w) (weight d)
    /\ justified g src (visited_vertices st) (dist st) d;
  inv_heap : live_all (justified g src (visited_vertices st) (dist st)) (q st);
  inv_first : visited_vertices st !! Z.to_nat src = Some false ->
    live_all (fun a => a = source_entry src) (q st);
  inv_nb : 0 <= nb_elements (q st);
  inv_len : length (visited_vertices st) = length (dist st)
}.

End Paths.

Arguments has_edge {W} g v w c.
Arguments path_weight {W} wadd wzero g src _ _.
Arguments source_entry {W} wzero src.
Arguments unreached_entry {W} winf w.
Arguments extends {W} wadd wzero g src dist a.
Arguments relaxed {W} wadd wzero g src visited dist a.
Arguments justified {W} wadd wzero g src visited dist a.
Arguments dijkstra_inv {W} wadd winf wzero g src st.

(** the keys of a list of entries are in non-decreasing order *)
Fixpoint keys_sorted (l : list (vertex_s double)) : bool :=
  match l with
  | a :: (b :: _) as rest => negb (dlt (weight b) (weight a)) && keys_sorted rest
  | _ => true
  end.

(** ** Walks of a matrix graph, and the invariant of the relaxation
       rounds of [bellman_ford] *)

(** there is a walk from [src] to [w] whose weights add up to [c] *)
Inductive walk (n : Z) (adj_matrix : list (list double)) (src : Z) : Z -> Z -> Prop :=
| walk_here : walk n adj_matrix src src 0
| walk_step u w c a :
    walk n adj_matrix src u c -> 0 <= u < n -> 0 <= w < n ->
    aget2 adj_matrix u w = Num a ->
    walk n adj_matrix src w (c + a).

Definition bf_inv (n : Z) (adj_matrix : list (list double)) (src : Z)
    (st : list double * list Z) : Prop :=
  length (fst st) = Z.to_nat n /\ length (snd st) = Z.to_nat n
  /\ (forall w, 0 <= w < n -> w <> src ->
        aget (fst st) w = INFINITY -> aget (snd st) w = -1)
  /\ ((aget (fst st) src = Num 0 /\ aget (snd st) src = src)
      \/ exists z, aget (fst st) src = Num z /\ z < 0)
  /\ (forall w z, 0 <= w < n -> aget (fst st) w = Num z -> walk n adj_matrix src w z).

(** ** The textbook relaxation scheme of the specification *)

Module BellmanFordSpec.
Import BellmanFord.

(** Follows the words of the specification: [n-1] relaxation rounds, then
    one detection pass. *)
Definition bellman_ford_rounds (g : graph_s) (src : Z) : graph_s :=
  let n := nb_vertices g in
  let '(dist, parent) :=
    Nat.iter (Z.to_nat (n - 1)) (relax_pass n (adj_matrix g)) (init n src) in
  mk_graph n (nb_edges g) (directed g) (adj_matrix g) dist parent
    (if detect n (adj_matrix g) dist then true else neg_weight_cycle g).

End BellmanFordSpec.

(** ** Example graphs of the specification *)

Definition edge (a b w : Z) : edge_s double := mk_edge a b (Num w).

(** 4 vertices, undirected edges 0-1/1.0, 1-2/2.0, 0-2/5.0, 2-3/1.0 *)
Definition edges4 : list (edge_s double) :=
  [edge 0 1 1; edge 1 2 2; edge 0 2 5; edge 2 3 1].

(** the directed 2-cycle (0->1, -1), (1->0, -1) *)
Definition edges_cycle2 : list (edge_s double) := [edge 0 1 (-1); edge 1 0 (-1)].

(** one directed edge 0->1 of weight 1 on 2 vertices *)
Definition edges_one : list (edge_s double) := [edge 0 1 1].

(** 4 vertices, directed edges 0->2/5, 0->3/9, 0->1/1, 1->3/1, 3->2/1 *)
Definition edges_late : list (edge_s double) :=
  [edge 0 2 5; edge 0 3 9; edge 0 1 1; edge 1 3 1; edge 3 2 1].

(** the 3-state chain 0->1 (0.6), 0->2 (0.4), 1->2 (1.0) *)
Definition edges_chain : list (edge_s R) :=
  [mk_edge 0 1 (6 / 10)%R; mk_edge 0 2 (4 / 10)%R; mk_edge 1 2 1%R].

Definition vertex (i w p : Z) : vertex_s double := mk_vertex i (Num w) p.

(** the columns of a single-source result table *)
Definition weights {W} (t : list (vertex_s W)) : list W := weight <$> t.
Definition predecessors {W} (t : list (vertex_s W)) : list Z := prev <$> t.

(** the result table of [bellman_ford] *)
Definition bf_table (g : BellmanFord.graph_s) : list double * list Z * bool :=
  (BellmanFord.dist g, BellmanFord.parent g, BellmanFord.neg_weight_cycle g).

(** the graph that [create_graph] builds from [edges4], and the one of the
    Bellman-Ford program for the same edges *)
Definition graph4 : GraphList.graph_s double :=
  GraphList.mk_graph 4 4 false
    [[vertex 2 5 0; vertex 1 1 0];
     [vertex 2 2 1; vertex 0 1 1];
     [vertex 3 1 2; vertex 0 5 2; vertex 1 2 2];
     [vertex 2 1 3]].

Definition matrix_graph4 : BellmanFord.graph_s :=
  BellmanFord.mk_graph 4 4 false
    [[Num 0; Num 1; Num 5; INFINITY];
     [Num 1; Num 0; Num 2; INFINITY];
     [Num 5; Num 2; Num 0; Num 1];
     [INFINITY; INFINITY; Num 1; Num 0]]
    (replicate 4 INFINITY) (replicate 4 (-1)) false.

(** the table of [dijkstra] on [graph4] from the source 0 *)
Definition table4 : list (vertex_s double) :=
  [vertex 0 0 (-1); vertex 1 1 0; vertex 2 3 1; vertex 3 4 2].

(** ** Well-formed heaps and their live entries *)

Section HeapShape.

Variable W : Type.

(** the arrays have [max_elements] cells, every live slot is written and
    indexed, and every index other than -1 points to a written cell *)
Definition heap_shape (h : heap_s W) : Prop :=
  Z.of_nat (length (array h)) = max_elements h
  /\ Z.of_nat (length (inds h)) = max_elements h
  /\ 0 <= nb_elements h <= max_elements h
  /\ (forall i, 0 <= i < nb_elements h ->
        exists a, array h !! Z.to_nat i = Some (Some a)
                  /\ 0 <= ind a < max_elements h
                  /\ inds h !! Z.to_nat (ind a) = Some i)
  /\ (forall x s, inds h !! x = Some s -> s <> -1 ->
        0 <= s < max_elements h
        /\ exists a, array h !! Z.to_nat s = Some (Some a)).

(** a heap as [check_heap] wants it: one free cell at least *)
Definition heap_wf (h : heap_s W) : Prop :=
  heap_shape h /\ nb_elements h < max_elements h.

(** the entries of the live slots, from the root on *)
Definition live_entries (h : heap_s W) : list (vertex_s W) :=
  omap (fun s => s) (take (Z.to_nat (nb_elements h)) (array h)).

(** no entry of [l] has a key below the key of an earlier entry *)
Definition keys_ascending (wlt : W -> W -> bool) (l : list (vertex_s W)) : Prop :=
  forall (i j : nat) a b, (i < j)%nat -> l !! i = Some a -> l !! j = Some b ->
    wlt (weight b) (weight a) = false.

End HeapShape.

Arguments heap_shape {W} h.
Arguments heap_wf {W} h.
Arguments live_entries {W} h.
Arguments keys_ascending {W} wlt l.

(** the vertex [x] has an index in the heap: [inds[x] != -1] *)
Definition indexed {W} (h : heap_s W) (x : nat) : Prop :=
  exists s, inds h !! x = Some s /\ s <> -1.

(** ** The contents of the adjacency lists *)

(** the entry [a] is in the list of the vertex [v] *)
Definition listed {W} (adj : list (list (vertex_s W))) (v : nat) (a : vertex_s W) : Prop :=
  exists l, adj !! v = Some l /\ a ∈ l.

(** ** The run of [dijkstra] on a graph whose edges stay in the graph *)

(** the number of vertices that have an index in the heap *)
Fixpoint index_count (l : list Z) : nat :=
  match l with
  | [] => 0
  | s :: rest => ((if (s =? -1)%Z then 0 else 1) + index_count rest)%nat
  end.

(** every adjacency list exists and names vertices of the graph only *)
Definition graph_closed {W} (g : GraphList.graph_s W) : Prop :=
  length (GraphList.adj_lists g) = Z.to_nat (GraphList.nb_vertices g)
  /\ forall v a, listed (GraphList.adj_lists g) v a ->
       0 <= ind a < GraphList.nb_vertices g.

(** the heap of [dijkstra] between two operations: well-formed, of
    capacity [n], with at least [k] more indexed vertices than live
    entries *)
Definition heap_ready {W} (n : Z) (k : Z) (h : heap_s W) : Prop :=
  heap_wf h /\ max_elements h = n
  /\ nb_elements h + k <= Z.of_nat (index_count (inds h)).

(** the state of [dijkstra] at the head of its main loop *)
Definition dijkstra_ready {W} (n : Z) (st : dijkstra_state W) : Prop :=
  heap_ready n 0 (q st)
  /\ length (visited_vertices st) = Z.to_nat n
  /\ length (dist st) = Z.to_nat n.

(** ** Printing a path (main_dijkstra.c, [print_path]) *)

Section PrintPath.

Variable W : Type.

(** the loop that traces the path back from the destination; [path] is
    the local array of [nb_vertices] cells *)
Fixpoint trace_back (fuel : nat) (v : list (vertex_s W)) (path : list (option Z))
    (path_length current : Z) : result (list (option Z) * Z * Z) :=
  d ← rd v current;
  if negb (prev d =? -1) then
    match fuel with
    | O => Timeout
    | S fuel' =>
        path' ← wr path path_length (Some current);
        trace_back fuel' v path' (path_length + 1) (prev d)
    end
  else Ok (path, path_length, current).

(** the cells of [path] that the last loop prints, in its order *)
Fixpoint print_cells (path : list (option Z)) (cells : list Z) : result (list Z) :=
  match cells with
  | [] => Ok []
  | i :: rest =>
      x ← rdv path i;
      xs ← print_cells path rest;
      Ok (x :: xs)
  end.

(** [None]: "Invalid destination vertex."; [Some p]: the vertices printed,
    from left to right. A path of more than [nb_vertices] vertices runs
    over the end of [path], so that [nb_vertices + 1] rounds of the first
    loop are enough. *)
Definition print_path (g : GraphList.graph_s W) (v : list (vertex_s W)) (dst : Z)
    : result (option (list Z)) :=
  let n := GraphList.nb_vertices g in
  if (dst >=? n) || (dst <? 0) then Ok None
  else
    '(path, path_length, current) ←
      trace_back (S (Z.to_nat n)) v (replicate (Z.to_nat n) None) 0 dst;
    path ← wr path path_length (Some current);
    out ← print_cells path (reverse (seqZ 0 (path_length + 1)));
    Ok (Some out).

(** [p] lists the vertices met from a vertex without predecessor up to
    [w], each one the [prev] of the next *)
Inductive prev_chain (v : list (vertex_s W)) : Z -> list Z -> Prop :=
| chain_first w d :
    0 <= w -> v !! Z.to_nat w = Some d -> prev d = -1 -> prev_chain v w [w]
| chain_next w d p :
    0 <= w -> v !! Z.to_nat w = Some d -> prev d <> -1 ->
    prev_chain v (prev d) p -> prev_chain v w (p ++ [w]).

End PrintPath.

Arguments trace_back {W} fuel v path path_length current.
Arguments print_path {W} g v dst.
Arguments prev_chain {W} v _ _.

(** the table [t] records [w] as reached from [u] by an edge of the graph *)
Definition table_edge {W} (wadd : W -> W -> W) (g : GraphList.graph_s W)
    (t : list (vertex_s W)) (u w : Z) : Prop :=
  exists du dw c,
    t !! Z.to_nat u = Some du /\ t !! Z.to_nat w = Some dw
    /\ prev dw = u /\ has_edge g u w c /\ weight dw = wadd (weight du) c.

(** two neighbours of the list [p] are always related by [R] *)
Definition linked (R : Z -> Z -> Prop) (p : list Z) : Prop :=
  forall (i : nat) u w, p !! i = Some u -> p !! S i = Some w -> R u w.

(** every visited vertex has a chain of predecessors made of distinct
    visited vertices *)
Definition chains_ready {W} (n : Z) (st : dijkstra_state W) : Prop :=
  length (dist st) = Z.to_nat n
  /\ forall w, 0 <= w -> visited_vertices st !! Z.to_nat w = Some true ->
       exists p, prev_chain (dist st) w p /\ NoDup p
         /\ forall x, x ∈ p ->
              0 <= x /\ visited_vertices st !! Z.to_nat x = Some true.

(** ** The contents of the adjacency matrix *)

(** a square matrix of [n] rows *)
Definition square {A} (n : Z) (m : list (list A)) : Prop :=
  length m = Z.to_nat n /\ forall row, row ∈ m -> length row = Z.to_nat n.

(** the edge [e] sets the cell [(u, w)] of the matrix *)
Definition joins {W} (directed : bool) (e : edge_s W) (u w : Z) : Prop :=
  (e_src e = u /\ e_dst e = w) \/ (directed = false /\ e_src e = w /\ e_dst e = u).

(** the cell [(u, w)] of the matrix built from the cells [lo], ...,
    [hi - 1] of [edges] over the matrix [m0]: the weight of the last of
    these edges that sets it, if there is one *)
Definition cell_of (directed : bool) (edges : list (edge_s double)) (lo hi : Z)
    (m0 : list (list double)) (u w : Z) (x : double) : Prop :=
  (exists i e, lo <= i < hi /\ edges !! Z.to_nat i = Some e /\ joins directed e u w
     /\ (forall j e', i < j < hi -> edges !! Z.to_nat j = Some e' ->
           ~ joins directed e' u w)
     /\ x = e_weight e)
  \/ ((forall i e, lo <= i < hi -> edges !! Z.to_nat i = Some e ->
         ~ joins directed e u w)
      /\ x = aget2 m0 u w).

(** ** The invariant of the triple loop of [floyd_warshall] *)

Definition fw_inv (n : Z) (adj_matrix : list (list double))
    (st : list (list double) * list (list Z)) : Prop :=
  square n (fst st) /\ square n (snd st)
  /\ forall v w, 0 <= v < n -> 0 <= w < n ->
       (forall z, aget2 (fst st) v w = Num z -> walk n adj_matrix v w z)
       /\ (aget2 (snd st) v w = -1 <-> aget2 (fst st) v w = INFINITY)
       /\ (aget2 (snd st) v w <> -1 ->
             0 <= aget2 (snd st) v w < n
             /\ is_finite (aget2 adj_matrix (aget2 (snd st) v w) w) = true)
       /\ dlt (aget2 adj_matrix v w) (aget2 (fst st) v w) = false.

(** ** The state of [dijkstra_markov] at the head of its main loop *)

(** the entry pushed for the source, and the entry the table keeps for it *)
Definition markov_pushed {W} (wone : W) (src : Z) : vertex_s W :=
  mk_vertex src wone (-1).
Definition markov_source {W} (wneg wexp : W -> W) (wone : W) (src : Z) : vertex_s W :=
  mk_vertex src (wexp (wneg wone)) (-1).

Definition markov_ready {W} (wneg wexp : W -> W) (wone : W) (n src : Z)
    (st : dijkstra_state W) : Prop :=
  dijkstra_ready n st
  /\ (forall w d, dist st !! w = Some d -> ind d = Z.of_nat w)
  /\ (visited_vertices st !! Z.to_nat src = Some false ->
        nb_elements (q st) = 1
        /\ live_all (fun a => a = markov_pushed wone src) (q st))
  /\ (visited_vertices st !! Z.to_nat src = Some true ->
        dist st !! Z.to_nat src = Some (markov_source wneg wexp wone src)).

(** ** Printing a path (main_bellman_ford.c, [print_path]) *)

Module BellmanFordPrint.

(** what [print_path] prints: "Invalid vertices.", "No path to dst.", or
    the vertices of a path from left to right *)
Inductive output : Type :=
| Invalid_vertices
| No_path (dst : Z)
| Path (p : list Z).

(** the loop that traces the path back from the destination; [path] is
    the local array of [nb_vertices] cells *)
Fixpoint trace_back (fuel : nat) (parent : list Z) (path : list (option Z))
    (path_length current : Z) : result (list (option Z) * Z * Z) :=
  next ← rd parent current;
  if negb (next =? current) then
    match fuel with
    | O => Timeout
    | S fuel' =>
        path' ← wr path path_length (Some current);
        trace_back fuel' parent path' (path_length + 1) next
    end
  else Ok (path, path_length, current).

(** a path of more than [nb_vertices] vertices runs over the end of
    [path], so that [nb_vertices + 1] rounds of the first loop are
    enough *)
Definition print_path (g : BellmanFord.graph_s) (dst : Z) : result output :=
  let n := BellmanFord.nb_vertices g in
  if (dst >=? n) || (dst <? 0) then Ok Invalid_vertices
  else
    first ← rd (BellmanFord.parent g) dst;
    if first =? -1 then Ok (No_path dst)
    else
      '(path, path_length, current) ←
        trace_back (S (Z.to_nat n)) (BellmanFord.parent g)
          (replicate (Z.to_nat n) None) 0 dst;
      path ← wr path path_length (Some current);
      out ← print_cells path (reverse (seqZ 0 (path_length + 1)));
      Ok (Path out).

(** [p] lists the vertices met from a vertex that is its own parent up to
    [w], each one the parent of the next *)
Inductive parent_chain (parent : list Z) : Z -> list Z -> Prop :=
| chain_root w :
    0 <= w -> parent !! Z.to_nat w = Some w -> parent_chain parent w [w]
| chain_child w u p :
    0 <= w -> parent !! Z.to_nat w = Some u -> u <> w ->
    parent_chain parent u p -> parent_chain parent w (p ++ [w]).

End BellmanFordPrint.

(** the tables record [w] as reached from [u] by an edge of the matrix,
    with no slack *)
Definition tight_edge (adj_matrix : list (list double)) (dist : list double)
    (parent : list Z) (u w : Z) : Prop :=
  exists a zu,
    aget parent w = u /\ aget2 adj_matrix u w = Num a
    /\ aget dist u = Num zu /\ aget dist w = Num (zu + a).

(** no walk from the source leads to a closed walk of negative weight *)
Definition no_negative_cycle (n : Z) (adj_matrix : list (list double)) (src : Z) : Prop :=
  forall w c c', walk n adj_matrix src w c -> walk n adj_matrix w w c' -> 0 <= c'.

(** the parents form a tree rooted at the source: the parent of a vertex
    at a finite distance other than the source is at a finite distance,
    an edge leads from it to the vertex, and its distance and the weight
    of the edge are not above the distance of the vertex; the chain of
    parents of every vertex at a finite distance starts at the source *)
Definition bf_tree (n : Z) (adj_matrix : list (list double)) (src : Z)
    (st : list double * list Z) : Prop :=
  (forall w z, 0 <= w < n -> w <> src -> aget (fst st) w = Num z ->
     exists u a zu,
       aget (snd st) w = u /\ 0 <= u < n /\ u <> w
       /\ aget2 adj_matrix u w = Num a
       /\ aget (fst st) u = Num zu /\ zu + a <= z)
  /\ (forall w z, 0 <= w < n -> aget (fst st) w = Num z ->
        exists p, BellmanFordPrint.parent_chain (snd st) w p
          /\ head p = Some src
          /\ forall x, x ∈ p -> 0 <= x < n /\ is_finite (aget (fst st) x) = true).

(** ** Walks through the first vertices, for [floyd_warshall] *)

(** a walk of one edge at least from [v] to [w], of weight [c], whose
    inner vertices are all below [k] *)
Inductive walk_below (n : Z) (adj_matrix : list (list double)) (k v : Z)
    : Z -> Z -> Prop :=
| below_edge w a :
    0 <= v < n -> 0 <= w < n -> aget2 adj_matrix v w = Num a ->
    walk_below n adj_matrix k v w a
| below_step u w c a :
    walk_below n adj_matrix k v u c -> u < k -> 0 <= w < n ->
    aget2 adj_matrix u w = Num a ->
    walk_below n adj_matrix k v w (c + a).

(** no entry of the matrix is negative *)
Definition nonneg_matrix (n : Z) (adj_matrix : list (list double)) : Prop :=
  forall u w a, 0 <= u < n -> 0 <= w < n -> aget2 adj_matrix u w = Num a -> 0 <= a.

(** [dist[v][w]] is not above [c] *)
Definition at_most (dist : list (list double)) (v w c : Z) : Prop :=
  exists z, aget2 dist v w = Num z /\ z <= c.

(** the distances are not above the weight of the walks whose inner
    vertices are below [k] *)
Definition fw_below (n : Z) (adj_matrix : list (list double)) (k : Z)
    (dist : list (list double)) : Prop :=
  forall v w c, walk_below n adj_matrix k v w c -> at_most dist v w c.

(** the state of the triple loop of [floyd_warshall] before the round
    [(k, v, w)]: the pairs before [(v, w)] account for the walks through
    [k] too *)
Definition fw_round (n : Z) (adj_matrix : list (list double)) (k v w : Z)
    (st : list (list double) * list (list Z)) : Prop :=
  fw_inv n adj_matrix st
  /\ fw_below n adj_matrix k (fst st)
  /\ forall v' w' c1 c2,
       v' < v \/ (v' = v /\ w' < w) ->
       walk_below n adj_matrix k v' k c1 -> walk_below n adj_matrix k k w' c2 ->
       at_most (fst st) v' w' (c1 + c2).

(** ** The scores of [dijkstra_markov], with real numbers for the weights *)

(** [x] is the score of the visited vertex [p] times the probability of
    an edge from [p] to [w], and is positive *)
Definition markov_scored (g : GraphList.graph_s R) (visited : list bool)
    (dist : list (vertex_s R)) (p w : Z) (x : R) : Prop :=
  exists dp c,
    0 <= p /\ dist !! Z.to_nat p = Some dp
    /\ visited !! Z.to_nat p = Some true
    /\ has_edge g p w c /\ x = (weight dp * c)%R /\ (0 < x)%R.

(** an entry of the heap: the one pushed for the source, or the negated
    logarithm of such a score *)
Definition markov_keyed (g : GraphList.graph_s R) (src : Z) (visited : list bool)
    (dist : list (vertex_s R)) (a : vertex_s R) : Prop :=
  a = markov_pushed 1%R src
  \/ exists x, markov_scored g visited dist (prev a) (ind a) x
               /\ weight a = (- ln x)%R.

(** an entry of the table of a visited vertex *)
Definition markov_entry (g : GraphList.graph_s R) (src : Z) (visited : list bool)
    (dist : list (vertex_s R)) (d : vertex_s R) : Prop :=
  d = markov_source Ropp exp 1%R src
  \/ markov_scored g visited dist (prev d) (ind d) (weight d).

Definition markov_inv (g : GraphList.graph_s R) (src : Z)
    (st : dijkstra_state R) : Prop :=
  (forall w d, dist st !! w = Some d -> ind d = Z.of_nat w /\ (0 <= weight d)%R)
  /\ (forall w d, visited_vertices st !! w = Some false -> dist st !! w = Some d ->
        prev d = -1 /\ (weight d = 0%R \/ Z.of_nat w = src))
  /\ (forall w d, visited_vertices st !! w = Some true -> dist st !! w = Some d ->
        markov_entry g src (visited_vertices st) (dist st) d)
  /\ live_all (markov_keyed g src (visited_vertices st) (dist st)) (q st)
  /\ (visited_vertices st !! Z.to_nat src = Some false ->
        live_all (fun a => a = markov_pushed 1%R src) (q st))
  /\ 0 <= src
  /\ length (visited_vertices st) = length (dist st).

(** * Properties *)

(** ** Evaluation of the three programs on the graphs of the specification *)

Lemma foldl_const_iter {St B} (f : St -> St) (l : list B) (s : St) :
  foldl (fun s _ => f s) s l = Nat.iter (length l) f s.
Proof.
  revert s. induction l as [|b l IH]; intros s; [reflexivity|].
  cbn [foldl length]. rewrite IH. apply Nat.iter_swap.
Qed.

Lemma for_loop_iter {St} (lo hi : Z) (f : St -> St) (s : St) :
  for_loop lo hi (fun _ => f) s = Nat.iter (Z.to_nat (hi - lo)) f s.
Proof.
  unfold for_loop. rewrite foldl_const_iter. by rewrite length_seqZ.
Qed.

Lemma detect_true (n : Z) (adj : list (list double)) (dist : list double) :
  BellmanFord.detect n adj dist = true <->
  exists w u, 0 <= w < n /\ 0 <= u < n /\ BellmanFord.improves adj dist w u = true.
Proof.
  unfold BellmanFord.detect. rewrite existsb_exists. split.
  - intros (w & Hw & Hex). apply existsb_exists in Hex as (u & Hu & Hi).
    apply list_elem_of_In, elem_of_seqZ in Hw, Hu. exists w, u.
    split; [lia|]. split; [lia | exact Hi].
  - intros (w & u & Hw & Hu & Hi). exists w.
    split; [apply list_elem_of_In, elem_of_seqZ; lia|].
    apply existsb_exists. exists u.
    split; [apply list_elem_of_In, elem_of_seqZ; lia | exact Hi].
Qed.

(** C4. Code defect: the main loop of [bellman_ford] runs for
    [k = 1 .. nb_vertices - 2], that is [nb_vertices - 2] relaxation
    rounds and not [nb_vertices - 1]. On the graph with 2 vertices and the
    single edge 0->1 of weight 1, no round is run: vertex 1 stays at
    +infinity and the detection pass raises the negative-cycle flag,
    where [n - 1] rounds give distance 1 and no flag. The rest is as
    claimed: the flag is raised by the last pass if and only if some pair
    [(u, w)] with a finite weight still improves the distance of [w]. *)
Theorem bellman_ford_runs_one_round_less :
  (forall n adj st,
     BellmanFord.main_loop n adj st
     = Nat.iter (Z.to_nat (n - 2)) (BellmanFord.relax_pass n adj) st)
  /\ (g ← BellmanFord.create_graph 2 1 true edges_one;
      Ok (bf_table (BellmanFord.bellman_ford g 0)))
     = Ok ([Num 0; INFINITY], [0; -1], true)
  /\ (g ← BellmanFord.create_graph 2 1 true edges_one;
      Ok (bf_table (BellmanFordSpec.bellman_ford_rounds g 0)))
     = Ok ([Num 0; Num 1], [0; 0], false)
  /\ (forall g src,
       BellmanFord.neg_weight_cycle (BellmanFord.bellman_ford g src) = true <->
       BellmanFord.neg_weight_cycle g = true
       \/ exists w u,
            0 <= w < BellmanFord.nb_vertices g /\ 0 <= u < BellmanFord.nb_vertices g
            /\ BellmanFord.improves (BellmanFord.adj_matrix g)
                 (BellmanFord.dist (BellmanFord.bellman_ford g src)) w u = true).
Proof.
  split; [|split; [|split]].
  - intros n adj st. unfold BellmanFord.main_loop.
    rewrite for_loop_iter. do 2 f_equal. lia.
  - vm_compute. reflexivity.
  - vm_compute. reflexivity.
  - intros g src. unfold BellmanFord.bellman_ford.
    destruct (BellmanFord.main_loop _ _ _) as [dist parent]. cbn.
    rewrite <- detect_true. destruct (BellmanFord.detect _ _ _).
    + split; [by right | done].
    + split; [by left | by intros [?|?]].
Qed.

(** C6. Code defect: [floyd_warshall] ends with [return true] right after
    the triple loop, the test of the diagonal being left undone. On the
    directed 2-cycle of weights -1 the diagonal of [dist] is negative and
    no negative cycle is reported; [bellman_ford] from source 0 raises
    its flag on the same edges. *)
Theorem floyd_warshall_reports_no_cycle :
  (forall g, FloydWarshall.has_neg_weight_cycle g = false)
  /\ (g ← FloydWarshall.create_graph 2 2 true edges_cycle2;
      Ok (FloydWarshall.dist (fst (FloydWarshall.floyd_warshall g)),
          FloydWarshall.has_neg_weight_cycle g))
     = Ok ([[Num (-2); Num (-3)]; [Num (-3); Num (-4)]], false)
  /\ (g ← BellmanFord.create_graph 2 2 true edges_cycle2;
      Ok (BellmanFord.neg_weight_cycle (BellmanFord.bellman_ford g 0)))
     = Ok true.
Proof.
  split; [|split; vm_compute; reflexivity].
  intros g. unfold FloydWarshall.has_neg_weight_cycle, FloydWarshall.floyd_warshall.
  destruct (FloydWarshall.triple_loop _ _); reflexivity.
Qed.

(** C7. Code defect (the missing round of C4): on the graph with 2
    vertices and the single edge 0->1 of weight 1, all weights being
    >= 0, [dijkstra] from 0 and row 0 of [floyd_warshall] give the
    distances [0; 1], and [bellman_ford] from 0 gives [0; +infinity]. *)
Theorem bellman_ford_disagrees :
  (g ← GraphList.create_graph 2 1 true edges_one;
   t ← dijkstra_double g 0; Ok (weights t)) = Ok [Num 0; Num 1]
  /\ (g ← FloydWarshall.create_graph 2 1 true edges_one;
      Ok (aget (FloydWarshall.dist (fst (FloydWarshall.floyd_warshall g))) 0))
     = Ok [Num 0; Num 1]
  /\ (g ← BellmanFord.create_graph 2 1 true edges_one;
      Ok (BellmanFord.dist (BellmanFord.bellman_ford g 0)))
     = Ok [Num 0; INFINITY].
Proof. repeat split; vm_compute; reflexivity. Qed.

(** C1, counterexample. On the 4-vertex graph of the specification,
    [dijkstra] from 0 does not return the predecessors [0; 0; 1; 2]. *)
Lemma dijkstra_example_predecessors_differ :
  (g ← GraphList.create_graph 4 4 false edges4;
   t ← dijkstra_double g 0; Ok (predecessors t)) <> Ok [0; 0; 1; 2].
Proof. vm_compute. discriminate. Qed.


(** ** Inversion of the outcomes *)

Lemma bind_Ok {A B} (m : result A) (f : A -> result B) (b : B) :
  m ≫= f = Ok b -> exists a, m = Ok a /\ f a = Ok b.
Proof. destruct m; cbn; intros H; try discriminate. eauto. Qed.

Lemma assert_Ok (b : bool) (u : unit) : assert b = Ok u -> b = true.
Proof. destruct b; [reflexivity | discriminate]. Qed.

Lemma rd_Ok {A} (a : list A) (i : Z) (x : A) :
  rd a i = Ok x -> 0 <= i /\ a !! Z.to_nat i = Some x.
Proof.
  unfold rd. destruct (Z.ltb_spec i 0); [discriminate|].
  destruct (a !! Z.to_nat i); [|discriminate]. intros [= ->]. auto.
Qed.

Lemma wr_Ok {A} (a : list A) (i : Z) (x : A) (a' : list A) :
  wr a i x = Ok a' ->
  0 <= i < Z.of_nat (length a) /\ a' = <[Z.to_nat i := x]> a.
Proof.
  unfold wr. destruct (Z.leb_spec 0 i), (Z.ltb_spec i (Z.of_nat (length a)));
    cbn; try discriminate.
  intros [= <-]. auto.
Qed.

Lemma rdv_Ok {A} (a : list (option A)) (i : Z) (x : A) :
  rdv a i = Ok x -> 0 <= i /\ a !! Z.to_nat i = Some (Some x).
Proof.
  unfold rdv. intros H. apply bind_Ok in H as (o & Ho & H).
  apply rd_Ok in Ho as [Hi Ho]. destruct o; [|discriminate].
  injection H as ->. auto.
Qed.

(** decomposes an hypothesis [... = Ok _] along the binds of its left side *)
Ltac inv_ok H :=
  repeat
    match type of H with
    | mbind _ _ = Ok _ =>
        let a := fresh "a" in let E := fresh "E" in
        apply bind_Ok in H as (a & E & H)
    end.

Lemma parent_bounds (i : Z) : 0 < i -> 0 <= Z.quot (i - 1) 2 < i.
Proof.
  intros Hi. rewrite Z.quot_div_nonneg by lia.
  split; [apply Z.div_pos; lia | apply Z.div_lt_upper_bound; lia].
Qed.

(** ** What the heap operations keep *)

Section HeapFacts.

Context {W : Type}.
Variable wlt : W -> W -> bool.

Lemma swap_Ok (h : heap_s W) (v w : Z) (h' : heap_s W) :
  swap h v w = Ok h' ->
  exists a_v a_w,
    0 <= v /\ 0 <= w
    /\ array h !! Z.to_nat v = Some (Some a_v)
    /\ array h !! Z.to_nat w = Some (Some a_w)
    /\ array h' = <[Z.to_nat w := Some a_v]> (<[Z.to_nat v := Some a_w]> (array h))
    /\ inds h' = <[Z.to_nat (ind a_v) := w]> (<[Z.to_nat (ind a_w) := v]> (inds h))
    /\ nb_elements h' = nb_elements h
    /\ max_elements h' = max_elements h.
Proof.
  unfold swap. intros H. inv_ok H.
  apply rdv_Ok in E as [Hv Ev]. apply rdv_Ok in E0 as [Hw Ew].
  apply wr_Ok in E1 as [_ ->]. apply wr_Ok in E2 as [_ ->].
  apply wr_Ok in E3 as [_ ->]. apply wr_Ok in E4 as [_ ->].
  injection H as <-. cbn. eauto 12.
Qed.

Lemma swap_live (P : vertex_s W -> Prop) (h : heap_s W) (v w : Z) (h' : heap_s W) :
  swap h v w = Ok h' -> v < nb_elements h -> w < nb_elements h ->
  live_all P h -> live_all P h'.
Proof.
  intros H Hv Hw HP.
  apply swap_Ok in H as (a_v & a_w & Hv0 & Hw0 & Ev & Ew & Harr & _ & Hnb & _).
  intros i a [Hi Ha]. rewrite Harr in Ha. rewrite Hnb in Hi.
  apply list_lookup_insert_Some in Ha as [(_ & [= <-] & _) | (_ & Ha)].
  { apply (HP v). split; [lia | exact Ev]. }
  apply list_lookup_insert_Some in Ha as [(_ & [= <-] & _) | (_ & Ha)].
  { apply (HP w). split; [lia | exact Ew]. }
  apply (HP i). split; [lia | exact Ha].
Qed.

Lemma sift_up_keeps (P : vertex_s W -> Prop) (n : nat) :
  forall (h : heap_s W) (i : Z) (h' : heap_s W),
    sift_up wlt n h i = Ok h' -> i < nb_elements h -> live_all P h ->
    live_all P h' /\ nb_elements h' = nb_elements h
    /\ max_elements h' = max_elements h.
Proof.
  induction n as [|n IH]; intros h i h' H Hi HP; cbn in H.
  { injection H as <-. auto. }
  destruct (Z.gtb_spec i 0) as [Hpos|_]; [|injection H as <-; auto].
  inv_ok H. destruct (wlt (weight a) (weight a0)); [|injection H as <-; auto].
  inv_ok H.
  pose proof (parent_bounds i Hpos) as Hp.
  pose proof (swap_live P _ _ _ _ E3 Hi ltac:(lia) HP) as HP'.
  apply swap_Ok in E3 as (_ & _ & _ & _ & _ & _ & _ & _ & Hnb & Hmax).
  apply IH in H as (HP'' & Hnb' & Hmax'); [|lia|exact HP'].
  split; [exact HP''|]. split; congruence.
Qed.

Lemma sift_down_keeps (P : vertex_s W -> Prop) (n : nat) :
  forall (h : heap_s W) (i : Z) (h' : heap_s W),
    sift_down wlt n h i = Ok h' -> 0 <= i -> live_all P h ->
    live_all P h' /\ nb_elements h' = nb_elements h
    /\ max_elements h' = max_elements h.
Proof.
  induction n as [|n IH]; intros h i h' H Hi HP; cbn in H.
  { injection H as <-. auto. }
  destruct (Z.ltb_spec i (nb_elements h)) as [Hlt|_]; [|injection H as <-; auto].
  inv_ok H.
  assert (Hl : (a = i \/ a = i * 2 + 1) /\ a < nb_elements h).
  { destruct (Z.ltb_spec (i * 2 + 1) (nb_elements h)).
    - inv_ok E. injection E as <-. destruct (wlt _ _); lia.
    - injection E as <-. lia. }
  assert (Hr : (a0 = a \/ a0 = i * 2 + 2) /\ a0 < nb_elements h).
  { destruct (Z.ltb_spec (i * 2 + 2) (nb_elements h)).
    - inv_ok E0. injection E0 as <-. destruct (wlt _ _); lia.
    - injection E0 as <-. lia. }
  destruct (Z.eqb_spec a0 i); [injection H as <-; auto|].
  inv_ok H.
  pose proof (swap_live P _ _ _ _ E1 Hlt ltac:(lia) HP) as HP'.
  apply swap_Ok in E1 as (_ & _ & _ & _ & _ & _ & _ & _ & Hnb & Hmax).
  apply IH in H as (HP'' & Hnb' & Hmax'); [|lia|exact HP'].
  split; [exact HP''|]. split; congruence.
Qed.

Lemma check_slots_true (h : heap_s W) (l : list Z) :
  check_slots h l = Ok true ->
  forall i, i ∈ l ->
    exists a, 0 <= i /\ array h !! Z.to_nat i = Some (Some a)
              /\ 0 <= ind a /\ inds h !! Z.to_nat (ind a) = Some i.
Proof.
  induction l as [|j l IH]; intros H i Hi; [by apply elem_of_nil in Hi|].
  cbn in H. inv_ok H.
  apply rdv_Ok in E as [Hj Ej]. apply rd_Ok in E0 as [Hs Es].
  destruct (Z.eqb_spec a0 j) as [->|]; [|discriminate].
  apply elem_of_cons in Hi as [->|Hi]; [eauto 6 | by apply IH].
Qed.

Lemma check_heap_true (h : heap_s W) :
  check_heap h = Ok true ->
  nb_elements h < max_elements h
  /\ forall i, 0 <= i < nb_elements h ->
       exists a, array h !! Z.to_nat i = Some (Some a)
                 /\ 0 <= ind a /\ inds h !! Z.to_nat (ind a) = Some i.
Proof.
  unfold check_heap. intros H.
  destruct (Z.geb_spec (nb_elements h) (max_elements h)); [discriminate|].
  split; [lia|]. intros i Hi.
  destruct (check_slots_true h _ H i) as (a & _ & Ha); [|eauto].
  apply elem_of_seqZ. lia.
Qed.

Lemma check_heap_consistent (h : heap_s W) :
  check_heap h = Ok true -> index_consistent h.
Proof.
  intros H i a [Hi Ha]. apply check_heap_true in H as [_ H].
  destruct (H i Hi) as (a' & Ha' & Hind & Hinds).
  rewrite Ha in Ha'. injection Ha' as <-. auto.
Qed.

Lemma assert_check_Ok (h : heap_s W) (b : bool) (u : unit) :
  check_heap h = Ok b -> assert b = Ok u -> check_heap h = Ok true.
Proof. intros H Hb. apply assert_Ok in Hb. by subst. Qed.

Lemma heap_add_Ok (vertex : vertex_s W) (heap h' : heap_s W) :
  heap_add wlt vertex heap = Ok h' ->
  check_heap heap = Ok true /\ check_heap h' = Ok true
  /\ max_elements h' = max_elements heap
  /\ (nb_elements h' = nb_elements heap \/ nb_elements h' = nb_elements heap + 1)
  /\ forall P, P vertex -> live_all P heap -> live_all P h'.
Proof.
  unfold heap_add. intros H. inv_ok H. injection H as ->.
  pose proof (assert_check_Ok _ _ _ E E0) as Hpre.
  pose proof (assert_check_Ok _ _ _ E3 E4) as Hpost.
  split; [exact Hpre|]. split; [exact Hpost|].
  destruct (Z.eqb_spec a1 (-1)) as [->|Hs].
  - inv_ok E2.
    apply wr_Ok in E6 as [Hnb ->]. apply wr_Ok in E7 as [_ ->].
    assert (Hlive : forall P, P vertex -> live_all P heap ->
              live_all P (mk_heap (<[Z.to_nat (nb_elements heap) := Some vertex]> (array heap))
                                  (<[Z.to_nat (ind vertex) := nb_elements heap]> (inds heap))
                                  (nb_elements heap + 1) (max_elements heap))).
    { intros P Hv HP i e [Hi Ha]. cbn in Hi, Ha.
      apply list_lookup_insert_Some in Ha as [(_ & [= <-] & _) | (Hne & Ha)]; [exact Hv|].
      apply (HP i). split; [lia | exact Ha]. }
    split; [|split].
    + by destruct (sift_up_keeps (fun _ => True) _ _ _ _ E2) as (_ & _ & ->);
        [cbn; lia | |].
    + right. by destruct (sift_up_keeps (fun _ => True) _ _ _ _ E2) as (_ & -> & _);
        [cbn; lia | |].
    + intros P Hv HP.
      by destruct (sift_up_keeps P _ _ _ _ E2) as (HP' & _); [cbn; lia | apply Hlive |].
  - inv_ok E2. destruct (wlt (weight vertex) (weight a2)).
    + apply bind_Ok in E2 as (arr & Earr & E2).
      injection E2 as <-. apply wr_Ok in Earr as [_ ->]. cbn.
      split; [reflexivity|]. split; [by left|].
      intros P Hv HP i e [Hi Ha]. cbn in Hi, Ha.
      apply list_lookup_insert_Some in Ha as [(_ & [= <-] & _) | (Hne & Ha)]; [exact Hv|].
      apply (HP i). split; [lia | exact Ha].
    + injection E2 as <-. split; [reflexivity|]. split; [by left|]. auto.
Qed.

Lemma heap_remove_Ok (heap h' : heap_s W) :
  heap_remove wlt heap = Ok h' ->
  check_heap heap = Ok true /\ check_heap h' = Ok true
  /\ max_elements h' = max_elements heap
  /\ nb_elements h' = nb_elements heap - 1 /\ 1 <= nb_elements heap
  /\ forall P, live_all P heap -> live_all P h'.
Proof.
  unfold heap_remove. intros H. inv_ok H. injection H as ->.
  pose proof (assert_check_Ok _ _ _ E E0) as Hpre.
  pose proof (assert_check_Ok _ _ _ E5 E6) as Hpost.
  apply rdv_Ok in E1 as [Hnb Elast].
  apply wr_Ok in E2 as [_ ->]. apply wr_Ok in E3 as [_ ->].
  cbn in E4.
  assert (Hlive : forall P, live_all P heap ->
            live_all P (mk_heap (<[Z.to_nat 0 := Some a1]> (array heap))
                                (<[Z.to_nat (ind a1) := 0]> (inds heap))
                                (nb_elements heap - 1) (max_elements heap))).
  { intros P HP i e [Hi Ha]. cbn in Hi, Ha.
    apply list_lookup_insert_Some in Ha as [(_ & [= <-] & _) | (Hne & Ha)].
    - apply (HP (nb_elements heap - 1)). split; [lia | exact Elast].
    - apply (HP i). split; [lia | exact Ha]. }
  split; [exact Hpre|]. split; [exact Hpost|].
  destruct (sift_down_keeps (fun _ => True) _ _ _ _ E4) as (_ & Hn & Hm);
    [lia | done |].
  split; [exact Hm|]. split; [exact Hn|]. split; [lia|].
  intros P HP.
  by destruct (sift_down_keeps P _ _ _ _ E4) as (HP' & _); [lia | apply Hlive |].
Qed.

Lemma heap_peek_Ok (heap : heap_s W) (v : vertex_s W) :
  heap_peek heap = Ok v -> 1 <= nb_elements heap -> slot heap 0 v.
Proof.
  unfold heap_peek. intros H Hnb. inv_ok H.
  apply rdv_Ok in H as [_ H]. split; [lia | exact H].
Qed.

End HeapFacts.

(** ** The main loop of [dijkstra] records real paths *)

Section DijkstraFacts.

Context {W : Type}.
Variable wlt : W -> W -> bool.
Variable wadd : W -> W -> W.
Variable winf : W.
Variable wzero : W.

Import GraphList.

Lemma live_all_impl (P Q : vertex_s W -> Prop) (h : heap_s W) :
  (forall a, P a -> Q a) -> live_all P h -> live_all Q h.
Proof. intros HPQ HP i a Hs. apply HPQ, (HP i a Hs). Qed.

Lemma relax_keeps (P : vertex_s W -> Prop) (v : vertex_s W)
    (dist : list (vertex_s W)) (adj : list (vertex_s W)) :
  forall q q',
    relax wlt wadd v dist adj q = Ok q' ->
    (forall a, a ∈ adj -> P (mk_vertex (ind a) (wadd (weight v) (weight a)) (ind v))) ->
    live_all P q ->
    live_all P q'
    /\ nb_elements q <= nb_elements q' <= nb_elements q + Z.of_nat (length adj).
Proof.
  induction adj as [|a adj IH]; intros q q' H Hadj HP; cbn in H.
  { injection H as <-. split; [exact HP | cbn; lia]. }
  inv_ok H.
  assert (Hq : live_all P a1
               /\ nb_elements q <= nb_elements a1 <= nb_elements q + 1).
  { destruct (wlt _ _).
    - apply heap_add_Ok in E0 as (_ & _ & _ & Hnb & Hlive).
      split; [|lia]. apply Hlive; [|exact HP]. apply Hadj, list_elem_of_here.
    - injection E0 as <-. split; [exact HP | lia]. }
  destruct Hq as [HP1 Hnb1].
  apply IH in H as [HP' Hnb']; [| |exact HP1].
  - split; [exact HP'|]. cbn [length]. lia.
  - intros b Hb. apply Hadj, list_elem_of_further, Hb.
Qed.

Lemma justified_mono (g : graph_s W) (src : Z) (visited : list bool)
    (dist : list (vertex_s W)) (u : nat) (b : bool) (d : vertex_s W)
    (a : vertex_s W) :
  visited !! u = Some false ->
  justified wadd wzero g src visited dist a ->
  justified wadd wzero g src (<[u := b]> visited) (<[u := d]> dist) a.
Proof.
  intros Hu [Ha | [(dp & c & Hp & Hdp & Hpath & Hedge & Hw) Hvis]]; [by left|].
  right.
  assert (Hne : u <> Z.to_nat (prev a)) by congruence.
  split.
  - exists dp, c. rewrite list_lookup_insert_ne by exact Hne. auto.
  - by rewrite list_lookup_insert_ne.
Qed.

Lemma dijkstra_step_inv (g : graph_s W) (src : Z) (st st' : dijkstra_state W) :
  dijkstra_step wlt wadd g st = Ok st' ->
  dijkstra_inv wadd winf wzero g src st ->
  dijkstra_inv wadd winf wzero g src st'.
Proof.
  unfold dijkstra_step. intros H Hinv. inv_ok H.
  apply heap_remove_Ok in E0 as (_ & _ & _ & Hnb1 & Hnb & Hlive).
  apply heap_peek_Ok in E as Hslot; [|exact Hnb].
  apply rd_Ok in E1 as [Hv Hseen].
  destruct a1; cbn in H.
  - injection H as <-. destruct Hinv. split; cbn; auto. lia.
  - inv_ok H. injection H as <-.
    apply wr_Ok in E0 as [Hlen_v ->].
    apply rd_Ok in E1 as [_ Hd].
    apply wr_Ok in E2 as [Hlen_d ->].
    destruct Hinv as [Iind Isrc Iunv Ivis Iheap Ifirst Inb]. cbn in *.
    pose proof (Iind _ _ Hd) as Hind.
    assert (Hja := Iheap 0 a Hslot).
    assert (Hnew : mk_vertex (ind a2) (weight a) (prev a) = a).
    { destruct a; cbn in *. f_equal. lia. }
    rewrite Hnew in *. clear Hnew.
    remember (Z.to_nat (ind a)) as u eqn:Hu.
    assert (Hmono : forall e,
              justified wadd wzero g src (visited_vertices st) (dist st) e ->
              justified wadd wzero g src (<[u:=true]> (visited_vertices st))
                (<[u:=a]> (dist st)) e).
    { intros e He. by apply justified_mono. }
    assert (Hpath : path_weight wadd wzero g src (ind a) (weight a)).
    { destruct Hja as [-> | [(dp & c & Hp & Hdp & Hpath & Hedge & Hw) Hvis]];
        [apply path_here|].
      rewrite Hw. eapply path_step; [exact Hpath | exact Hedge]. }
    assert (Hsrc_case : u = Z.to_nat src -> a = source_entry wzero src).
    { intros Hs. apply (Ifirst ltac:(by rewrite <- Hs) 0 a Hslot). }
    split; cbn.
    + intros w d Hw.
      apply list_lookup_insert_Some in Hw as [(<- & <- & _) | (_ & Hw)]; [lia | eauto].
    + destruct Isrc as [Hs0 Hs]. split; [exact Hs0|].
      destruct (decide (u = Z.to_nat src)) as [Heq|Hne].
      * rewrite <- Heq, list_lookup_insert_eq by lia. f_equal. by apply Hsrc_case.
      * by rewrite list_lookup_insert_ne.
    + intros w d Hw Hd' Hne.
      apply list_lookup_insert_Some in Hw as [(_ & [=] & _) | (Hne' & Hw)].
      rewrite list_lookup_insert_ne in Hd' by done. eauto.
    + intros w d Hw Hd'.
      apply list_lookup_insert_Some in Hd' as [(<- & <- & _) | (Hne' & Hd')].
      * replace (Z.of_nat u) with (ind a) by lia.
        split; [exact Hpath | apply Hmono, Hja].
      * rewrite list_lookup_insert_ne in Hw by done.
        destruct (Ivis w d Hw Hd') as [Hp Hj]. split; [exact Hp | apply Hmono, Hj].
    + eapply relax_keeps; [exact E4 | |].
      * intros e He. right. split; cbn.
        -- exists a, (weight e). cbn. rewrite <- Hu.
           split; [exact Hv|]. split; [apply list_lookup_insert_eq; lia|].
           split; [exact Hpath|]. split; [|reflexivity]. exists a4, e. auto.
        -- rewrite <- Hu. apply list_lookup_insert_eq. lia.
      * apply Hlive. eapply live_all_impl; [exact Hmono | exact Iheap].
    + intros Hf. exfalso. destruct (decide (u = Z.to_nat src)) as [Heq|Hne].
      * rewrite <- Heq, list_lookup_insert_eq in Hf by lia. discriminate.
      * rewrite list_lookup_insert_ne in Hf by done.
        pose proof (Ifirst Hf 0 a Hslot) as ->. cbn in Hu. by apply Hne.
    + destruct (relax_keeps (fun _ => True) _ _ _ _ _ E4) as [_ Hn]; [done | done | lia].
    + by rewrite !length_insert.
Qed.

Lemma dijkstra_loop_inv (g : graph_s W) (src : Z) (fuel : nat) :
  forall st st',
    dijkstra_loop wlt wadd fuel g st = Ok st' ->
    dijkstra_inv wadd winf wzero g src st ->
    dijkstra_inv wadd winf wzero g src st'.
Proof.
  induction fuel as [|fuel IH]; intros st st' H Hinv; cbn in H;
    destruct (heap_empty (q st)); try discriminate; try (by injection H as <-).
  inv_ok H. apply (IH a st'); [exact H|]. by apply (dijkstra_step_inv g src st).
Qed.

Lemma init_dist_lookup (n : Z) (w : nat) (d : vertex_s W) :
  ((fun i => mk_vertex i winf (-1)) <$> seqZ 0 n) !! w = Some d ->
  d = unreached_entry winf (Z.of_nat w).
Proof.
  intros H. apply list_lookup_fmap_Some in H as (i & -> & Hi).
  apply lookup_seqZ in Hi as [-> _]. reflexivity.
Qed.

Lemma live_all_empty (P : vertex_s W -> Prop) (h : heap_s W) :
  nb_elements h = 0 -> live_all P h.
Proof. intros Hnb i a [Hi _]. lia. Qed.

Lemma dijkstra_run_inv (g : graph_s W) (src : Z) (st : dijkstra_state W) :
  dijkstra_run wlt wadd winf wzero g src = Ok st ->
  dijkstra_inv wadd winf wzero g src st.
Proof.
  unfold dijkstra_run. intros H. inv_ok H.
  apply (dijkstra_loop_inv g src _ _ _ H). clear H.
  apply assert_Ok in E. apply Z.leb_le in E.
  unfold heap_create in E0. destruct (Z.ltb_spec (nb_vertices g) 0); [lia|].
  injection E0 as <-.
  apply rd_Ok in E1 as [Hsrc Hd]. apply init_dist_lookup in Hd as ->.
  cbn [ind prev unreached_entry] in E2. rewrite Z2Nat.id in E2 by lia.
  fold (source_entry wzero src) in E2.
  apply wr_Ok in E2 as [Hlen ->].
  apply rd_Ok in E3 as [_ Hd].
  rewrite list_lookup_insert_eq in Hd by lia. injection Hd as <-.
  apply heap_add_Ok in E4 as (_ & _ & _ & Hnb & Hlive). cbn in Hnb.
  split; cbn.
  - intros w d Hw.
    apply list_lookup_insert_Some in Hw as [(<- & <- & _) | (_ & Hw)]; [cbn; lia|].
    by apply init_dist_lookup in Hw as ->.
  - split; [exact Hsrc|]. apply list_lookup_insert_eq. lia.
  - intros w d _ Hw Hne.
    apply list_lookup_insert_Some in Hw as [(<- & _ & _) | (_ & Hw)]; [lia|].
    by apply init_dist_lookup in Hw.
  - intros w d Hw _. by apply lookup_replicate in Hw as [[=] _].
  - apply Hlive; [by left | by apply live_all_empty].
  - intros _. apply Hlive; [done | by apply live_all_empty].
  - lia.
  - by rewrite length_insert, length_replicate, length_fmap, length_seqZ.
Qed.

Lemma dijkstra_table (g : graph_s W) (src : Z) (t : list (vertex_s W)) :
  dijkstra wlt wadd winf wzero g src = Ok t ->
  0 <= src /\ t !! Z.to_nat src = Some (source_entry wzero src)
  /\ forall w d, t !! w = Some d ->
       ind d = Z.of_nat w
       /\ (d = unreached_entry winf (Z.of_nat w)
           \/ d = source_entry wzero src
           \/ (path_weight wadd wzero g src (Z.of_nat w) (weight d)
               /\ extends wadd wzero g src t d)).
Proof.
  unfold dijkstra. intros H. inv_ok H. injection H as <-.
  apply dijkstra_run_inv in E as [Iind [Hsrc Isrc] Iunv Ivis _ _ _ Ilen].
  split; [exact Hsrc|]. split; [exact Isrc|].
  intros w d Hd. split; [by apply Iind|].
  destruct (visited_vertices a !! w) as [[|]|] eqn:Hvis.
  - destruct (Ivis w d Hvis Hd) as [Hpath [-> | [Hext _]]]; auto.
  - destruct (decide (Z.of_nat w = src)) as [<-|Hne].
    + rewrite Nat2Z.id in Isrc. right; left. congruence.
    + left. by apply Iunv.
  - apply lookup_ge_None in Hvis. apply lookup_lt_Some in Hd. lia.
Qed.


End DijkstraFacts.

(** ** The loops of the model never run out of rounds *)

Lemma bind_nt {A B} (m : result A) (f : A -> result B) :
  m <> Timeout -> (forall a, m = Ok a -> f a <> Timeout) -> m ≫= f <> Timeout.
Proof. destruct m; cbn; intros Hm Hf; try done. by apply Hf. Qed.

Lemma rd_nt {A} (a : list A) (i : Z) : rd a i <> Timeout.
Proof. unfold rd. destruct (i <? 0); [done|]. by destruct (a !! Z.to_nat i). Qed.

Lemma wr_nt {A} (a : list A) (i : Z) (x : A) : wr a i x <> Timeout.
Proof. unfold wr. by destruct (_ && _). Qed.

Lemma rdv_nt {A} (a : list (option A)) (i : Z) : rdv a i <> Timeout.
Proof.
  unfold rdv. apply bind_nt; [apply rd_nt|]. intros o _. by destruct o.
Qed.

Lemma assert_nt (b : bool) : assert b <> Timeout.
Proof. by destruct b. Qed.

(** closes a goal [... <> Timeout] along the binds and the tests of its
    left side *)
Ltac no_timeout :=
  repeat
    match goal with
    | |- mbind _ _ <> Timeout => apply bind_nt; [|intros ? ?]
    | |- rd _ _ <> Timeout => apply rd_nt
    | |- wr _ _ _ <> Timeout => apply wr_nt
    | |- rdv _ _ <> Timeout => apply rdv_nt
    | |- assert _ <> Timeout => apply assert_nt
    | |- Ok _ <> Timeout => discriminate
    | |- AssertFail <> Timeout => discriminate
    | |- Undefined <> Timeout => discriminate
    | |- (if ?b then _ else _) <> Timeout => destruct b
    | H : ?P |- ?P => exact H
    end.

Section NoTimeout.

Context {W : Type}.
Variable wlt : W -> W -> bool.
Variable wadd : W -> W -> W.

Import GraphList.

Lemma swap_nt (h : heap_s W) (v w : Z) : swap h v w <> Timeout.
Proof. unfold swap. no_timeout. Qed.

Lemma check_slots_nt (h : heap_s W) (l : list Z) : check_slots h l <> Timeout.
Proof. induction l as [|i l IH]; cbn; no_timeout. Qed.

Lemma check_heap_nt (h : heap_s W) : check_heap h <> Timeout.
Proof. unfold check_heap. no_timeout. apply check_slots_nt. Qed.

Lemma sift_up_nt (n : nat) : forall (h : heap_s W) i, sift_up wlt n h i <> Timeout.
Proof.
  induction n as [|n IH]; intros h i; cbn; no_timeout; [apply swap_nt | apply IH].
Qed.

Lemma sift_down_nt (n : nat) : forall (h : heap_s W) i, sift_down wlt n h i <> Timeout.
Proof.
  induction n as [|n IH]; intros h i; cbn; no_timeout; [apply swap_nt | apply IH].
Qed.

Lemma heap_add_nt (v : vertex_s W) (h : heap_s W) : heap_add wlt v h <> Timeout.
Proof.
  unfold heap_add. no_timeout; try apply check_heap_nt. apply sift_up_nt.
Qed.

Lemma heap_remove_nt (h : heap_s W) : heap_remove wlt h <> Timeout.
Proof.
  unfold heap_remove. no_timeout; try apply check_heap_nt. apply sift_down_nt.
Qed.

Lemma heap_peek_nt (h : heap_s W) : heap_peek h <> Timeout.
Proof. unfold heap_peek. no_timeout. Qed.

Lemma relax_nt (v : vertex_s W) (dist adj : list (vertex_s W)) :
  forall q, relax wlt wadd v dist adj q <> Timeout.
Proof.
  induction adj as [|a adj IH]; intros q; cbn; no_timeout;
    [apply heap_add_nt | apply IH].
Qed.

Lemma dijkstra_step_nt (g : graph_s W) (st : dijkstra_state W) :
  dijkstra_step wlt wadd g st <> Timeout.
Proof.
  unfold dijkstra_step, get_adj_list. no_timeout;
    [apply heap_peek_nt | apply heap_remove_nt | apply relax_nt].
Qed.

Lemma pending_visit (g : graph_s W) (visited : list bool) :
  forall w u,
    visited !! u = Some false ->
    (pending g w (<[u := true]> visited) + length (adj_of g (w + Z.of_nat u))
     = pending g w visited)%nat.
Proof.
  induction visited as [|b visited IH]; intros w u H; [done|].
  destruct u as [|u]; cbn in *.
  - injection H as ->. rewrite Z.add_0_r. lia.
  - rewrite <- (IH (w + 1) u H).
    replace (w + 1 + Z.of_nat u) with (w + Z.of_nat (S u)) by lia.
    by rewrite Nat.add_assoc.
Qed.

Lemma dijkstra_step_measure (g : graph_s W) (st st' : dijkstra_state W) :
  dijkstra_step wlt wadd g st = Ok st' ->
  0 <= nb_elements (q st')
  /\ (Z.to_nat (nb_elements (q st')) + pending g 0 (visited_vertices st')
      < Z.to_nat (nb_elements (q st)) + pending g 0 (visited_vertices st))%nat.
Proof.
  unfold dijkstra_step. intros H. inv_ok H.
  apply heap_remove_Ok in E0 as (_ & _ & _ & Hnb1 & Hnb & _).
  apply rd_Ok in E1 as [Hv Hseen].
  destruct a1; cbn in H.
  - injection H as <-. cbn. lia.
  - inv_ok H. injection H as <-. cbn.
    apply wr_Ok in E0 as [_ ->].
    destruct (relax_keeps wlt wadd (fun _ => True) _ _ _ _ _ E4) as [_ Hn];
      [done | done |].
    pose proof (pending_visit g _ 0 _ Hseen) as Hp.
    rewrite Z.add_0_l, Z2Nat.id in Hp by lia.
    unfold adj_of in Hp. rewrite E3 in Hp. lia.
Qed.

Lemma dijkstra_loop_nt (g : graph_s W) (fuel : nat) :
  forall st,
    0 <= nb_elements (q st) ->
    (Z.to_nat (nb_elements (q st)) + pending g 0 (visited_vertices st) <= fuel)%nat ->
    dijkstra_loop wlt wadd fuel g st <> Timeout.
Proof.
  induction fuel as [|fuel IH]; intros st Hnb Hm; cbn;
    destruct (Z.eqb_spec (nb_elements (q st)) 0) as [He|He];
    unfold heap_empty; try (apply Z.eqb_eq in He as ->; done);
    (apply Z.eqb_neq in He as Hb; rewrite Hb); [lia|].
  apply bind_nt; [apply dijkstra_step_nt|]. intros st' Hstep.
  apply dijkstra_step_measure in Hstep as [Hnb' Hm']. apply IH; [exact Hnb' | lia].
Qed.

Lemma dijkstra_run_nt (winf wzero : W) (g : graph_s W) (src : Z) :
  dijkstra_run wlt wadd winf wzero g src <> Timeout.
Proof.
  unfold dijkstra_run.
  apply bind_nt; [apply assert_nt|]. intros _ _.
  apply bind_nt; [unfold heap_create; by destruct (_ <? _)|]. intros q0 Hq0.
  apply bind_nt; [apply rd_nt|]. intros d0 _.
  apply bind_nt; [apply wr_nt|]. intros dist1 _.
  apply bind_nt; [apply rd_nt|]. intros d1 _.
  apply bind_nt; [apply heap_add_nt|]. intros q1 Hq1.
  unfold heap_create in Hq0. destruct (_ <? _); [done|]. injection Hq0 as <-.
  apply heap_add_Ok in Hq1 as (_ & _ & _ & Hnb & _). cbn in Hnb.
  apply dijkstra_loop_nt; cbn; unfold dijkstra_fuel; lia.
Qed.

End NoTimeout.

(** ** The relaxation rounds of [bellman_ford] *)

Lemma aget_aset_eq {A} `{Inhabited A} (l : list A) (i : Z) (x : A) :
  0 <= i < Z.of_nat (length l) -> aget (aset l i x) i = x.
Proof. intros Hi. unfold aget, aset. apply list_lookup_total_insert_eq. lia. Qed.

Lemma aget_aset_ne {A} `{Inhabited A} (l : list A) (i j : Z) (x : A) :
  0 <= i -> 0 <= j -> i <> j -> aget (aset l i x) j = aget l j.
Proof. intros Hi Hj Hne. unfold aget, aset. apply list_lookup_total_insert_ne. lia. Qed.

Lemma length_aset {A} (l : list A) (i : Z) (x : A) : length (aset l i x) = length l.
Proof. apply length_insert. Qed.

Lemma foldl_invariant {A B} (P : A -> Prop) (f : A -> B -> A) (l : list B) :
  forall a, P a -> (forall a b, b ∈ l -> P a -> P (f a b)) -> P (foldl f a l).
Proof.
  induction l as [|b l IH]; intros a Ha Hf; [exact Ha|].
  cbn. apply IH.
  - apply Hf; [apply list_elem_of_here | exact Ha].
  - intros a' b' Hb'. apply Hf. by apply list_elem_of_further.
Qed.

Lemma for_loop_invariant {St} (P : St -> Prop) (lo hi : Z) (body : Z -> St -> St) (s : St) :
  P s -> (forall i s, lo <= i < hi -> P s -> P (body i s)) -> P (for_loop lo hi body s).
Proof.
  intros Hs Hbody. unfold for_loop. apply foldl_invariant; [exact Hs|].
  intros a i Hi Ha. apply Hbody; [|exact Ha]. apply elem_of_seqZ in Hi. lia.
Qed.

Section BellmanFordFacts.

Import BellmanFord.

Variable n : Z.
Variable adj : list (list double).
Variable src : Z.
Hypothesis Hsrc : 0 <= src < n.

Lemma init_inv : bf_inv n adj src (init n src).
Proof.
  unfold bf_inv, init; cbn [fst snd].
  rewrite !length_fmap, !length_seqZ.
  assert (Hget : forall (A : Type) (HA : Inhabited A) (f : Z -> A) w,
            0 <= w < n -> aget (f <$> seqZ 0 n) w = f w).
  { intros A HA f w Hw. unfold aget.
    rewrite list_lookup_total_alt, list_lookup_fmap, lookup_seqZ_lt by lia.
    cbn. f_equal. lia. }
  split; [done|]. split; [done|]. split; [|split].
  - intros w Hw Hne _. rewrite Hget by lia. by destruct (Z.eqb_spec w src).
  - left. rewrite !Hget by lia. by rewrite Z.eqb_refl.
  - intros w z Hw Hz. rewrite Hget in Hz by lia.
    destruct (Z.eqb_spec w src) as [->|]; [|discriminate].
    injection Hz as <-. apply walk_here.
Qed.

Lemma relax_edge_inv (w u : Z) (st : list double * list Z) :
  0 <= w < n -> 0 <= u < n ->
  bf_inv n adj src st -> bf_inv n adj src (relax_edge adj w u st).
Proof.
  intros Hw Hu Hinv. destruct st as [dist parent].
  destruct Hinv as (Hld & Hlp & Hinf & Hs & Hwalk). cbn [fst snd] in *.
  unfold relax_edge.
  destruct (aget2 adj u w) as [a|] eqn:Ha; cbn [is_finite]; [|by repeat split].
  destruct (aget dist u) as [du|] eqn:Hdu; cbn [dadd];
    [|cbn; by repeat split].
  destruct (dlt (Num (du + a)) (aget dist w)) eqn:Hlt; [|by repeat split].
  unfold bf_inv; cbn [fst snd]. rewrite !length_aset.
  split; [done|]. split; [done|]. split; [|split].
  - intros w' Hw' Hne' Hinf'. destruct (decide (w = w')) as [<-|Hne].
    + rewrite aget_aset_eq in Hinf' by lia. discriminate.
    + rewrite aget_aset_ne in Hinf' by lia. rewrite aget_aset_ne by lia.
      by apply Hinf.
  - destruct (decide (w = src)) as [->|Hne].
    + right. exists (du + a). rewrite aget_aset_eq by lia. split; [done|].
      destruct Hs as [[Hs _] | (z & Hs & Hz)]; rewrite Hs in Hlt; cbn in Hlt; lia.
    + by rewrite !aget_aset_ne by lia.
  - intros w' z Hw' Hz. destruct (decide (w = w')) as [<-|Hne].
    + rewrite aget_aset_eq in Hz by lia. injection Hz as <-.
      apply (walk_step _ _ _ u); auto.
    + rewrite aget_aset_ne in Hz by lia. by apply Hwalk.
Qed.

Lemma relax_pass_inv (st : list double * list Z) :
  bf_inv n adj src st -> bf_inv n adj src (relax_pass n adj st).
Proof.
  intros Hinv. unfold relax_pass.
  apply for_loop_invariant; [exact Hinv|]. intros w st1 Hw Hst1.
  apply for_loop_invariant; [exact Hst1|]. intros u st2 Hu Hst2.
  by apply relax_edge_inv.
Qed.

Lemma main_loop_inv : bf_inv n adj src (main_loop n adj (init n src)).
Proof.
  unfold main_loop. apply for_loop_invariant; [apply init_inv|].
  intros k st _. apply relax_pass_inv.
Qed.

(** [detect] is the search of a pair that passes the test *)
Lemma detect_false (dist : list double) :
  detect n adj dist = false ->
  forall w u, 0 <= w < n -> 0 <= u < n -> improves adj dist w u = false.
Proof.
  intros Hd w u Hw Hu. unfold detect in Hd.
  destruct (improves adj dist w u) eqn:Hi; [|reflexivity].
  assert (He : existsb (fun w => existsb (fun u => improves adj dist w u) (seqZ 0 n))
                 (seqZ 0 n) = true); [|congruence].
  apply existsb_exists. exists w. split; [apply list_elem_of_In, elem_of_seqZ; lia|].
  apply existsb_exists. exists u. split; [apply list_elem_of_In, elem_of_seqZ; lia|].
  exact Hi.
Qed.

(** when no pair passes the test, the distances are below the weight of
    every walk *)
Lemma walk_bound (dist : list double) (zs : Z) :
  (forall w u, 0 <= w < n -> 0 <= u < n -> improves adj dist w u = false) ->
  aget dist src = Num zs ->
  forall w c, walk n adj src w c -> exists zw, aget dist w = Num zw /\ zw <= zs + c.
Proof.
  intros Hfix Hs w c Hwalk.
  induction Hwalk as [|u w c a _ (zu & Hzu & Hle) Hu Hw Ha].
  { exists zs. split; [exact Hs | lia]. }
  specialize (Hfix w u Hw Hu). unfold improves in Hfix.
  rewrite Ha, Hzu in Hfix. cbn in Hfix.
  destruct (aget dist w) as [zw|]; [|discriminate]. exists zw. split; [done|]. lia.
Qed.

Lemma bellman_ford_source_kept (dist : list double) (parent : list Z) :
  bf_inv n adj src (dist, parent) -> detect n adj dist = false ->
  aget dist src = Num 0 /\ aget parent src = src.
Proof.
  intros (_ & _ & _ & Hs & Hwalk) Hd. cbn [fst snd] in *.
  destruct Hs as [Hs | (z & Hs & Hz)]; [exact Hs|]. exfalso.
  pose proof (Hwalk src z Hsrc Hs) as Hw.
  destruct (walk_bound dist z (detect_false dist Hd) Hs src z Hw) as (zw & Hzw & Hle).
  rewrite Hs in Hzw. injection Hzw as <-. lia.
Qed.

End BellmanFordFacts.

(** ** The result tables *)

Lemma create_graph4 : GraphList.create_graph 4 4 false edges4 = Ok graph4.
Proof. reflexivity. Qed.

Lemma create_matrix_graph4 : BellmanFord.create_graph 4 4 false edges4 = Ok matrix_graph4.
Proof. reflexivity. Qed.

Lemma dijkstra_graph4 : dijkstra_double graph4 0 = Ok table4.
Proof. vm_compute. reflexivity. Qed.

(** The heap defect of C2 and C3 reaches [dijkstra]: on 4 vertices with
    the directed edges 0->2/5, 0->3/9, 0->1/1, 1->3/1, 3->2/1, all >= 0,
    vertex 2 gets the distance 5 through the edge 0->2, while the path
    0->1->3->2 has weight 3. *)
Lemma dijkstra_late_decrease_not_shortest :
  (g ← GraphList.create_graph 4 5 true edges_late;
   t ← dijkstra_double g 0; Ok (weights t, predecessors t))
  = Ok ([Num 0; Num 1; Num 5; Num 2], [-1; 0; 0; 1]).
Proof. vm_compute. reflexivity. Qed.

(** C1, amended. On the 4-vertex graph of the specification and source 0,
    [dijkstra] returns the distances [0; 1; 3; 4] with the predecessors
    [-1; 0; 1; 2]. The run of [dijkstra] never goes on forever, and in
    every table [t] it returns for a graph [g] and a source [src]: the
    source has distance 0 and predecessor -1 ("none"); the entry of a
    vertex [w] is either untouched (+infinity, -1), or the weight of a
    path of [g] from [src] to [w], namely the path to its predecessor, as
    recorded in [t], followed by one edge. That this path is a shortest
    one is not part of the statement. *)
Theorem dijkstra_records_paths
    (g : GraphList.graph_s double) (src : Z) (t : list (vertex_s double))
    (Hrun : dijkstra_double g src = Ok t) :
  (g4 ← GraphList.create_graph 4 4 false edges4;
   t4 ← dijkstra_double g4 0; Ok (weights t4, predecessors t4))
  = Ok ([Num 0; Num 1; Num 3; Num 4], [-1; 0; 1; 2])
  /\ (forall g' src', dijkstra_double g' src' <> Timeout)
  /\ t !! Z.to_nat src = Some (source_entry (Num 0) src)
  /\ forall w d, t !! w = Some d ->
       ind d = Z.of_nat w
       /\ (d = unreached_entry INFINITY (Z.of_nat w)
           \/ d = source_entry (Num 0) src
           \/ (path_weight dadd (Num 0) g src (Z.of_nat w) (weight d)
               /\ extends dadd (Num 0) g src t d)).
Proof.
  split; [vm_compute; reflexivity|]. split.
  - intros g' src'. unfold dijkstra_double, dijkstra.
    apply bind_nt; [apply dijkstra_run_nt | done].
  - apply dijkstra_table in Hrun as (_ & Hs & Ht). auto.
Qed.

Lemma dijkstra_records_paths_witness :
  dijkstra_double graph4 0 = Ok table4
  /\ table4 !! Z.to_nat 0 = Some (source_entry (Num 0) 0).
Proof.
  assert (H : dijkstra_double graph4 0 = Ok table4) by (vm_compute; reflexivity).
  split; [exact H|].
  exact (proj1 (proj2 (proj2 (dijkstra_records_paths graph4 0 table4 H)))).
Defined.

(** With a negative cycle through the source, [bellman_ford] gives the
    source another predecessor: 3 vertices, edges 1->0 and 0->1 of weight
    -1, source 1. The flag is then set. *)
Lemma bellman_ford_source_on_negative_cycle :
  (g ← BellmanFord.create_graph 3 2 true [edge 1 0 (-1); edge 0 1 (-1)];
   Ok (bf_table (BellmanFord.bellman_ford g 1)))
  = Ok ([Num (-1); Num (-2); INFINITY], [1; 0; -1], true).
Proof. vm_compute. reflexivity. Qed.



(** ** The rounds given to the loops of the heap are enough *)

Section SiftFuel.

Context {W : Type}.
Variable wlt : W -> W -> bool.

(** [sift_up] stops by itself within [i] rounds: more rounds change nothing *)
Lemma sift_up_fuel (n : nat) :
  forall (m : nat) (h : heap_s W) (i : Z),
    i <= Z.of_nat n -> i <= Z.of_nat m -> sift_up wlt n h i = sift_up wlt m h i.
Proof.
  induction n as [|n IH]; intros m h i Hn Hm.
  - destruct m as [|m]; [reflexivity|]. cbn.
    by destruct (Z.gtb_spec i 0); [lia|].
  - destruct m as [|m]; cbn.
    { by destruct (Z.gtb_spec i 0); [lia|]. }
    destruct (Z.gtb_spec i 0) as [Hpos|]; [|reflexivity].
    pose proof (parent_bounds i Hpos) as Hp.
    destruct (rdv (array h) i) as [a_i| | |]; cbn; try reflexivity.
    destruct (rdv (array h) (Z.quot (i - 1) 2)) as [a_p| | |]; cbn; try reflexivity.
    destruct (wlt (weight a_i) (weight a_p)); [|reflexivity].
    destruct (rd (inds h) (ind a_i)) as [s| | |]; cbn; try reflexivity.
    destruct (assert (s =? i)) as [u| | |]; cbn; try reflexivity.
    destruct (swap h i (Z.quot (i - 1) 2)) as [h1| | |]; cbn; try reflexivity.
    apply IH; lia.
Qed.

(** [sift_down] stops by itself within [nb_elements - i] rounds *)
Lemma sift_down_fuel (n : nat) :
  forall (m : nat) (h : heap_s W) (i : Z),
    0 <= i -> nb_elements h - i <= Z.of_nat n -> nb_elements h - i <= Z.of_nat m ->
    sift_down wlt n h i = sift_down wlt m h i.
Proof.
  induction n as [|n IH]; intros m h i Hi Hn Hm.
  - destruct m as [|m]; [reflexivity|]. cbn.
    by destruct (Z.ltb_spec i (nb_elements h)); [lia|].
  - destruct m as [|m]; cbn.
    { by destruct (Z.ltb_spec i (nb_elements h)); [lia|]. }
    destruct (Z.ltb_spec i (nb_elements h)) as [Hlt|]; [|reflexivity].
    match goal with
    | |- mbind ?k ?sel = mbind ?k' ?sel =>
        destruct sel as [l| | |] eqn:Hsel; cbn; try reflexivity
    end.
    assert (Hl : l = i \/ l = i * 2 + 1).
    { destruct (i * 2 + 1 <? nb_elements h).
      - inv_ok Hsel. injection Hsel as <-. destruct (wlt _ _); auto.
      - injection Hsel as <-. auto. }
    match goal with
    | |- mbind ?k ?sel = mbind ?k' ?sel =>
        destruct sel as [r| | |] eqn:Hsel'; cbn; try reflexivity
    end.
    assert (Hr : r = l \/ r = i * 2 + 2).
    { destruct (i * 2 + 2 <? nb_elements h).
      - inv_ok Hsel'. injection Hsel' as <-. destruct (wlt _ _); auto.
      - injection Hsel' as <-. auto. }
    destruct (Z.eqb_spec r i) as [|Hne]; [reflexivity|].
    destruct (swap h i r) as [h1| | |] eqn:Hswap; cbn; try reflexivity.
    apply swap_Ok in Hswap as (_ & _ & _ & _ & _ & _ & _ & _ & Hnb & _).
    apply IH; lia.
Qed.

End SiftFuel.

(** ** What [heap_add] does to a vertex that has an index *)

Section HeapPresent.

Context {W : Type}.
Variable wlt : W -> W -> bool.

(** a key that is not smaller leaves the heap as it is *)
Lemma heap_add_larger_key_noop (v a : vertex_s W) (h h' : heap_s W) (s : Z) :
  rd (inds h) (ind v) = Ok s -> s <> -1 -> rdv (array h) s = Ok a ->
  wlt (weight v) (weight a) = false ->
  heap_add wlt v h = Ok h' -> h' = h.
Proof.
  intros Hs Hne Ha Hlt H. unfold heap_add in H. inv_ok H. injection H as ->.
  rewrite Hs in E1. injection E1 as <-.
  destruct (Z.eqb_spec s (-1)); [done|]. cbn in E2.
  rewrite Ha in E2. cbn in E2. rewrite Hlt in E2. by injection E2.
Qed.

(** a smaller key replaces the entry where the index points, and nothing
    else moves *)
Lemma heap_add_smaller_key_overwrites (v a : vertex_s W) (h h' : heap_s W) (s : Z) :
  rd (inds h) (ind v) = Ok s -> s <> -1 -> rdv (array h) s = Ok a ->
  wlt (weight v) (weight a) = true ->
  heap_add wlt v h = Ok h' ->
  h' = mk_heap (<[Z.to_nat s := Some v]> (array h)) (inds h)
               (nb_elements h) (max_elements h).
Proof.
  intros Hs Hne Ha Hlt H. unfold heap_add in H. inv_ok H. injection H as ->.
  rewrite Hs in E1. injection E1 as <-.
  destruct (Z.eqb_spec s (-1)); [done|]. cbn in E2.
  rewrite Ha in E2. cbn in E2. rewrite Hlt in E2.
  apply bind_Ok in E2 as (arr & Earr & E2). apply wr_Ok in Earr as [_ ->].
  by injection E2.
Qed.

(** the index is consistent after every operation that succeeds *)
Lemma run_ops_index_consistent (ops : list (heap_op W)) :
  forall (h h' : heap_s W),
    index_consistent h -> run_ops wlt ops h = Ok h' -> index_consistent h'.
Proof.
  induction ops as [|op ops IH]; intros h h' Hh H; cbn in H.
  { by injection H as <-. }
  inv_ok H. apply (IH a h'); [|exact H].
  apply check_heap_consistent. destruct op; cbn in E.
  - by apply heap_add_Ok in E as (_ & Hpost & _).
  - by apply heap_remove_Ok in E as (_ & Hpost & _).
Qed.

End HeapPresent.

(** ** The heap order through the two sifting loops *)

Lemma parent_child (j i : Z) :
  0 < j -> (Z.quot (j - 1) 2 = i <-> j = 2 * i + 1 \/ j = 2 * i + 2).
Proof.
  intros Hj. rewrite Z.quot_div_nonneg by lia.
  pose proof (Z.div_mod (j - 1) 2 ltac:(lia)) as Hdm.
  pose proof (Z.mod_pos_bound (j - 1) 2 ltac:(lia)) as Hm. lia.
Qed.

Section HeapOrder.

Context {W : Type}.
Variable wlt : W -> W -> bool.
(** [<] is the strict part of a total preorder *)
Hypothesis wlt_asym : forall a b, wlt a b = true -> wlt b a = false.
Hypothesis wle_trans : forall a b c,
  wlt b a = false -> wlt c b = false -> wlt c a = false.

Lemma wlt_irrefl (a : W) : wlt a a = false.
Proof. destruct (wlt a a) eqn:H; [by apply wlt_asym in H as H'; congruence | done]. Qed.

Lemma slot_inj (h : heap_s W) (i : Z) (a b : vertex_s W) :
  slot h i a -> slot h i b -> a = b.
Proof. intros [_ Ha] [_ Hb]. congruence. Qed.

Lemma swap_slot (h : heap_s W) (i m : Z) (h' : heap_s W) :
  swap h i m = Ok h' -> i < nb_elements h -> m < nb_elements h -> i <> m ->
  exists a_i a_m,
    slot h i a_i /\ slot h m a_m /\ nb_elements h' = nb_elements h
    /\ forall j a, slot h' j a <->
         (j = i /\ a = a_m) \/ (j = m /\ a = a_i)
         \/ (j <> i /\ j <> m /\ slot h j a).
Proof.
  intros H Hi Hm Hne.
  apply swap_Ok in H as (a_i & a_m & Hi0 & Hm0 & Ei & Em & Harr & _ & Hnb & _).
  exists a_i, a_m. split; [by split; [lia|]|]. split; [by split; [lia|]|].
  split; [exact Hnb|]. intros j a. unfold slot. rewrite Harr, Hnb.
  pose proof (lookup_lt_Some _ _ _ Ei) as Hli.
  pose proof (lookup_lt_Some _ _ _ Em) as Hlm.
  split.
  - intros [Hj Ha].
    apply list_lookup_insert_Some in Ha as [(Hjm & [= <-] & _) | (Hjm & Ha)].
    { right; left. split; [lia | done]. }
    apply list_lookup_insert_Some in Ha as [(Hji & [= <-] & _) | (Hji & Ha)].
    { left. split; [lia | done]. }
    right; right. repeat split; try lia. exact Ha.
  - intros [[-> ->] | [[-> ->] | (Hji & Hjm & Hj & Ha)]].
    + split; [lia|]. rewrite list_lookup_insert_ne by lia.
      by rewrite list_lookup_insert_eq.
    + split; [lia|]. by rewrite list_lookup_insert_eq by (rewrite length_insert; lia).
    + split; [lia|]. by rewrite !list_lookup_insert_ne by lia.
Qed.

(** the choice that [sift_down] makes among the slot [i] and its two
    children *)
Lemma sift_down_choice (h : heap_s W) (i l1 l2 : Z) :
  0 <= i < nb_elements h ->
  (if i * 2 + 1 <? nb_elements h then
     a_l ← rdv (array h) (i * 2 + 1);
     a_g ← rdv (array h) i;
     Ok (if wlt (weight a_l) (weight a_g) then i * 2 + 1 else i)
   else Ok i) = Ok l1 ->
  (if i * 2 + 2 <? nb_elements h then
     a_r ← rdv (array h) (i * 2 + 2);
     a_g ← rdv (array h) l1;
     Ok (if wlt (weight a_r) (weight a_g) then i * 2 + 2 else l1)
   else Ok l1) = Ok l2 ->
  (l2 = i
   /\ forall c a a_i, c = 2 * i + 1 \/ c = 2 * i + 2 ->
        slot h c a -> slot h i a_i -> wlt (weight a) (weight a_i) = false)
  \/ (l2 <> i /\ (l2 = 2 * i + 1 \/ l2 = 2 * i + 2) /\ l2 < nb_elements h
      /\ exists a_m a_i,
           slot h l2 a_m /\ slot h i a_i
           /\ wlt (weight a_i) (weight a_m) = false
           /\ forall c a, c = 2 * i + 1 \/ c = 2 * i + 2 ->
                slot h c a -> wlt (weight a) (weight a_m) = false).
Proof.
  intros Hi E1 E2.
  destruct (Z.ltb_spec (i * 2 + 1) (nb_elements h)) as [Hl|Hl].
  - inv_ok E1. apply rdv_Ok in E as [_ El]. apply rdv_Ok in E0 as [_ Ei].
    assert (Sl : slot h (i * 2 + 1) a) by (split; [lia | exact El]).
    assert (Si : slot h i a0) by (split; [lia | exact Ei]).
    destruct (wlt (weight a) (weight a0)) eqn:Hli; injection E1 as <-.
    + destruct (Z.ltb_spec (i * 2 + 2) (nb_elements h)) as [Hr|Hr].
      * inv_ok E2. apply rdv_Ok in E as [_ Er]. apply rdv_Ok in E0 as [_ El'].
        rewrite El in El'. injection El' as <-.
        assert (Sr : slot h (i * 2 + 2) a1) by (split; [lia | exact Er]).
        destruct (wlt (weight a1) (weight a)) eqn:Hrl; injection E2 as <-.
        -- right. split; [lia|]. split; [lia|]. split; [lia|].
           exists a1, a0. split; [exact Sr|]. split; [exact Si|]. split.
           ++ apply (wle_trans _ (weight a)); by apply wlt_asym.
           ++ intros c e [-> | ->] Se.
              ** replace (2 * i + 1) with (i * 2 + 1) in Se by lia.
                 rewrite (slot_inj _ _ _ _ Se Sl). by apply wlt_asym.
              ** replace (2 * i + 2) with (i * 2 + 2) in Se by lia.
                 rewrite (slot_inj _ _ _ _ Se Sr). apply wlt_irrefl.
        -- right. split; [lia|]. split; [lia|]. split; [lia|].
           exists a, a0. split; [exact Sl|]. split; [exact Si|]. split.
           ++ by apply wlt_asym.
           ++ intros c e [-> | ->] Se.
              ** replace (2 * i + 1) with (i * 2 + 1) in Se by lia.
                 rewrite (slot_inj _ _ _ _ Se Sl). apply wlt_irrefl.
              ** replace (2 * i + 2) with (i * 2 + 2) in Se by lia.
                 by rewrite (slot_inj _ _ _ _ Se Sr).
      * injection E2 as <-.
        right. split; [lia|]. split; [lia|]. split; [lia|].
        exists a, a0. split; [exact Sl|]. split; [exact Si|]. split.
        -- by apply wlt_asym.
        -- intros c e [-> | ->] Se.
           ++ replace (2 * i + 1) with (i * 2 + 1) in Se by lia.
              rewrite (slot_inj _ _ _ _ Se Sl). apply wlt_irrefl.
           ++ destruct Se as [Hc _]. lia.
    + destruct (Z.ltb_spec (i * 2 + 2) (nb_elements h)) as [Hr|Hr].
      * inv_ok E2. apply rdv_Ok in E as [_ Er]. apply rdv_Ok in E0 as [_ Ei'].
        rewrite Ei in Ei'. injection Ei' as <-.
        assert (Sr : slot h (i * 2 + 2) a1) by (split; [lia | exact Er]).
        destruct (wlt (weight a1) (weight a0)) eqn:Hri; injection E2 as <-.
        -- right. split; [lia|]. split; [lia|]. split; [lia|].
           exists a1, a0. split; [exact Sr|]. split; [exact Si|]. split.
           ++ by apply wlt_asym.
           ++ intros c e [-> | ->] Se.
              ** replace (2 * i + 1) with (i * 2 + 1) in Se by lia.
                 rewrite (slot_inj _ _ _ _ Se Sl).
                 apply (wle_trans _ (weight a0)); [by apply wlt_asym | exact Hli].
              ** replace (2 * i + 2) with (i * 2 + 2) in Se by lia.
                 rewrite (slot_inj _ _ _ _ Se Sr). apply wlt_irrefl.
        -- left. split; [reflexivity|]. intros c e a_i [-> | ->] Se Si'.
           ++ replace (2 * i + 1) with (i * 2 + 1) in Se by lia.
              by rewrite (slot_inj _ _ _ _ Se Sl), (slot_inj _ _ _ _ Si' Si).
           ++ replace (2 * i + 2) with (i * 2 + 2) in Se by lia.
              by rewrite (slot_inj _ _ _ _ Se Sr), (slot_inj _ _ _ _ Si' Si).
      * injection E2 as <-.
        left. split; [reflexivity|]. intros c e a_i [-> | ->] Se Si'.
        -- replace (2 * i + 1) with (i * 2 + 1) in Se by lia.
           by rewrite (slot_inj _ _ _ _ Se Sl), (slot_inj _ _ _ _ Si' Si).
        -- destruct Se as [Hc _]. lia.
  - injection E1 as <-.
    destruct (Z.ltb_spec (i * 2 + 2) (nb_elements h)) as [Hr|Hr]; [lia|].
    injection E2 as <-. left. split; [reflexivity|].
    intros c e a_i Hc [Hc' _] _. lia.
Qed.

Lemma sift_down_ordered (n : nat) :
  forall (h : heap_s W) (i : Z) (h' : heap_s W),
    sift_down wlt n h i = Ok h' -> 0 <= i -> nb_elements h - i <= Z.of_nat n ->
    ordered_below wlt h i -> children_above_parent wlt h i ->
    heap_ordered wlt h'.
Proof.
  induction n as [|n IH]; intros h i h' H Hi Hn Hbelow Habove.
  { cbn in H. injection H as <-. intros j a p Hj Sa Sp.
    destruct (decide (Z.quot (j - 1) 2 = i)) as [Heq|Hne]; [|by apply (Hbelow j)].
    rewrite Heq in Sp. destruct Sp as [Hp _]. lia. }
  cbn in H. destruct (Z.ltb_spec i (nb_elements h)) as [Hlt|Hge].
  2:{ injection H as <-. intros j a p Hj Sa Sp.
      destruct (decide (Z.quot (j - 1) 2 = i)) as [Heq|Hne]; [|by apply (Hbelow j)].
      rewrite Heq in Sp. destruct Sp as [Hp _]. lia. }
  apply bind_Ok in H as (l1 & E1 & H). apply bind_Ok in H as (l2 & E2 & H).
  destruct (sift_down_choice h i l1 l2 ltac:(lia) E1 E2)
    as [[-> Hch] | (Hne & Hl2 & Hl2nb & a_m & a_i & Sm & Si & Hmi & Hch)].
  - rewrite Z.eqb_refl in H. injection H as <-. intros j a p Hj Sa Sp.
    destruct (decide (Z.quot (j - 1) 2 = i)) as [Heq|Hne]; [|by apply (Hbelow j)].
    rewrite Heq in Sp. apply (Hch j a p); [by apply parent_child | exact Sa | exact Sp].
  - destruct (Z.eqb_spec l2 i) as [|_]; [done|].
    apply bind_Ok in H as (h1 & Hswap & H).
    destruct (swap_slot h i l2 h1 Hswap Hlt Hl2nb ltac:(lia))
      as (a_i' & a_m' & Si' & Sm' & Hnb & Hslot).
    rewrite <- (slot_inj _ _ _ _ Si Si') in Hslot.
    rewrite <- (slot_inj _ _ _ _ Sm Sm') in Hslot. clear a_i' a_m' Si' Sm'.
    assert (Hpm : Z.quot (l2 - 1) 2 = i) by (apply parent_child; lia).
    apply (IH h1 l2 h' H); [lia | lia | |].
    + intros j a p Hj Hpj Sa Sp.
      apply Hslot in Sa as [[-> ->] | [[-> ->] | (Hji & Hjm & Sa)]].
      * pose proof (parent_bounds i Hj) as Hg.
        apply Hslot in Sp as [[Hc _] | [[Hc _] | (_ & _ & Sp)]]; [lia | lia |].
        apply (Habove l2 a_m p); [exact Hj | lia | exact Hpm | exact Sm | exact Sp].
      * rewrite Hpm in Sp.
        apply Hslot in Sp as [[_ ->] | [[Hc _] | (Hc & _)]]; [exact Hmi | lia | done].
      * apply Hslot in Sp as [[Hq ->] | [[Hq _] | (Hqi & _ & Sp)]].
        -- apply (Hch j a); [by apply parent_child | exact Sa].
        -- done.
        -- by apply (Hbelow j a p).
    + intros c a p Hm Hc Hpc Sa Sp. rewrite Hpm in Sp.
      apply Hslot in Sp as [[_ ->] | [[Hq _] | (Hq & _)]]; [|lia|done].
      assert (Hcm : c = 2 * l2 + 1 \/ c = 2 * l2 + 2) by (by apply parent_child).
      apply Hslot in Sa as [[Hq _] | [[Hq _] | (_ & _ & Sa)]]; [lia | lia |].
      apply (Hbelow c a a_m); [lia | lia | exact Sa |].
      by rewrite Hpc.
Qed.

Lemma sift_up_ordered (n : nat) :
  forall (h : heap_s W) (i : Z) (h' : heap_s W),
    sift_up wlt n h i = Ok h' -> 0 <= i < nb_elements h -> i <= Z.of_nat n ->
    ordered_above wlt h i -> children_above_parent wlt h i ->
    heap_ordered wlt h'.
Proof.
  induction n as [|n IH]; intros h i h' H Hi Hn Habove Hchild.
  { cbn in H. injection H as <-. intros j a p Hj. apply Habove; lia. }
  cbn in H. destruct (Z.gtb_spec i 0) as [Hpos|Hz].
  2:{ injection H as <-. intros j a p Hj. apply Habove; lia. }
  apply bind_Ok in H as (a_i & Ei & H). apply bind_Ok in H as (a_p & Ep & H).
  pose proof (parent_bounds i Hpos) as Hp.
  apply rdv_Ok in Ei as [_ Ei]. apply rdv_Ok in Ep as [_ Ep].
  assert (Si : slot h i a_i) by (split; [lia | exact Ei]).
  assert (Sp : slot h (Z.quot (i - 1) 2) a_p) by (split; [lia | exact Ep]).
  destruct (wlt (weight a_i) (weight a_p)) eqn:Hip.
  2:{ injection H as <-. intros j a p Hj Sa Sq.
      destruct (decide (j = i)) as [->|Hne]; [|by apply (Habove j)].
      by rewrite (slot_inj _ _ _ _ Sa Si), (slot_inj _ _ _ _ Sq Sp). }
  apply bind_Ok in H as (s & _ & H). apply bind_Ok in H as (_ & _ & H).
  apply bind_Ok in H as (h1 & E1 & H).
  destruct (swap_slot h i (Z.quot (i - 1) 2) h1 E1 ltac:(lia) ltac:(lia) ltac:(lia))
    as (a_i' & a_p' & Si' & Sp' & Hnb & Hslot).
  rewrite <- (slot_inj _ _ _ _ Si Si') in Hslot.
  rewrite <- (slot_inj _ _ _ _ Sp Sp') in Hslot. clear a_i' a_p' Si' Sp'.
  set (p := Z.quot (i - 1) 2) in *.
  apply (IH h1 p h' H); [lia | lia | |].
  - intros j a q Hj Hjp Sa Sq.
    apply Hslot in Sa as [[-> ->] | [[-> _] | (Hji & _ & Sa)]]; [|done|].
    + fold p in Sq.
      apply Hslot in Sq as [[Hc _] | [[_ ->] | (_ & Hc & _)]]; [lia | | done].
      by apply wlt_asym.
    + apply Hslot in Sq as [[Hq ->] | [[Hq ->] | (_ & _ & Sq)]].
      * apply (Hchild j a a_p); [lia | lia | exact Hq | exact Sa | exact Sp].
      * apply (wle_trans _ (weight a_p)); [by apply wlt_asym|].
        apply (Habove j a a_p); [lia | exact Hji | exact Sa | by rewrite Hq].
      * by apply (Habove j a q).
  - intros c a g Hp0 Hc Hpc Sa Sg.
    pose proof (parent_bounds p Hp0) as Hg.
    apply Hslot in Sg as [[Hq _] | [[Hq _] | (_ & _ & Sg)]]; [lia | lia |].
    assert (Hpg : wlt (weight a_p) (weight g) = false).
    { apply (Habove p a_p g); [lia | lia | exact Sp | exact Sg]. }
    apply Hslot in Sa as [[_ ->] | [[Hq _] | (Hci & _ & Sa)]]; [exact Hpg | |].
    + subst c. lia.
    + apply (wle_trans _ (weight a_p)); [exact Hpg|].
      apply (Habove c a a_p); [lia | exact Hci | exact Sa | by rewrite Hpc].
Qed.

(** [heap_remove] keeps the heap order *)
Lemma heap_remove_ordered (h h' : heap_s W) :
  heap_ordered wlt h -> heap_remove wlt h = Ok h' -> heap_ordered wlt h'.
Proof.
  intros Hord H. unfold heap_remove in H. inv_ok H. injection H as ->.
  apply rdv_Ok in E1 as [Hnb Elast].
  apply wr_Ok in E2 as [Hlen ->]. apply wr_Ok in E3 as [_ ->].
  cbn [nb_elements] in E4.
  apply (sift_down_ordered _ _ _ _ E4); cbn [nb_elements]; [lia | lia | |].
  - intros j e p Hj Hpj [Hja Sa] [Hjp Sp]. cbn in Hja, Sa, Hjp, Sp.
    pose proof (parent_bounds j Hj) as Hb.
    rewrite list_lookup_insert_ne in Sa by lia.
    rewrite list_lookup_insert_ne in Sp by lia.
    apply (Hord j e p Hj); split; (lia || assumption).
  - intros c e p Hc. lia.
Qed.

(** [heap_add] of a vertex that has no index keeps the heap order *)
Lemma heap_add_fresh_ordered (v : vertex_s W) (h h' : heap_s W) :
  heap_ordered wlt h -> rd (inds h) (ind v) = Ok (-1) ->
  heap_add wlt v h = Ok h' -> heap_ordered wlt h'.
Proof.
  intros Hord Hs H. unfold heap_add in H. inv_ok H. injection H as ->.
  rewrite Hs in E1. injection E1 as <-. cbn in E2. inv_ok E2.
  apply wr_Ok in E5 as [Hlen ->]. apply wr_Ok in E6 as [_ ->].
  apply (sift_up_ordered _ _ _ _ E2); cbn [nb_elements]; [lia | lia | |].
  - intros j e p Hj Hne [Hja Sa] [Hjp Sp]. cbn in Hja, Sa, Hjp, Sp.
    pose proof (parent_bounds j Hj) as Hb.
    rewrite list_lookup_insert_ne in Sa by lia.
    rewrite list_lookup_insert_ne in Sp by lia.
    apply (Hord j e p Hj); split; (lia || assumption).
  - intros c e p Hi Hc Hpc [Hca _]. cbn in Hca.
    apply parent_child in Hpc; lia.
Qed.

(** in an ordered heap whose live slots are all written, no entry is
    below the root *)
Lemma root_minimal (h : heap_s W) (r : vertex_s W) :
  heap_ordered wlt h -> check_heap h = Ok true -> slot h 0 r ->
  forall j a, slot h j a -> wlt (weight a) (weight r) = false.
Proof.
  intros Hord Hchk Sr. apply check_heap_true in Hchk as [_ Hinit].
  assert (Hall : forall k j a, Z.to_nat j = k -> slot h j a ->
            wlt (weight a) (weight r) = false).
  { induction k as [k IH] using lt_wf_ind. intros j a Hk Sa.
    destruct (decide (j = 0)) as [->|Hj0].
    - rewrite (slot_inj _ _ _ _ Sa Sr). apply wlt_irrefl.
    - assert (Hj : 0 < j) by (destruct Sa; lia).
      pose proof (parent_bounds j Hj) as Hb.
      destruct (Hinit (Z.quot (j - 1) 2)) as (p & Hp & _); [destruct Sa; lia|].
      assert (Sp : slot h (Z.quot (j - 1) 2) p) by (split; [destruct Sa; lia | exact Hp]).
      apply (wle_trans _ (weight p)).
      + apply (IH (Z.to_nat (Z.quot (j - 1) 2)) ltac:(lia) _ p eq_refl Sp).
      + by apply (Hord j a p). }
  intros j a Sa. by apply (Hall (Z.to_nat j) j a).
Qed.

End HeapOrder.

Lemma dlt_asym (a b : double) : dlt a b = true -> dlt b a = false.
Proof. destruct a, b; cbn; lia || done. Qed.

Lemma dle_trans (a b c : double) :
  dlt b a = false -> dlt c b = false -> dlt c a = false.
Proof. destruct a, b, c; cbn; lia || done. Qed.

(** ** The heap order and the decrease-key branch of [heap_add] *)

(** C2. Code defect: after [heap_add] of vertex 0 with key 5, vertex 1
    with key 7 and vertex 1 again with the smaller key 1, the entries come
    out of the heap with keys 5 then 1, which is not a non-decreasing
    order: the decrease-key branch of [heap_add] overwrites the slot and
    does not sift the entry up. The rest is as claimed: for a vertex that
    has an index, a smaller key replaces its entry and a key that is not
    smaller leaves the heap as it is. *)
Theorem heap_extraction_order_broken :
  (exists out,
     (h ← heap_create 3;
      h ← heap_adds dlt [vertex 0 5 (-1); vertex 1 7 (-1); vertex 1 1 (-1)] h;
      heap_drain dlt (Z.to_nat (nb_elements h)) h) = Ok out
     /\ out = [vertex 0 5 (-1); vertex 1 1 (-1)]
     /\ keys_sorted out = false)
  /\ (forall v a h h' s,
        rd (inds h) (ind v) = Ok s -> s <> -1 -> rdv (array h) s = Ok a ->
        heap_add dlt v h = Ok h' ->
        (dlt (weight v) (weight a) = true ->
         h' = mk_heap (<[Z.to_nat s := Some v]> (array h)) (inds h)
                (nb_elements h) (max_elements h))
        /\ (dlt (weight v) (weight a) = false -> h' = h)).
Proof.
  split.
  - eexists. split; [vm_compute; reflexivity|]. split; reflexivity.
  - intros v a h h' s Hs Hne Ha Hadd. split; intros Hlt.
    + by apply (heap_add_smaller_key_overwrites dlt v a h h' s).
    + by apply (heap_add_larger_key_noop dlt v a h h' s).
Qed.

(** C3. Code defect: the same three [heap_add] calls leave a heap whose
    slot 1 holds key 1 under a root of key 5, so that
    key(parent(i)) <= key(i) fails. The rest is as claimed: the index of
    the vertices is consistent after every sequence of operations, and
    the order is kept by [heap_remove] and by [heap_add] of a vertex that
    has no index. *)
Theorem heap_order_broken_by_decrease_key :
  (exists h,
     (h ← heap_create 3;
      heap_adds dlt [vertex 0 5 (-1); vertex 1 7 (-1); vertex 1 1 (-1)] h) = Ok h
     /\ slot h 0 (vertex 0 5 (-1))
     /\ slot h 1 (vertex 1 1 (-1))
     /\ ~ heap_ordered dlt h)
  /\ (forall c ops h,
        (h0 ← heap_create c; run_ops dlt ops h0) = Ok h -> index_consistent h)
  /\ (forall v h h',
        heap_ordered dlt h -> rd (inds h) (ind v) = Ok (-1) ->
        heap_add dlt v h = Ok h' -> heap_ordered dlt h')
  /\ (forall h h',
        heap_ordered dlt h -> heap_remove dlt h = Ok h' -> heap_ordered dlt h').
Proof.
  split; [|split; [|split]].
  - eexists. split; [vm_compute; reflexivity|].
    assert (Hslots : forall (h : heap_s double) i a,
              (0 <=? i) && (i <? nb_elements h) = true ->
              array h !! Z.to_nat i = Some (Some a) -> slot h i a).
    { intros h i a Hi Ha. split; [lia | exact Ha]. }
    split; [by apply Hslots|]. split; [by apply Hslots|].
    intros Hord.
    specialize (Hord 1 (vertex 1 1 (-1)) (vertex 0 5 (-1))).
    assert (Hf : dlt (weight (vertex 1 1 (-1))) (weight (vertex 0 5 (-1))) = false).
    { apply Hord; [lia | by apply Hslots | by apply Hslots]. }
    discriminate Hf.
  - intros c ops h H. apply bind_Ok in H as (h0 & Hh0 & H).
    apply (run_ops_index_consistent dlt ops h0 h); [|exact H].
    unfold heap_create in Hh0. destruct (c <? 0); [discriminate|].
    injection Hh0 as <-. intros i a [Hi _]. cbn in Hi. lia.
  - intros v h h'. apply (heap_add_fresh_ordered dlt dlt_asym dle_trans).
  - intros h h'. apply (heap_remove_ordered dlt dlt_asym dle_trans).
Qed.

(** ** The empty heap and the full heap *)

Section HeapLimits.

Context {W : Type}.
Variable wlt : W -> W -> bool.

Lemma heap_peek_empty (h : heap_s W) :
  nb_elements h = 0 -> heap_peek h = AssertFail.
Proof. intros Hnb. unfold heap_peek, heap_empty. by rewrite Hnb. Qed.

Lemma heap_remove_empty (h : heap_s W) :
  nb_elements h = 0 -> 0 < max_elements h -> heap_remove wlt h = Undefined.
Proof.
  intros Hnb Hmax. unfold heap_remove, check_heap. rewrite Hnb.
  destruct (Z.geb_spec 0 (max_elements h)); [lia|]. reflexivity.
Qed.

Lemma heap_add_below_capacity (v : vertex_s W) (h h' : heap_s W) :
  heap_add wlt v h = Ok h' -> nb_elements h' < max_elements h'.
Proof.
  intros H. apply heap_add_Ok in H as (_ & Hpost & _).
  by apply check_heap_true in Hpost as [Hlt _].
Qed.

End HeapLimits.

(** C9. Code defect: [heap_peek] stops on its assertion when the heap is
    empty, but [heap_remove] has no such assertion, whatever its comment
    says: on an empty heap (of capacity > 0) it goes on to read
    [array[-1]], which is undefined behaviour and not a failed
    assertion. The rest is as claimed: when [heap_remove] succeeds on an
    ordered heap, the entry at the root, which it takes out, has the
    smallest key, one entry less is live, and the heap is ordered again,
    with a consistent index. *)
Theorem heap_remove_empty_unchecked
    (h : heap_s double) (Hnb : nb_elements h = 0) (Hmax : 0 < max_elements h) :
  heap_peek h = AssertFail
  /\ heap_remove dlt h = Undefined
  /\ heap_remove dlt h <> AssertFail
  /\ forall h0 h1 v,
       heap_ordered dlt h0 -> heap_peek h0 = Ok v -> heap_remove dlt h0 = Ok h1 ->
       (forall j a, slot h0 j a -> dlt (weight a) (weight v) = false)
       /\ nb_elements h1 = nb_elements h0 - 1
       /\ heap_ordered dlt h1 /\ index_consistent h1.
Proof.
  split; [by apply heap_peek_empty|].
  rewrite (heap_remove_empty dlt h Hnb Hmax). split; [done|]. split; [done|].
  intros h0 h1 v Hord Hpeek Hrem.
  pose proof (heap_remove_ordered dlt dlt_asym dle_trans _ _ Hord Hrem) as Hord1.
  apply heap_remove_Ok in Hrem as (Hpre & Hpost & _ & Hnb1 & Hnb0 & _).
  apply heap_peek_Ok in Hpeek; [|exact Hnb0].
  split; [by apply (root_minimal dlt dlt_asym dle_trans h0 v)|].
  split; [exact Hnb1|]. split; [exact Hord1 | by apply check_heap_consistent].
Qed.

Lemma heap_remove_empty_unchecked_witness :
  heap_remove dlt (mk_heap (replicate 4 None) (replicate 4 (-1)) 0 4) = Undefined.
Proof.
  exact (proj1 (proj2 (heap_remove_empty_unchecked
                         (mk_heap (replicate 4 None) (replicate 4 (-1)) 0 4)
                         eq_refl eq_refl))).
Defined.

(** ** The number of live entries after [heap_add] of distinct vertices *)

Section HeapCount.

Context {W : Type}.
Variable wlt : W -> W -> bool.

Lemma swap_inds_other (P : Z -> Prop) (h : heap_s W) (v w : Z) (h' : heap_s W) :
  swap h v w = Ok h' -> v < nb_elements h -> w < nb_elements h ->
  live_all (fun a => P (ind a)) h ->
  forall x, 0 <= x -> ~ P x -> inds h' !! Z.to_nat x = inds h !! Z.to_nat x.
Proof.
  unfold swap. intros H Hv Hw HP x Hx HPx. inv_ok H. injection H as <-. cbn.
  apply rdv_Ok in E as [Hv0 Ev]. apply rdv_Ok in E0 as [Hw0 Ew].
  apply wr_Ok in E2 as [Hi1 ->]. apply wr_Ok in E4 as [Hi2 ->].
  assert (Pv : P (ind a)) by (apply (HP v); split; [lia | exact Ev]).
  assert (Pw : P (ind a0)) by (apply (HP w); split; [lia | exact Ew]).
  rewrite !list_lookup_insert_ne; [done | |]; intros Heq;
    apply Z2Nat.inj in Heq; try lia; congruence.
Qed.

Lemma sift_up_inds_other (P : Z -> Prop) (n : nat) :
  forall (h : heap_s W) (i : Z) (h' : heap_s W),
    sift_up wlt n h i = Ok h' -> i < nb_elements h ->
    live_all (fun a => P (ind a)) h ->
    forall x, 0 <= x -> ~ P x -> inds h' !! Z.to_nat x = inds h !! Z.to_nat x.
Proof.
  induction n as [|n IH]; intros h i h' H Hi HP x Hx HPx; cbn in H.
  { by injection H as <-. }
  destruct (Z.gtb_spec i 0) as [Hpos|_]; [|by injection H as <-].
  inv_ok H. destruct (wlt (weight a) (weight a0)); [|by injection H as <-].
  inv_ok H.
  pose proof (parent_bounds i Hpos) as Hp.
  pose proof (swap_live _ _ _ _ _ E3 Hi ltac:(lia) HP) as HP'.
  pose proof (swap_inds_other P _ _ _ _ E3 Hi ltac:(lia) HP x Hx HPx) as Hsw.
  apply swap_Ok in E3 as (_ & _ & _ & _ & _ & _ & _ & _ & Hnb & _).
  rewrite <- Hsw. apply (IH _ _ _ H); [lia | exact HP' | exact Hx | exact HPx].
Qed.

Lemma heap_add_counts (v : vertex_s W) (h h' : heap_s W) (added : list Z) :
  heap_counts h added -> ind v ∉ added -> heap_add wlt v h = Ok h' ->
  heap_counts h' (ind v :: added).
Proof.
  intros (Hnb & Hlive & Hinds) Hv H.
  pose proof (heap_add_Ok wlt _ _ _ H) as (_ & _ & _ & _ & Hkeep).
  assert (Hlive' : live_all (fun a => ind a ∈ ind v :: added) h).
  { eapply live_all_impl; [|exact Hlive]. intros a Ha. by apply list_elem_of_further. }
  unfold heap_add in H. inv_ok H. injection H as ->.
  apply rd_Ok in E1 as [Hv0 Hs].
  pose proof (Hinds _ _ Hv0 Hv Hs) as ->. cbn in E2. inv_ok E2.
  apply wr_Ok in E5 as [_ ->]. apply wr_Ok in E6 as [Hlen ->].
  assert (Hlive1 : live_all (fun a => ind a ∈ ind v :: added)
            (mk_heap (<[Z.to_nat (nb_elements h) := Some v]> (array h))
                     (<[Z.to_nat (ind v) := nb_elements h]> (inds h))
                     (nb_elements h + 1) (max_elements h))).
  { intros i e [Hi He]. cbn in Hi, He.
    apply list_lookup_insert_Some in He as [(_ & [= <-] & _) | (Hne & He)];
      [apply list_elem_of_here|].
    apply (Hlive' i). split; [lia | exact He]. }
  split; [|split].
  - destruct (sift_up_keeps wlt (fun _ => True) _ _ _ _ E2) as (_ & -> & _);
      [cbn; lia | done |]. cbn [nb_elements length]. lia.
  - apply Hkeep; [apply list_elem_of_here | exact Hlive'].
  - intros x s Hx Hnotin Hsx.
    rewrite (sift_up_inds_other (fun y => y ∈ ind v :: added) _ _ _ _ E2) in Hsx;
      [|cbn; lia|exact Hlive1|exact Hx|exact Hnotin].
    cbn in Hsx. apply not_elem_of_cons in Hnotin as [Hne Hnotin].
    rewrite list_lookup_insert_ne in Hsx by lia.
    by apply (Hinds x).
Qed.

Lemma heap_adds_counts (vs : list (vertex_s W)) :
  forall (h h' : heap_s W) (added : list Z),
    heap_counts h added -> NoDup (ind <$> vs) ->
    (forall v, v ∈ vs -> ind v ∉ added) ->
    heap_adds wlt vs h = Ok h' ->
    nb_elements h' = nb_elements h + Z.of_nat (length vs)
    /\ max_elements h' = max_elements h
    /\ (vs <> [] -> nb_elements h' < max_elements h').
Proof.
  induction vs as [|v vs IH]; intros h h' added Hc Hnd Hfresh H; cbn in H.
  { injection H as <-. cbn. split; [lia|]. by split. }
  inv_ok H. rewrite fmap_cons in Hnd. apply NoDup_cons in Hnd as [Hv Hnd].
  pose proof (heap_add_counts v h a added Hc
                (Hfresh v (list_elem_of_here _ _)) E) as Hc'.
  pose proof (heap_add_below_capacity wlt _ _ _ E) as Hbelow.
  pose proof (heap_add_Ok wlt _ _ _ E) as (_ & _ & Hmax & _).
  destruct Hc as (Hnb & _), Hc' as (Hnb' & Hrest).
  apply (IH a h' (ind v :: added)) in H as (Hn & Hm & Hlt);
    [|by split|exact Hnd|].
  - cbn [length] in *. split; [lia|]. split; [congruence|]. intros _.
    destruct vs as [|v' vs']; [|apply Hlt; discriminate].
    cbn in Hn. lia.
  - intros v' Hv' Hin. apply elem_of_cons in Hin as [Heq | Hin].
    + apply Hv. rewrite <- Heq. by apply list_elem_of_fmap_2.
    + apply (Hfresh v'); [by apply list_elem_of_further | exact Hin].
Qed.

End HeapCount.

(** C10. Code defect: [check_heap] rejects a heap that holds
    [max_elements] entries ([>=] where [heap_add] itself asserts [<=]),
    so that [heap_add] never leaves [max_elements] live entries behind:
    after the [heap_add] of distinct vertices to a fresh heap of capacity
    [c], fewer than [c] entries are live, and adding [c] distinct vertices
    does not succeed. With [c = 1] the first [heap_add] stops on the
    assertion. *)
Theorem heap_capacity_off_by_one
    (c : Z) (vs : list (vertex_s double)) (h' : heap_s double)
    (Hnd : NoDup (ind <$> vs)) (Hne : vs <> [])
    (Hrun : (h ← heap_create c; heap_adds dlt vs h) = Ok h') :
  Z.of_nat (length vs) < c
  /\ nb_elements h' = Z.of_nat (length vs)
  /\ (h ← heap_create 1; heap_add dlt (vertex 0 0 (-1)) h) = AssertFail.
Proof.
  apply bind_Ok in Hrun as (h & Hh & Hrun).
  unfold heap_create in Hh. destruct (c <? 0); [discriminate|]. injection Hh as <-.
  apply (heap_adds_counts dlt vs _ _ []) in Hrun as (Hn & Hm & Hlt).
  - cbn in Hn, Hm. specialize (Hlt Hne). split; [lia|]. split; [lia | reflexivity].
  - split; [reflexivity|]. split; [by apply live_all_empty|].
    intros x s Hx _ Hs. cbn in Hs. by apply lookup_replicate in Hs as [-> _].
  - exact Hnd.
  - intros v _. apply not_elem_of_nil.
Qed.

Lemma heap_capacity_off_by_one_witness :
  Z.of_nat (length [vertex 0 5 (-1); vertex 1 7 (-1)]) < 3.
Proof.
  refine (proj1 (heap_capacity_off_by_one 3 [vertex 0 5 (-1); vertex 1 7 (-1)]
                   (mk_heap [Some (vertex 0 5 (-1)); Some (vertex 1 7 (-1)); None]
                            [0; 1; -1] 2 3) _ _ _)).
  - apply (bool_decide_unpack _). vm_compute. reflexivity.
  - discriminate.
  - vm_compute. reflexivity.
Defined.

(** ** The Markov variant on the 3-state chain *)

Section MarkovChain.

Context {W : Type}.
Variables (wlt wgt : W -> W -> bool) (wmul : W -> W -> W).
Variables (wneg wexp wlog : W -> W) (wzero wone : W).
(** the probabilities of the edges 0->1, 0->2 and 1->2 *)
Variables (p01 p02 p12 : W).

(** the scores of the three states, as the code computes them *)
Let s0 : W := wexp (wneg wone).
Let s1 : W := wexp (wneg (wneg (wlog (wmul s0 p01)))).
Let s2 : W := wexp (wneg (wneg (wlog (wmul s1 p12)))).

(** the outcomes of the five comparisons of the run *)
Hypothesis H02 : wgt (wmul s0 p02) wzero = true.
Hypothesis H01 : wgt (wmul s0 p01) wzero = true.
Hypothesis Hup : wlt (wneg (wlog (wmul s0 p01))) (wneg (wlog (wmul s0 p02))) = true.
Hypothesis H12 : wgt (wmul s1 p12) wzero = true.
Hypothesis Hdec : wlt (wneg (wlog (wmul s1 p12))) (wneg (wlog (wmul s0 p02))) = true.

Lemma markov_chain_run :
  (g ← GraphList.create_graph 3 3 true
         [mk_edge 0 1 p01; mk_edge 0 2 p02; mk_edge 1 2 p12];
   dijkstra_markov wlt wgt wmul wneg wexp wlog wzero wone g 0)
  = Ok [mk_vertex 0 s0 (-1); mk_vertex 1 s1 0; mk_vertex 2 s2 1].
Proof.
  subst s0 s1 s2. vm_compute.
  vm_compute in H02. rewrite H02. vm_compute.
  vm_compute in H01. rewrite H01. vm_compute.
  vm_compute in Hup. rewrite Hup. vm_compute.
  vm_compute in H12. rewrite H12. vm_compute.
  vm_compute in Hdec. rewrite Hdec. vm_compute. reflexivity.
Qed.

End MarkovChain.

Lemma Rltb_true (x y : R) : (x < y)%R -> Rltb x y = true.
Proof. intros H. unfold Rltb. by destruct (Rlt_dec x y). Qed.

Lemma Rgtb_true (x y : R) : (x > y)%R -> Rgtb x y = true.
Proof. intros H. unfold Rgtb. by destruct (Rgt_dec x y). Qed.

Lemma exp_opp_ln (x : R) : (0 < x)%R -> exp (- - ln x) = x.
Proof. intros Hx. rewrite Ropp_involutive. by apply exp_ln. Qed.

Lemma neg_ln_lt (x y : R) : (0 < y)%R -> (y < x)%R -> (- ln x < - ln y)%R.
Proof. intros Hy Hxy. apply Ropp_lt_contravar, ln_increasing; assumption. Qed.

Lemma exp_m1_bounds : (0 < exp (- (1)) < 1)%R.
Proof.
  split; [apply exp_pos|].
  pose proof (exp_increasing (- (1)) 0 ltac:(lra)) as H. by rewrite exp_0 in H.
Qed.

(** C5. Code defect: [dijkstra_markov] pushes the source with the key
    1.0, its probability, where the keys are minus the logarithms of the
    probabilities; the source comes out with the score exp(-1) and every
    score is scaled by it. On the 3-state chain 0->1 (0.6), 0->2 (0.4),
    1->2 (1.0) from the source 0, with real numbers for the weights, the
    predecessors are [-1; 0; 1] and the score of state 2 is
    exp(-1) * 0.6, which is not 0.6. *)
Theorem markov_scores_scaled :
  exists t,
    (g ← GraphList.create_graph 3 3 true edges_chain; dijkstra_markov_real g 0) = Ok t
    /\ predecessors t = [-1; 0; 1]
    /\ weights t = [exp (- (1)); exp (- (1)) * (6 / 10); exp (- (1)) * (6 / 10) * 1]%R
    /\ forall v, t !! 2%nat = Some v -> weight v <> (6 / 10)%R.
Proof.
  pose proof exp_m1_bounds as [He0 He1].
  assert (H1 : exp (- - ln (exp (- (1)) * (6 / 10))) = (exp (- (1)) * (6 / 10))%R).
  { apply exp_opp_ln. nra. }
  eexists. split.
  - unfold dijkstra_markov_real, edges_chain. apply markov_chain_run.
    + apply Rgtb_true. nra.
    + apply Rgtb_true. nra.
    + apply Rltb_true, neg_ln_lt; nra.
    + apply Rgtb_true. rewrite H1. nra.
    + apply Rltb_true, neg_ln_lt; rewrite ?H1; nra.
  - cbn. rewrite H1.
    assert (H2 : exp (- - ln (exp (- (1)) * (6 / 10) * 1))
                 = (exp (- (1)) * (6 / 10) * 1)%R) by (apply exp_opp_ln; nra).
    rewrite H2. split; [reflexivity|]. split; [reflexivity|].
    intros v [= <-]. cbn. nra.
Qed.

(** * Further properties of the heap *)

Section HeapSuccess.

Context {W : Type}.
Variable wlt : W -> W -> bool.

Lemma check_slots_ok (h : heap_s W) (l : list Z) :
  (forall i, i ∈ l ->
     exists a, 0 <= i /\ array h !! Z.to_nat i = Some (Some a)
               /\ 0 <= ind a /\ inds h !! Z.to_nat (ind a) = Some i) ->
  check_slots h l = Ok true.
Proof.
  induction l as [|j l IH]; intros Hl; [reflexivity|]. cbn.
  destruct (Hl j (list_elem_of_here _ _)) as (a & Hj & Ha & Hind & Hinds).
  unfold rdv, rd. destruct (Z.ltb_spec j 0); [lia|]. rewrite Ha. cbn.
  destruct (Z.ltb_spec (ind a) 0); [lia|]. rewrite Hinds. cbn.
  rewrite Z.eqb_refl. cbn. apply IH. intros i Hi. apply Hl.
  by apply list_elem_of_further.
Qed.

Lemma check_heap_wf (h : heap_s W) : heap_wf h -> check_heap h = Ok true.
Proof.
  intros [(_ & _ & Hnb & Hslots & _) Hlt]. unfold check_heap.
  destruct (Z.geb_spec (nb_elements h) (max_elements h)); [lia|].
  apply check_slots_ok. intros i Hi. apply elem_of_seqZ in Hi.
  destruct (Hslots i ltac:(lia)) as (a & Ha & Hind & Hinds).
  exists a. repeat split; try lia; assumption.
Qed.

Lemma rd_lookup {A} (a : list A) (i : Z) (x : A) :
  0 <= i -> a !! Z.to_nat i = Some x -> rd a i = Ok x.
Proof. intros Hi Hx. unfold rd. destruct (Z.ltb_spec i 0); [lia|]. by rewrite Hx. Qed.

Lemma rdv_lookup {A} (a : list (option A)) (i : Z) (x : A) :
  0 <= i -> a !! Z.to_nat i = Some (Some x) -> rdv a i = Ok x.
Proof. intros Hi Hx. unfold rdv. by rewrite (rd_lookup a i (Some x)). Qed.

Lemma wr_in_range {A} (a : list A) (i : Z) (x : A) :
  0 <= i < Z.of_nat (length a) -> wr a i x = Ok (<[Z.to_nat i := x]> a).
Proof.
  intros Hi. unfold wr.
  destruct (Z.leb_spec 0 i), (Z.ltb_spec i (Z.of_nat (length a))); (lia || done).
Qed.

Lemma insert_written (arr : list (option (vertex_s W))) (k s : nat) (b : vertex_s W) :
  (exists a, arr !! s = Some (Some a)) ->
  exists a, <[k := Some b]> arr !! s = Some (Some a).
Proof.
  intros [a Ha]. destruct (decide (k = s)) as [->|Hne].
  - exists b. apply list_lookup_insert_eq. by apply lookup_lt_Some in Ha.
  - exists a. by rewrite list_lookup_insert_ne.
Qed.

Lemma insert_head_perm {A} (l : list A) (j : nat) (x y : A) :
  l !! j = Some y -> y :: <[j := x]> l ≡ₚ x :: l.
Proof.
  revert j. induction l as [|a l IH]; intros [|j] Hj; try done; cbn in *.
  - injection Hj as ->. apply perm_swap.
  - rewrite (perm_swap (a)). rewrite (IH j Hj). apply perm_swap.
Qed.

Lemma insert_swap_perm {A} (l : list A) (i j : nat) (x y : A) :
  l !! i = Some x -> l !! j = Some y -> i <> j ->
  <[j := x]> (<[i := y]> l) ≡ₚ l.
Proof.
  revert i j. induction l as [|a l IH]; intros [|i] [|j] Hi Hj Hne;
    try done; cbn in *.
  - injection Hi as ->. by apply insert_head_perm.
  - injection Hj as ->. by apply insert_head_perm.
  - f_equiv. apply IH; [done | done | lia].
Qed.

Lemma shape_inds_distinct (h : heap_s W) (i j : Z) (a b : vertex_s W) :
  heap_shape h -> 0 <= i < nb_elements h -> 0 <= j < nb_elements h ->
  array h !! Z.to_nat i = Some (Some a) -> array h !! Z.to_nat j = Some (Some b) ->
  i <> j -> Z.to_nat (ind a) <> Z.to_nat (ind b).
Proof.
  intros (_ & _ & _ & Hslots & _) Hi Hj Ha Hb Hne Heq.
  destruct (Hslots i Hi) as (a' & Ha' & _ & Ia).
  destruct (Hslots j Hj) as (b' & Hb' & _ & Ib).
  rewrite Ha in Ha'. rewrite Hb in Hb'. injection Ha' as <-. injection Hb' as <-.
  rewrite Heq in Ia. congruence.
Qed.

Lemma swap_shape (h : heap_s W) (i p : Z) :
  heap_shape h -> 0 <= i < nb_elements h -> 0 <= p < nb_elements h -> i <> p ->
  exists h', swap h i p = Ok h' /\ heap_shape h'
    /\ nb_elements h' = nb_elements h /\ max_elements h' = max_elements h
    /\ live_entries h' ≡ₚ live_entries h.
Proof.
  intros Hsh Hi Hp Hne.
  pose proof Hsh as (Hla & Hli & Hnb & Hslots & Hinds).
  destruct (Hslots i Hi) as (a_i & Ai & Ri & Ii).
  destruct (Hslots p Hp) as (a_p & Ap & Rp & Ip).
  pose proof (shape_inds_distinct h i p a_i a_p Hsh Hi Hp Ai Ap Hne) as Hdist.
  unfold swap.
  rewrite (rdv_lookup (array h) i a_i) by (lia || done).
  rewrite (rdv_lookup (array h) p a_p) by (lia || done). cbn.
  rewrite (wr_in_range (array h) i) by lia. cbn.
  rewrite (wr_in_range (inds h) (ind a_p)) by lia. cbn.
  rewrite (wr_in_range _ p (Some a_i)) by (rewrite length_insert; lia). cbn.
  rewrite (wr_in_range _ (ind a_i) p) by (rewrite length_insert; lia). cbn.
  eexists. split; [reflexivity|]. split; [|split; [done|split; [done|]]].
  - unfold heap_shape. cbn. rewrite !length_insert.
    split; [done|]. split; [done|]. split; [done|]. split.
    + intros j Hj. destruct (decide (j = p)) as [->|Hjp].
      { exists a_i. split; [|split; [done|]].
        - apply list_lookup_insert_eq. rewrite length_insert. lia.
        - apply list_lookup_insert_eq. rewrite length_insert. lia. }
      destruct (decide (j = i)) as [->|Hji].
      { exists a_p. split; [|split; [done|]].
        - rewrite list_lookup_insert_ne by lia.
          apply list_lookup_insert_eq. lia.
        - rewrite list_lookup_insert_ne by done.
          apply list_lookup_insert_eq. lia. }
      destruct (Hslots j Hj) as (a_j & Aj & Rj & Ij).
      exists a_j. split; [|split; [done|]].
      * by rewrite !list_lookup_insert_ne by lia.
      * rewrite !list_lookup_insert_ne; [done | |].
        -- apply not_eq_sym.
           by apply (shape_inds_distinct h j p a_j a_p).
        -- apply not_eq_sym.
           by apply (shape_inds_distinct h j i a_j a_i).
    + intros x s Hx Hs.
      assert (Hold : 0 <= s < max_elements h
                     /\ exists a, array h !! Z.to_nat s = Some (Some a)).
      { apply list_lookup_insert_Some in Hx as [(_ & <- & _) | (_ & Hx)].
        { split; [lia | by exists a_p]. }
        apply list_lookup_insert_Some in Hx as [(_ & <- & _) | (_ & Hx)].
        { split; [lia | by exists a_i]. }
        by apply (Hinds x). }
      destruct Hold as [Hr Hw]. split; [done|].
      by do 2 apply insert_written.
  - unfold live_entries. cbn.
    rewrite !take_insert_lt by lia. apply omap_Permutation.
    apply insert_swap_perm.
    + rewrite lookup_take_lt by lia. exact Ai.
    + rewrite lookup_take_lt by lia. exact Ap.
    + lia.
Qed.

Lemma sift_up_ok (n : nat) :
  forall (h : heap_s W) (i : Z),
    heap_shape h -> 0 <= i < nb_elements h ->
    exists h', sift_up wlt n h i = Ok h' /\ heap_shape h'
      /\ nb_elements h' = nb_elements h /\ max_elements h' = max_elements h
      /\ live_entries h' ≡ₚ live_entries h.
Proof.
  induction n as [|n IH]; intros h i Hsh Hi; cbn.
  { by exists h. }
  destruct (Z.gtb_spec i 0) as [Hpos|_]; [|by exists h].
  pose proof (parent_bounds i Hpos) as Hpb.
  pose proof Hsh as (_ & _ & _ & Hslots & _).
  destruct (Hslots i Hi) as (a_i & Ai & Ri & Ii).
  destruct (Hslots (Z.quot (i - 1) 2) ltac:(lia)) as (a_p & Ap & Rp & Ip).
  rewrite (rdv_lookup (array h) i a_i) by (lia || done). cbn.
  rewrite (rdv_lookup (array h) _ a_p) by (lia || done). cbn.
  destruct (wlt (weight a_i) (weight a_p)); [|by exists h].
  rewrite (rd_lookup (inds h) (ind a_i) i) by (lia || done). cbn.
  rewrite Z.eqb_refl. cbn.
  destruct (swap_shape h i (Z.quot (i - 1) 2) Hsh Hi ltac:(lia) ltac:(lia))
    as (h1 & -> & Hsh1 & Hnb1 & Hmax1 & Hperm1). cbn.
  destruct (IH h1 (Z.quot (i - 1) 2) Hsh1 ltac:(lia))
    as (h' & -> & Hsh' & Hnb' & Hmax' & Hperm').
  exists h'. split; [done|]. split; [done|]. split; [lia|]. split; [lia|].
  by rewrite Hperm'.
Qed.

Lemma sift_down_ok (n : nat) :
  forall (h : heap_s W) (i : Z),
    heap_shape h -> 0 <= i ->
    exists h', sift_down wlt n h i = Ok h' /\ heap_shape h'
      /\ nb_elements h' = nb_elements h /\ max_elements h' = max_elements h
      /\ live_entries h' ≡ₚ live_entries h.
Proof.
  induction n as [|n IH]; intros h i Hsh Hi; cbn.
  { by exists h. }
  destruct (Z.ltb_spec i (nb_elements h)) as [Hlt|_]; [|by exists h].
  pose proof Hsh as (_ & _ & _ & Hslots & _).
  destruct (Hslots i ltac:(lia)) as (a_i & Ai & _).
  assert (Hl : exists l1, (l1 = i \/ l1 = i * 2 + 1) /\ 0 <= l1 < nb_elements h
             /\ (if i * 2 + 1 <? nb_elements h
                 then a_l ← rdv (array h) (i * 2 + 1);
                      a_g ← rdv (array h) i;
                      Ok (if wlt (weight a_l) (weight a_g) then i * 2 + 1 else i)
                 else Ok i) = Ok l1).
  { destruct (Z.ltb_spec (i * 2 + 1) (nb_elements h)) as [Hl|Hl].
    - destruct (Hslots (i * 2 + 1) ltac:(lia)) as (a_l & Al & _).
      rewrite (rdv_lookup (array h) (i * 2 + 1) a_l) by (lia || done). cbn.
      rewrite (rdv_lookup (array h) i a_i) by (lia || done). cbn.
      destruct (wlt (weight a_l) (weight a_i));
        eexists; (split; [|split; [|reflexivity]]); lia.
    - exists i. split; [by left|]. split; [lia | done]. }
  destruct Hl as (l1 & Hl1 & Hl1r & ->). cbn.
  destruct (Hslots l1 Hl1r) as (a_1 & A1 & _).
  assert (Hr : exists l2, (l2 = l1 \/ l2 = i * 2 + 2) /\ 0 <= l2 < nb_elements h
             /\ (if i * 2 + 2 <? nb_elements h
                 then a_r ← rdv (array h) (i * 2 + 2);
                      a_g ← rdv (array h) l1;
                      Ok (if wlt (weight a_r) (weight a_g) then i * 2 + 2 else l1)
                 else Ok l1) = Ok l2).
  { destruct (Z.ltb_spec (i * 2 + 2) (nb_elements h)) as [Hr|Hr].
    - destruct (Hslots (i * 2 + 2) ltac:(lia)) as (a_r & Ar & _).
      rewrite (rdv_lookup (array h) (i * 2 + 2) a_r) by (lia || done). cbn.
      rewrite (rdv_lookup (array h) l1 a_1) by (lia || done). cbn.
      destruct (wlt (weight a_r) (weight a_1));
        eexists; (split; [|split; [|reflexivity]]); lia.
    - exists l1. split; [by left|]. split; [lia | done]. }
  destruct Hr as (l2 & Hl2 & Hl2r & ->). cbn.
  destruct (Z.eqb_spec l2 i) as [_|Hne]; [by exists h|].
  destruct (swap_shape h i l2 Hsh ltac:(lia) Hl2r ltac:(lia))
    as (h1 & -> & Hsh1 & Hnb1 & Hmax1 & Hperm1). cbn.
  destruct (IH h1 l2 Hsh1 ltac:(lia))
    as (h' & -> & Hsh' & Hnb' & Hmax' & Hperm').
  exists h'. split; [done|]. split; [done|]. split; [lia|]. split; [lia|].
  by rewrite Hperm'.
Qed.

Lemma heap_create_wf (c : Z) :
  0 < c -> exists h : heap_s W, heap_create c = Ok h /\ heap_wf h
    /\ nb_elements h = 0 /\ max_elements h = c /\ live_entries h = []
    /\ forall x s, inds h !! x = Some s -> s = -1.
Proof.
  intros Hc. unfold heap_create. destruct (Z.ltb_spec c 0); [lia|].
  eexists. split; [reflexivity|]. cbn. split; [|split; [done|split; [done|split]]].
  - split; [|cbn; lia]. unfold heap_shape. cbn. rewrite !length_replicate.
    split; [lia|]. split; [lia|]. split; [lia|]. split; [intros i Hi; lia|].
    intros x s Hx Hs. by apply lookup_replicate in Hx as [-> _].
  - reflexivity.
  - intros x s Hx. by apply lookup_replicate in Hx as [-> _].
Qed.

Lemma heap_add_fresh_run (v : vertex_s W) (h : heap_s W) :
  heap_wf h -> 0 <= ind v < max_elements h ->
  inds h !! Z.to_nat (ind v) = Some (-1) ->
  exists h', heap_shape h'
    /\ nb_elements h' = nb_elements h + 1 /\ max_elements h' = max_elements h
    /\ live_entries h' ≡ₚ v :: live_entries h
    /\ heap_add wlt v h
       = if nb_elements h + 1 <? max_elements h then Ok h' else AssertFail.
Proof.
  intros Hwf Hv Hs. pose proof Hwf as [Hsh Hlt].
  pose proof Hsh as (Hla & Hli & Hnb & Hslots & Hinds).
  unfold heap_add. rewrite (check_heap_wf h Hwf). cbn.
  rewrite (rd_lookup (inds h) (ind v) (-1)) by (lia || done). cbn.
  destruct (Z.leb_spec (nb_elements h + 1) (max_elements h)); [|lia]. cbn.
  rewrite (wr_in_range (array h) (nb_elements h)) by lia. cbn.
  rewrite (wr_in_range (inds h) (ind v)) by lia. cbn.
  set (h1 := mk_heap _ _ _ _).
  assert (Hsh1 : heap_shape h1).
  { unfold heap_shape, h1. cbn. rewrite !length_insert.
    split; [done|]. split; [done|]. split; [lia|]. split.
    - intros j Hj. destruct (decide (j = nb_elements h)) as [->|Hjn].
      + exists v. split; [|split; [done|]].
        * apply list_lookup_insert_eq. lia.
        * apply list_lookup_insert_eq. lia.
      + destruct (Hslots j ltac:(lia)) as (a_j & Aj & Rj & Ij).
        exists a_j. split; [|split; [done|]].
        * by rewrite list_lookup_insert_ne by lia.
        * rewrite list_lookup_insert_ne; [done|].
          intros Heq. rewrite Heq in Hs. rewrite Hs in Ij. injection Ij as Ij. lia.
    - intros x s Hx Hne.
      apply list_lookup_insert_Some in Hx as [(_ & <- & _) | (_ & Hx)].
      + split; [lia|]. exists v. apply list_lookup_insert_eq. lia.
      + destruct (Hinds x s Hx Hne) as [Hr Hw]. split; [done|].
        by apply insert_written. }
  assert (Hlive1 : live_entries h1 ≡ₚ v :: live_entries h).
  { unfold live_entries, h1. cbn.
    replace (Z.to_nat (nb_elements h + 1)) with (S (Z.to_nat (nb_elements h))) by lia.
    rewrite (take_S_r _ _ (Some v)) by (apply list_lookup_insert_eq; lia).
    rewrite take_insert_ge by lia. rewrite omap_app. cbn.
    by rewrite Permutation_app_comm. }
  destruct (sift_up_ok (Z.to_nat (nb_elements h)) h1 (nb_elements h) Hsh1)
    as (h' & -> & Hsh' & Hnb' & Hmax' & Hperm'); [unfold h1; cbn; lia|]. cbn.
  unfold h1 in Hnb', Hmax'. cbn in Hnb', Hmax'.
  exists h'. split; [done|]. split; [done|]. split; [done|].
  split; [by rewrite Hperm'|].
  destruct (Z.ltb_spec (nb_elements h + 1) (max_elements h)) as [Hroom|Hfull].
  - assert (Hwf' : heap_wf h') by (split; [done | lia]).
    by rewrite (check_heap_wf h' Hwf').
  - unfold check_heap.
    by destruct (Z.geb_spec (nb_elements h') (max_elements h')); [|lia].
Qed.

Lemma heap_add_fresh_ok (v : vertex_s W) (h : heap_s W) :
  heap_wf h -> 0 <= ind v < max_elements h ->
  inds h !! Z.to_nat (ind v) = Some (-1) ->
  nb_elements h + 1 < max_elements h ->
  exists h', heap_add wlt v h = Ok h' /\ heap_wf h'
    /\ nb_elements h' = nb_elements h + 1 /\ max_elements h' = max_elements h
    /\ live_entries h' ≡ₚ v :: live_entries h.
Proof.
  intros Hwf Hv Hs Hroom.
  destruct (heap_add_fresh_run v h Hwf Hv Hs) as (h' & Hsh' & Hnb' & Hmax' & Hperm' & ->).
  destruct (Z.ltb_spec (nb_elements h + 1) (max_elements h)); [|lia].
  exists h'. split; [done|]. split; [split; [done | lia]|]. done.
Qed.

Lemma heap_add_present_ok (v : vertex_s W) (h : heap_s W) (s : Z) :
  heap_wf h -> 0 <= ind v < max_elements h ->
  inds h !! Z.to_nat (ind v) = Some s -> s <> -1 ->
  exists h', heap_add wlt v h = Ok h' /\ heap_wf h'
    /\ nb_elements h' = nb_elements h /\ max_elements h' = max_elements h
    /\ inds h' = inds h.
Proof.
  intros Hwf Hv Hs Hne. pose proof Hwf as [Hsh Hlt].
  pose proof Hsh as (Hla & Hli & Hnb & Hslots & Hinds).
  destruct (Hinds _ _ Hs Hne) as [Hr [a_s As]].
  unfold heap_add. rewrite (check_heap_wf h Hwf). cbn.
  rewrite (rd_lookup (inds h) (ind v) s) by (lia || done). cbn.
  destruct (Z.eqb_spec s (-1)) as [|_]; [done|].
  rewrite (rdv_lookup (array h) s a_s) by (lia || done). cbn.
  destruct (wlt (weight v) (weight a_s)).
  2:{ cbn. rewrite (check_heap_wf h Hwf). cbn. by exists h. }
  rewrite (wr_in_range (array h) s) by lia. cbn.
  set (h1 := mk_heap _ _ _ _).
  assert (Hwf1 : heap_wf h1).
  { split; [|unfold h1; cbn; lia]. unfold heap_shape, h1. cbn.
    rewrite length_insert. split; [done|]. split; [done|]. split; [done|]. split.
    - intros j Hj. destruct (decide (j = s)) as [->|Hjs].
      + exists v. split; [|split; [done|done]].
        apply list_lookup_insert_eq. lia.
      + destruct (Hslots j Hj) as (a_j & Aj & Rj & Ij).
        exists a_j. split; [|split; [done|done]].
        by rewrite list_lookup_insert_ne by lia.
    - intros x t Hx Ht. destruct (Hinds x t Hx Ht) as [Hr' Hw].
      split; [done|]. by apply insert_written. }
  rewrite (check_heap_wf h1 Hwf1). cbn. by exists h1.
Qed.

Lemma heap_remove_ok (h : heap_s W) :
  heap_wf h -> 1 <= nb_elements h ->
  exists r h', heap_peek h = Ok r /\ heap_remove wlt h = Ok h' /\ heap_wf h'
    /\ nb_elements h' = nb_elements h - 1 /\ max_elements h' = max_elements h
    /\ live_entries h ≡ₚ r :: live_entries h'.
Proof.
  intros Hwf Hne. pose proof Hwf as [Hsh Hlt].
  pose proof Hsh as (Hla & Hli & Hnb & Hslots & Hinds).
  destruct (Hslots 0 ltac:(lia)) as (r & Ar & Rr & Ir).
  destruct (Hslots (nb_elements h - 1) ltac:(lia)) as (last & Al & Rl & Il).
  exists r. unfold heap_peek, heap_empty, heap_remove.
  destruct (Z.eqb_spec (nb_elements h) 0) as [|_]; [lia|].
  rewrite (rdv_lookup (array h) 0 r) by (lia || done).
  rewrite (check_heap_wf h Hwf). cbn.
  rewrite (rdv_lookup (array h) (nb_elements h - 1) last) by (lia || done). cbn.
  rewrite (wr_in_range (array h) 0) by lia. cbn.
  rewrite (wr_in_range (inds h) (ind last)) by lia. cbn.
  set (h1 := mk_heap _ _ _ _).
  assert (Hsh1 : heap_shape h1).
  { unfold heap_shape, h1. cbn. rewrite !length_insert.
    split; [done|]. split; [done|]. split; [lia|]. split.
    - intros j Hj. destruct (decide (j = 0)) as [->|Hj0].
      + exists last. split; [|split; [done|]].
        * apply list_lookup_insert_eq. lia.
        * apply list_lookup_insert_eq. lia.
      + destruct (Hslots j ltac:(lia)) as (a_j & Aj & Rj & Ij).
        exists a_j. split; [|split; [done|]].
        * rewrite list_lookup_insert_ne; [done|]. change 0%nat with (Z.to_nat 0). lia.
        * rewrite list_lookup_insert_ne; [done|].
          apply not_eq_sym.
          apply (shape_inds_distinct h j (nb_elements h - 1) a_j last);
            (done || lia).
    - intros x s Hx Hs.
      apply list_lookup_insert_Some in Hx as [(_ & <- & _) | (_ & Hx)].
      + split; [lia|]. exists last. apply list_lookup_insert_eq. lia.
      + destruct (Hinds x s Hx Hs) as [Hr Hw]. split; [done|].
        by apply (insert_written _ (Z.to_nat 0)). }
  assert (Hlive1 : live_entries h ≡ₚ r :: live_entries h1).
  { unfold live_entries, h1. cbn.
    replace (Z.to_nat (nb_elements h)) with (S (Z.to_nat (nb_elements h - 1))) by lia.
    rewrite (take_S_r _ _ (Some last)) by done.
    rewrite omap_app. cbn.
    destruct (Z.to_nat (nb_elements h - 1)) as [|k] eqn:Hk.
    - cbn. change (Z.to_nat 0) with 0%nat in Ar. rewrite Ar in Al.
      by injection Al as ->.
    - change (Z.to_nat 0) with 0%nat in *.
      destruct (array h) as [|x arr]; [done|]. cbn in Ar. injection Ar as ->.
      cbn. f_equiv. symmetry. apply Permutation_cons_append. }
  destruct (sift_down_ok (Z.to_nat (nb_elements h - 1)) h1 0 Hsh1 ltac:(lia))
    as (h' & -> & Hsh' & Hnb' & Hmax' & Hperm'). cbn.
  unfold h1 in Hnb', Hmax'. cbn in Hnb', Hmax'.
  assert (Hwf' : heap_wf h') by (split; [done | lia]).
  rewrite (check_heap_wf h' Hwf'). cbn.
  exists h'. split; [done|]. split; [done|]. split; [done|]. split; [done|].
  split; [done|]. by rewrite Hperm'.
Qed.


Lemma heap_add_wf (v : vertex_s W) (h h' : heap_s W) :
  heap_wf h -> heap_add wlt v h = Ok h' ->
  heap_wf h' /\ max_elements h' = max_elements h.
Proof.
  intros Hwf H. pose proof Hwf as [(_ & Hli & _) _].
  assert (Hr : exists s, 0 <= ind v < max_elements h
                         /\ inds h !! Z.to_nat (ind v) = Some s).
  { unfold heap_add in H. inv_ok H. apply rd_Ok in E1 as [Hv Hs].
    exists a1. split; [|done]. apply lookup_lt_Some in Hs. lia. }
  destruct Hr as (s & Hv & Hs). destruct (decide (s = -1)) as [->|Hne].
  - destruct (heap_add_fresh_run v h Hwf Hv Hs)
      as (h1 & Hsh1 & Hnb1 & Hmax1 & _ & Hrun).
    rewrite Hrun in H.
    destruct (Z.ltb_spec (nb_elements h + 1) (max_elements h)); [|done].
    injection H as <-. split; [split; [done | lia] | done].
  - destruct (heap_add_present_ok v h s Hwf Hv Hs Hne)
      as (h1 & Hrun & Hwf1 & _ & Hmax1 & _).
    rewrite Hrun in H. by injection H as <-.
Qed.

Lemma heap_remove_wf (h h' : heap_s W) :
  heap_wf h -> heap_remove wlt h = Ok h' ->
  heap_wf h' /\ max_elements h' = max_elements h.
Proof.
  intros Hwf H.
  pose proof (heap_remove_Ok wlt h h' H) as (_ & _ & _ & _ & Hnb & _).
  destruct (heap_remove_ok h Hwf Hnb) as (r & h1 & _ & Hrun & Hwf1 & _ & Hmax1 & _).
  rewrite Hrun in H. by injection H as <-.
Qed.

Lemma run_ops_wf (ops : list (heap_op W)) :
  forall h h' : heap_s W,
    heap_wf h -> run_ops wlt ops h = Ok h' ->
    heap_wf h' /\ max_elements h' = max_elements h.
Proof.
  induction ops as [|op ops IH]; intros h h' Hwf H; cbn in H.
  { by injection H as <-. }
  inv_ok H.
  assert (Hstep : heap_wf a /\ max_elements a = max_elements h).
  { destruct op; cbn in E; [by apply (heap_add_wf v h) | by apply heap_remove_wf]. }
  destruct Hstep as [Hwf1 Hmax1].
  destruct (IH a h' Hwf1 H) as [Hwf' Hmax']. split; [done | congruence].
Qed.

End HeapSuccess.

Section HeapSort.

Context {W : Type}.
Variable wlt : W -> W -> bool.
Hypothesis wlt_asym : forall a b, wlt a b = true -> wlt b a = false.
Hypothesis wle_trans : forall a b c,
  wlt b a = false -> wlt c b = false -> wlt c a = false.

Lemma live_entries_slot (h : heap_s W) (a : vertex_s W) :
  0 <= nb_elements h -> a ∈ live_entries h -> exists j, slot h j a.
Proof.
  intros Hnb Ha. unfold live_entries in Ha.
  apply list_elem_of_omap in Ha as (o & Ho & ->).
  apply elem_of_take in Ho as (i & Hi & Hlt).
  exists (Z.of_nat i). split; [lia|]. by rewrite Nat2Z.id.
Qed.

Lemma live_entries_empty (h : heap_s W) :
  nb_elements h <= 0 -> live_entries h = [].
Proof.
  intros Hnb. unfold live_entries.
  by replace (Z.to_nat (nb_elements h)) with 0%nat by lia.
Qed.

(** on a well-formed, ordered, non-empty heap [heap_peek] returns an
    entry that no live entry is below, and [heap_remove] takes exactly
    that entry out *)
Lemma heap_remove_minimum (h : heap_s W) :
  heap_wf h -> heap_ordered wlt h -> 1 <= nb_elements h ->
  exists r h', heap_peek h = Ok r /\ heap_remove wlt h = Ok h'
    /\ heap_wf h' /\ heap_ordered wlt h'
    /\ nb_elements h' = nb_elements h - 1
    /\ max_elements h' = max_elements h
    /\ live_entries h ≡ₚ r :: live_entries h'
    /\ forall a, a ∈ live_entries h -> wlt (weight a) (weight r) = false.
Proof.
  intros Hwf Hord Hnb.
  destruct (heap_remove_ok wlt h Hwf Hnb)
    as (r & h' & Hpeek & Hrem & Hwf' & Hnb' & Hmax' & Hperm).
  exists r, h'. split; [done|]. split; [done|]. split; [done|].
  split; [by apply (heap_remove_ordered wlt wlt_asym wle_trans h h')|].
  split; [done|]. split; [done|]. split; [done|].
  intros a Ha. apply live_entries_slot in Ha as [j Hj]; [|lia].
  apply (root_minimal wlt wlt_asym wle_trans h r Hord (check_heap_wf h Hwf)
           (heap_peek_Ok h r Hpeek Hnb) j a Hj).
Qed.

Lemma heap_drain_sorted (fuel : nat) :
  forall h : heap_s W,
    heap_wf h -> heap_ordered wlt h -> 0 <= nb_elements h <= Z.of_nat fuel ->
    exists out, heap_drain wlt fuel h = Ok out
      /\ out ≡ₚ live_entries h
      /\ keys_ascending wlt out.
Proof.
  induction fuel as [|fuel IH]; intros h Hwf Hord Hnb.
  { cbn. unfold heap_empty. destruct (Z.eqb_spec (nb_elements h) 0); [|lia].
    exists []. split; [done|]. split; [by rewrite live_entries_empty by lia|].
    by intros i j a b _ Hi. }
  cbn. unfold heap_empty. destruct (Z.eqb_spec (nb_elements h) 0) as [Hz|Hz].
  { exists []. split; [done|]. split; [by rewrite live_entries_empty by lia|].
    by intros i j a b _ Hi. }
  destruct (heap_remove_minimum h Hwf Hord ltac:(lia))
    as (r & h' & -> & -> & Hwf' & Hord' & Hnb' & _ & Hperm & Hmin). cbn.
  destruct (IH h' Hwf' Hord' ltac:(lia)) as (out & -> & Hout & Hsorted). cbn.
  exists (r :: out). split; [done|]. split; [by rewrite Hperm, Hout|].
  intros [|i] [|j] a b Hij Ha Hb; cbn in Ha, Hb; try lia.
  - injection Ha as <-. apply Hmin. rewrite Hperm. apply list_elem_of_further.
    rewrite <- Hout. by apply list_elem_of_lookup_2 in Hb.
  - apply (Hsorted i j a b); (lia || done).
Qed.

Lemma heap_adds_fresh (vs : list (vertex_s W)) :
  forall (h : heap_s W) (added : list Z),
    heap_wf h -> heap_counts h added -> heap_ordered wlt h ->
    NoDup (ind <$> vs) ->
    (forall v, v ∈ vs -> (ind v ∉ added) /\ 0 <= ind v < max_elements h) ->
    nb_elements h + Z.of_nat (length vs) < max_elements h ->
    exists h', heap_adds wlt vs h = Ok h' /\ heap_wf h' /\ heap_ordered wlt h'
      /\ nb_elements h' = nb_elements h + Z.of_nat (length vs)
      /\ live_entries h' ≡ₚ vs ++ live_entries h.
Proof.
  induction vs as [|v vs IH]; intros h added Hwf Hc Hord Hnd Hvs Hroom; cbn.
  { exists h. split; [done|]. split; [done|]. split; [done|]. split; [lia | done]. }
  rewrite fmap_cons in Hnd. apply NoDup_cons in Hnd as [Hv Hnd].
  destruct (Hvs v (list_elem_of_here _ _)) as [Hfresh Hrange].
  pose proof Hwf as [(_ & Hli & _) _].
  assert (Hs : inds h !! Z.to_nat (ind v) = Some (-1)).
  { destruct (inds h !! Z.to_nat (ind v)) as [s|] eqn:Hs.
    - f_equal. destruct Hc as (_ & _ & Hother).
      by apply (Hother (ind v) s ltac:(lia) Hfresh).
    - apply lookup_ge_None in Hs. lia. }
  cbn [length] in Hroom.
  destruct (heap_add_fresh_ok wlt v h Hwf Hrange Hs ltac:(lia))
    as (h1 & Hadd & Hwf1 & Hnb1 & Hmax1 & Hperm1).
  rewrite Hadd. cbn.
  pose proof (heap_add_counts wlt v h h1 added Hc Hfresh Hadd) as Hc1.
  assert (Hord1 : heap_ordered wlt h1).
  { apply (heap_add_fresh_ordered wlt wlt_asym wle_trans v h h1 Hord); [|done].
    by apply rd_lookup; [lia|]. }
  destruct (IH h1 (ind v :: added) Hwf1 Hc1 Hord1 Hnd)
    as (h' & -> & Hwf' & Hord' & Hnb' & Hperm'); [|lia|].
  - intros v' Hv'. destruct (Hvs v' (list_elem_of_further _ _ _ Hv')) as [Hf Hr].
    split; [|lia]. intros Hin. apply elem_of_cons in Hin as [Heq | Hin]; [|done].
    apply Hv. rewrite <- Heq. by apply list_elem_of_fmap_2.
  - exists h'. split; [done|]. split; [done|]. split; [done|].
    split; [cbn [length]; lia|].
    rewrite Hperm', Hperm1. by rewrite Permutation_middle.
Qed.

End HeapSort.

Lemma keys_sorted_ascending (l : list (vertex_s double)) :
  keys_ascending dlt l -> keys_sorted l = true.
Proof.
  induction l as [|a l IH]; intros Hl; [done|].
  destruct l as [|b l]; [done|]. cbn [keys_sorted].
  rewrite (Hl 0%nat 1%nat a b) by (lia || done). cbn. apply IH.
  intros i j x y Hij Hx Hy. apply (Hl (S i) (S j) x y); (lia || done).
Qed.

Section HeapIndex.

Context {W : Type}.
Variable wlt : W -> W -> bool.

Lemma insert_indexed (l : list Z) (k x : nat) (v : Z) :
  v <> -1 -> (exists s, l !! x = Some s /\ s <> -1) ->
  exists s, <[k := v]> l !! x = Some s /\ s <> -1.
Proof.
  intros Hv (s & Hs & Hne). destruct (decide (k = x)) as [->|Hkx].
  - exists v. split; [|done]. apply list_lookup_insert_eq. by apply lookup_lt_Some in Hs.
  - exists s. by rewrite list_lookup_insert_ne.
Qed.

Lemma swap_indexed (h : heap_s W) (v w : Z) (h' : heap_s W) (x : nat) :
  swap h v w = Ok h' -> indexed h x -> indexed h' x.
Proof.
  intros H Hx.
  apply swap_Ok in H as (a_v & a_w & Hv & Hw & _ & _ & _ & Hinds & _).
  unfold indexed. rewrite Hinds. by do 2 (apply insert_indexed; [lia|]).
Qed.

Lemma sift_up_indexed (n : nat) (x : nat) :
  forall (h : heap_s W) (i : Z) (h' : heap_s W),
    sift_up wlt n h i = Ok h' -> indexed h x -> indexed h' x.
Proof.
  induction n as [|n IH]; intros h i h' H Hx; cbn in H.
  { by injection H as <-. }
  destruct (i >? 0); [|by injection H as <-].
  inv_ok H. destruct (wlt (weight a) (weight a0)); [|by injection H as <-].
  inv_ok H. apply (IH _ _ _ H). by apply (swap_indexed _ _ _ _ _ E3).
Qed.

Lemma sift_down_indexed (n : nat) (x : nat) :
  forall (h : heap_s W) (i : Z) (h' : heap_s W),
    sift_down wlt n h i = Ok h' -> indexed h x -> indexed h' x.
Proof.
  induction n as [|n IH]; intros h i h' H Hx; cbn in H.
  { by injection H as <-. }
  destruct (i <? nb_elements h); [|by injection H as <-].
  inv_ok H. destruct (a0 =? i); [by injection H as <-|].
  inv_ok H. apply (IH _ _ _ H). by apply (swap_indexed _ _ _ _ _ E1).
Qed.

Lemma heap_add_indexed (v : vertex_s W) (h h' : heap_s W) (x : nat) :
  heap_add wlt v h = Ok h' -> indexed h x -> indexed h' x.
Proof.
  intros H Hx. unfold heap_add in H. inv_ok H. injection H as ->.
  destruct (Z.eqb_spec a1 (-1)) as [->|Hs].
  - inv_ok E2. apply wr_Ok in E6 as [Hnb ->]. apply wr_Ok in E7 as [_ ->].
    apply (sift_up_indexed _ _ _ _ _ E2). unfold indexed. cbn.
    apply insert_indexed; [lia | done].
  - inv_ok E2. destruct (wlt (weight v) (weight a2)).
    + inv_ok E2. by injection E2 as <-.
    + by injection E2 as <-.
Qed.

Lemma heap_remove_indexed (h h' : heap_s W) (x : nat) :
  heap_remove wlt h = Ok h' -> indexed h x -> indexed h' x.
Proof.
  intros H Hx. unfold heap_remove in H. inv_ok H. injection H as ->.
  apply wr_Ok in E2 as [_ ->]. apply wr_Ok in E3 as [_ ->].
  apply (sift_down_indexed _ _ _ _ _ E4). unfold indexed. cbn.
  apply insert_indexed; [lia | done].
Qed.

Lemma run_ops_indexed (ops : list (heap_op W)) (x : nat) :
  forall h h' : heap_s W,
    run_ops wlt ops h = Ok h' -> indexed h x -> indexed h' x.
Proof.
  induction ops as [|op ops IH]; intros h h' H Hx; cbn in H.
  { by injection H as <-. }
  inv_ok H. apply (IH a h' H). destruct op; cbn in E.
  - by apply (heap_add_indexed _ _ _ _ E).
  - by apply (heap_remove_indexed _ _ _ E).
Qed.

Lemma heap_add_gives_index (v : vertex_s W) (h h' : heap_s W) :
  heap_add wlt v h = Ok h' -> indexed h' (Z.to_nat (ind v)).
Proof.
  intros H. pose proof H as H0. unfold heap_add in H. inv_ok H. injection H as ->.
  destruct (Z.eqb_spec a1 (-1)) as [->|Hne].
  - inv_ok E2. apply wr_Ok in E6 as [Hnb ->]. apply wr_Ok in E7 as [Hlen ->].
    apply (sift_up_indexed _ _ _ _ _ E2). unfold indexed. cbn.
    exists (nb_elements h). split; [|lia]. apply list_lookup_insert_eq. lia.
  - apply rd_Ok in E1 as [Hv Hs].
    apply (heap_add_indexed _ _ _ _ H0). by exists a1.
Qed.

Lemma heap_add_indexed_same_count (v : vertex_s W) (h h' : heap_s W) :
  indexed h (Z.to_nat (ind v)) -> heap_add wlt v h = Ok h' ->
  nb_elements h' = nb_elements h /\ inds h' = inds h
  /\ length (array h') = length (array h).
Proof.
  intros (s & Hs & Hne) H. unfold heap_add in H. inv_ok H. injection H as ->.
  pose proof (rd_Ok _ _ _ E1) as [Hv Hs']. rewrite Hs in Hs'. injection Hs' as <-.
  destruct (Z.eqb_spec s (-1)) as [|_]; [done|].
  inv_ok E2. destruct (wlt (weight v) _).
  - apply bind_Ok in E2 as (arr & Earr & E2).
    injection E2 as <-. apply wr_Ok in Earr as [_ ->]. cbn.
    by rewrite length_insert.
  - by injection E2 as <-.
Qed.

End HeapIndex.

(** X1. Heap sort. The [heap_add] of vertices with pairwise distinct
    indices, all below the capacity [c] and fewer than [c] of them, to
    the heap of [heap_create c], followed by [heap_peek]/[heap_remove]
    until [heap_empty], succeeds, runs the loop once per vertex, and
    yields exactly the vertices added, in non-decreasing order of their
    keys. *)
Theorem heap_sorts_distinct_vertices
    (c : Z) (vs : list (vertex_s double))
    (Hnd : NoDup (ind <$> vs))
    (Hrange : Forall (fun v => 0 <= ind v < c) vs)
    (Hroom : Z.of_nat (length vs) < c) :
  exists out,
    (h ← heap_create c; h' ← heap_adds dlt vs h; heap_drain dlt (length vs) h')
      = Ok out
    /\ out ≡ₚ vs /\ keys_sorted out = true.
Proof.
  destruct (heap_create_wf (W := double) c ltac:(lia))
    as (h & -> & Hwf & Hnb & Hmax & Hlive & Hinds). cbn.
  destruct (heap_adds_fresh dlt dlt_asym dle_trans vs h [] Hwf)
    as (h' & -> & Hwf' & Hord' & Hnb' & Hperm'); [| |done| |lia|].
  - split; [by rewrite Hnb|]. split.
    + intros i a [Hi _]. lia.
    + intros x s _ _ Hs. by apply (Hinds (Z.to_nat x)).
  - intros i a p _ [Hi _]. lia.
  - intros v Hv. split; [apply not_elem_of_nil|]. rewrite Hmax.
    by apply (proj1 (Forall_forall _ _) Hrange).
  - cbn. destruct (heap_drain_sorted dlt dlt_asym dle_trans (length vs) h' Hwf' Hord')
      as (out & -> & Hout & Hsorted); [lia|].
    exists out. split; [done|]. split.
    + rewrite Hout, Hperm', Hlive. by rewrite app_nil_r.
    + by apply keys_sorted_ascending.
Qed.

Lemma heap_sorts_distinct_vertices_witness :
  exists out,
    (h ← heap_create 4;
     h' ← heap_adds dlt [vertex 2 7 (-1); vertex 0 3 (-1); vertex 1 5 (-1)] h;
     heap_drain dlt 3 h') = Ok out
    /\ out ≡ₚ [vertex 2 7 (-1); vertex 0 3 (-1); vertex 1 5 (-1)]
    /\ keys_sorted out = true.
Proof.
  apply (heap_sorts_distinct_vertices 4
           [vertex 2 7 (-1); vertex 0 3 (-1); vertex 1 5 (-1)]).
  - apply (bool_decide_unpack _). vm_compute. reflexivity.
  - repeat constructor; cbn; lia.
  - cbn. lia.
Defined.



Lemma heap_reachable_wf {W : Type} (wlt : W -> W -> bool)
    (c : Z) (ops : list (heap_op W)) (h : heap_s W) :
  0 < c -> (h0 ← heap_create c; run_ops wlt ops h0) = Ok h ->
  heap_wf h /\ max_elements h = c.
Proof.
  intros Hc H. apply bind_Ok in H as (h0 & Hcreate & Hops).
  destruct (heap_create_wf (W := W) c Hc) as (h0' & Hc' & Hwf0 & _ & Hmax0 & _).
  rewrite Hcreate in Hc'. injection Hc' as <-.
  destruct (run_ops_wf wlt ops h0 h Hwf0 Hops) as [Hwf Hmax].
  split; [done | congruence].
Qed.

(** X3. On a heap reached from [heap_create c] (with [c > 0]) by
    operations that succeeded, [heap_add] returns a heap exactly when the
    index of the vertex is within [0, c) and either the vertex already
    has an index or one cell more than the new entry is free
    ([nb_elements + 1 < c]); the heap it returns passes [check_heap]. *)
Theorem heap_add_succeeds_iff {W : Type} (wlt : W -> W -> bool)
    (c : Z) (ops : list (heap_op W)) (h : heap_s W) (v : vertex_s W)
    (Hc : 0 < c)
    (Hreach : (h0 ← heap_create c; run_ops wlt ops h0) = Ok h) :
  (exists h', heap_add wlt v h = Ok h' /\ check_heap h' = Ok true)
  <-> 0 <= ind v < c
      /\ (indexed h (Z.to_nat (ind v)) \/ nb_elements h + 1 < c).
Proof.
  destruct (heap_reachable_wf wlt c ops h Hc Hreach) as [Hwf Hmax].
  pose proof Hwf as [(_ & Hli & _) _]. split.
  - intros (h' & H & _).
    assert (Hr : exists s, 0 <= ind v < max_elements h
                           /\ inds h !! Z.to_nat (ind v) = Some s).
    { unfold heap_add in H. inv_ok H. apply rd_Ok in E1 as [Hv Hs].
      exists a1. split; [|done]. apply lookup_lt_Some in Hs. lia. }
    destruct Hr as (s & Hv & Hs). split; [lia|].
    destruct (decide (s = -1)) as [->|Hne]; [|left; by exists s].
    right. destruct (heap_add_fresh_run wlt v h Hwf Hv Hs) as (h1 & _ & _ & _ & _ & Hrun).
    rewrite Hrun in H.
    destruct (Z.ltb_spec (nb_elements h + 1) (max_elements h)); [lia | done].
  - intros [Hv Hcase]. rewrite <- Hmax in Hv.
    assert (Hs : exists s, inds h !! Z.to_nat (ind v) = Some s).
    { destruct (inds h !! Z.to_nat (ind v)) as [s|] eqn:Hs; [by exists s|].
      apply lookup_ge_None in Hs. lia. }
    destruct Hs as [s Hs]. destruct (decide (s = -1)) as [->|Hne].
    + destruct Hcase as [(s' & Hs' & Hne') | Hroom]; [congruence|].
      destruct (heap_add_fresh_ok wlt v h Hwf Hv Hs ltac:(lia))
        as (h' & Hrun & Hwf' & _).
      exists h'. split; [done | by apply check_heap_wf].
    + destruct (heap_add_present_ok wlt v h s Hwf Hv Hs Hne)
        as (h' & Hrun & Hwf' & _).
      exists h'. split; [done | by apply check_heap_wf].
Qed.

Lemma heap_add_succeeds_iff_witness :
  (exists h', heap_add dlt (vertex 2 1 (-1))
                (mk_heap [Some (vertex 0 5 (-1)); None; None] [0; -1; -1] 1 3) = Ok h'
              /\ check_heap h' = Ok true)
  <-> 0 <= 2 < 3
      /\ (indexed (mk_heap [Some (vertex 0 5 (-1)); None; None] [0; -1; -1] 1 3)
            (Z.to_nat 2)
          \/ 1 + 1 < 3).
Proof.
  apply (heap_add_succeeds_iff dlt 3 [Add (vertex 0 5 (-1))]
           (mk_heap [Some (vertex 0 5 (-1)); None; None] [0; -1; -1] 1 3)
           (vertex 2 1 (-1))).
  - lia.
  - vm_compute. reflexivity.
Defined.

(** X4. On a heap reached from [heap_create c] (with [c > 0]) by
    operations that succeeded, [heap_remove] returns a heap exactly when
    the heap is not empty; it then takes out the entry that [heap_peek]
    returns, one live entry less being left and the others kept, and the
    heap it returns passes [check_heap]. *)
Theorem heap_remove_succeeds_iff {W : Type} (wlt : W -> W -> bool)
    (c : Z) (ops : list (heap_op W)) (h : heap_s W)
    (Hc : 0 < c)
    (Hreach : (h0 ← heap_create c; run_ops wlt ops h0) = Ok h) :
  ((exists h', heap_remove wlt h = Ok h') <-> heap_empty h = false)
  /\ forall h', heap_remove wlt h = Ok h' ->
       exists r, heap_peek h = Ok r
         /\ live_entries h ≡ₚ r :: live_entries h'
         /\ nb_elements h' = nb_elements h - 1
         /\ check_heap h' = Ok true.
Proof.
  destruct (heap_reachable_wf wlt c ops h Hc Hreach) as [Hwf Hmax].
  pose proof Hwf as [(_ & _ & Hnb & _) _].
  unfold heap_empty. split; [split|].
  - intros [h' H]. apply heap_remove_Ok in H as (_ & _ & _ & _ & Hne & _).
    destruct (Z.eqb_spec (nb_elements h) 0); [lia | done].
  - intros Hne. destruct (Z.eqb_spec (nb_elements h) 0); [done|].
    destruct (heap_remove_ok wlt h Hwf ltac:(lia)) as (r & h' & _ & Hrun & _).
    by exists h'.
  - intros h' H.
    pose proof (heap_remove_Ok wlt h h' H) as (_ & Hpost & _ & _ & Hne & _).
    destruct (heap_remove_ok wlt h Hwf Hne)
      as (r & h1 & Hpeek & Hrun & _ & Hnb1 & _ & Hperm).
    rewrite Hrun in H. injection H as <-. by exists r.
Qed.

Lemma heap_remove_succeeds_iff_witness :
  (exists h', heap_remove dlt
                (mk_heap [Some (vertex 0 5 (-1)); None; None] [0; -1; -1] 1 3) = Ok h')
  <-> heap_empty (mk_heap [Some (vertex 0 5 (-1)); None; None] [0; -1; -1] 1 3) = false.
Proof.
  apply (heap_remove_succeeds_iff dlt 3 [Add (vertex 0 5 (-1))]
           (mk_heap [Some (vertex 0 5 (-1)); None; None] [0; -1; -1] 1 3)).
  - lia.
  - vm_compute. reflexivity.
Defined.

(** * Further properties of the adjacency lists *)

Section GraphListFacts.

Context {W : Type}.

Import GraphList.

Lemma add_edge_listed (d : bool) (adj adj' : list (list (vertex_s W))) (e : edge_s W) :
  add_edge W d adj e = Ok adj' ->
  length adj' = length adj
  /\ 0 <= e_src e < Z.of_nat (length adj)
  /\ (d = false -> 0 <= e_dst e < Z.of_nat (length adj))
  /\ forall v a, listed adj' v a <->
        listed adj v a
        \/ (v = Z.to_nat (e_src e) /\ a = mk_vertex (e_dst e) (e_weight e) (e_src e))
        \/ (d = false /\ v = Z.to_nat (e_dst e)
            /\ a = mk_vertex (e_src e) (e_weight e) (e_dst e)).
Proof.
  unfold add_edge. intros H. inv_ok H.
  apply rd_Ok in E as [Hs Hold]. apply wr_Ok in E0 as [Hsl ->].
  assert (Hfirst : forall v b,
            listed (<[Z.to_nat (e_src e) :=
                        mk_vertex (e_dst e) (e_weight e) (e_src e) :: a]> adj) v b
            <-> listed adj v b
                \/ (v = Z.to_nat (e_src e)
                    /\ b = mk_vertex (e_dst e) (e_weight e) (e_src e))).
  { intros v b. unfold listed. split.
    - intros (l & Hl & Hb).
      apply list_lookup_insert_Some in Hl as [(<- & <- & _) | (Hne & Hl)].
      + apply elem_of_cons in Hb as [-> | Hb]; [by right|]. left. by exists a.
      + left. by exists l.
    - intros [(l & Hl & Hb) | [-> ->]].
      + destruct (decide (Z.to_nat (e_src e) = v)) as [<-|Hne].
        * eexists. split; [apply list_lookup_insert_eq; lia|].
          rewrite Hold in Hl. injection Hl as <-. by apply list_elem_of_further.
        * exists l. by rewrite list_lookup_insert_ne.
      + eexists. split; [apply list_lookup_insert_eq; lia|]. apply list_elem_of_here. }
  destruct d; cbn in H.
  - injection H as <-. rewrite length_insert. split; [done|]. split; [done|].
    split; [done|]. intros v b. rewrite Hfirst. split.
    + intros [Hold' | Hnew]; [by left | by right; left].
    + intros [Hold' | [Hnew | (Hf & _)]]; [by left | by right | done].
  - inv_ok H. apply rd_Ok in E as [Hd Hold']. apply wr_Ok in H as [Hdl ->].
    rewrite length_insert in Hdl. rewrite !length_insert.
    split; [done|]. split; [done|]. split; [done|].
    intros v b. split.
    + intros (l & Hl & Hb).
      apply list_lookup_insert_Some in Hl as [(<- & <- & _) | (Hne & Hl)].
      * apply elem_of_cons in Hb as [-> | Hb]; [by right; right|].
        assert (Hin : listed (<[Z.to_nat (e_src e) :=
                        mk_vertex (e_dst e) (e_weight e) (e_src e) :: a]> adj)
                        (Z.to_nat (e_dst e)) b) by (by exists a0).
        apply Hfirst in Hin as [Hin | Hin]; [by left | by right; left].
      * assert (Hin : listed (<[Z.to_nat (e_src e) :=
                        mk_vertex (e_dst e) (e_weight e) (e_src e) :: a]> adj) v b)
          by (by exists l).
        apply Hfirst in Hin as [Hin | Hin]; [by left | by right; left].
    + intros Hcase.
      assert (Hin : listed (<[Z.to_nat (e_src e) :=
                      mk_vertex (e_dst e) (e_weight e) (e_src e) :: a]> adj) v b
                    \/ (v = Z.to_nat (e_dst e)
                        /\ b = mk_vertex (e_src e) (e_weight e) (e_dst e))).
      { destruct Hcase as [Hin | [Hin | (_ & Hin)]];
          [left; apply Hfirst; by left | left; apply Hfirst; by right | by right]. }
      destruct Hin as [(l & Hl & Hb) | [-> ->]].
      * destruct (decide (Z.to_nat (e_dst e) = v)) as [<-|Hne].
        -- eexists. split; [apply list_lookup_insert_eq; rewrite length_insert; lia|].
           rewrite Hold' in Hl. injection Hl as <-. by apply list_elem_of_further.
        -- exists l. by rewrite list_lookup_insert_ne.
      * eexists. split; [apply list_lookup_insert_eq; rewrite length_insert; lia|].
        apply list_elem_of_here.
Qed.

Lemma add_edge_ok (d : bool) (adj : list (list (vertex_s W))) (e : edge_s W) :
  0 <= e_src e < Z.of_nat (length adj) ->
  (d = false -> 0 <= e_dst e < Z.of_nat (length adj)) ->
  exists adj', add_edge W d adj e = Ok adj'.
Proof.
  intros Hs Hd. unfold add_edge.
  destruct (lookup_lt_is_Some_2 adj (Z.to_nat (e_src e)) ltac:(lia)) as [old Hold].
  rewrite (rd_lookup adj (e_src e) old) by (lia || done). cbn.
  rewrite (wr_in_range adj (e_src e)) by lia. cbn.
  destruct d; cbn; [by eexists|]. specialize (Hd eq_refl).
  set (adj1 := <[_ := _]> adj).
  destruct (lookup_lt_is_Some_2 adj1 (Z.to_nat (e_dst e))) as [old' Hold'].
  { unfold adj1. rewrite length_insert. lia. }
  rewrite (rd_lookup adj1 (e_dst e) old') by (lia || done). cbn.
  rewrite (wr_in_range adj1 (e_dst e)) by (unfold adj1; rewrite length_insert; lia).
  by eexists.
Qed.

(** what the loop over the edges of [create_graph] builds, and when it
    runs through *)
Lemma add_edges_listed (d : bool) (edges : list (edge_s W)) (range : list Z) :
  forall adj adj' : list (list (vertex_s W)),
    add_edges W d adj edges range = Ok adj' ->
    length adj' = length adj
    /\ (forall i, i ∈ range -> exists e,
          0 <= i /\ edges !! Z.to_nat i = Some e
          /\ 0 <= e_src e < Z.of_nat (length adj)
          /\ (d = false -> 0 <= e_dst e < Z.of_nat (length adj)))
    /\ forall v a, listed adj' v a <->
          listed adj v a
          \/ exists i e, i ∈ range /\ edges !! Z.to_nat i = Some e
               /\ ((v = Z.to_nat (e_src e)
                    /\ a = mk_vertex (e_dst e) (e_weight e) (e_src e))
                   \/ (d = false /\ v = Z.to_nat (e_dst e)
                       /\ a = mk_vertex (e_src e) (e_weight e) (e_dst e))).
Proof.
  induction range as [|i range IH]; intros adj adj' H; cbn in H.
  { injection H as <-. split; [done|]. split.
    - intros i Hi. by apply not_elem_of_nil in Hi.
    - intros v a. split; [by left|]. intros [H | (i & e & Hi & _)]; [done|].
      by apply not_elem_of_nil in Hi. }
  inv_ok H. apply rd_Ok in E as [Hi He].
  apply add_edge_listed in E0 as (Hlen1 & Hs & Hd & Hl1).
  apply IH in H as (Hlen & Hrange & Hl). rewrite Hlen1 in Hlen, Hrange.
  split; [done|]. split.
  - intros j Hj. apply elem_of_cons in Hj as [-> | Hj]; [by exists a | by apply Hrange].
  - intros v b. rewrite Hl, Hl1. split.
    + intros [[Hold | Hnew] | (j & e & Hj & Hej & Hcase)].
      * by left.
      * right. exists i, a. split; [apply list_elem_of_here | done].
      * right. exists j, e. split; [by apply list_elem_of_further | done].
    + intros [Hold | (j & e & Hj & Hej & Hcase)]; [by left; left|].
      apply elem_of_cons in Hj as [-> | Hj].
      * rewrite He in Hej. injection Hej as <-. by left; right.
      * right. by exists j, e.
Qed.

Lemma add_edges_ok (d : bool) (edges : list (edge_s W)) (range : list Z) :
  forall adj : list (list (vertex_s W)),
    (forall i, i ∈ range -> exists e,
       0 <= i /\ edges !! Z.to_nat i = Some e
       /\ 0 <= e_src e < Z.of_nat (length adj)
       /\ (d = false -> 0 <= e_dst e < Z.of_nat (length adj))) ->
    exists adj', add_edges W d adj edges range = Ok adj'.
Proof.
  induction range as [|i range IH]; intros adj Hrange; cbn; [by eexists|].
  destruct (Hrange i (list_elem_of_here _ _)) as (e & Hi & He & Hs & Hd).
  rewrite (rd_lookup edges i e) by (lia || done). cbn.
  destruct (add_edge_ok d adj e Hs Hd) as [adj1 Hadj1]. rewrite Hadj1. cbn.
  apply add_edge_listed in Hadj1 as (Hlen1 & _).
  apply IH. intros j Hj. rewrite Hlen1. apply Hrange. by apply list_elem_of_further.
Qed.

Lemma listed_replicate (n : nat) (v : nat) (a : vertex_s W) :
  ~ listed (replicate n []) v a.
Proof.
  intros (l & Hl & Ha). apply lookup_replicate in Hl as [-> _].
  by apply not_elem_of_nil in Ha.
Qed.

End GraphListFacts.


(** X6. The graph that [create_graph] returns has an edge from [v] to
    [w] of weight [c] exactly when one of the [nb_edges] first cells of
    [edges] is [(v, w, c)], or, for an undirected graph, [(w, v, c)];
    every entry of the list of a vertex has that vertex as [prev]. *)
Theorem create_graph_edges {W : Type}
    (n m : Z) (d : bool) (edges : list (edge_s W)) (g : GraphList.graph_s W)
    (Hg : GraphList.create_graph n m d edges = Ok g) :
  GraphList.nb_vertices g = n
  /\ length (GraphList.adj_lists g) = Z.to_nat n
  /\ (forall v w c, has_edge g v w c <->
        exists i e, 0 <= i < m /\ edges !! Z.to_nat i = Some e
          /\ e_weight e = c
          /\ ((e_src e = v /\ e_dst e = w)
              \/ (d = false /\ e_src e = w /\ e_dst e = v)))
  /\ (forall v adj a, GraphList.get_adj_list g v = Ok adj -> a ∈ adj -> prev a = v).
Proof.
  unfold GraphList.create_graph in Hg. inv_ok Hg. injection Hg as <-.
  apply add_edges_listed in E as (Hlen & Hrange & Hl).
  rewrite length_replicate in Hlen, Hrange. cbn.
  split; [done|]. split; [done|].
  assert (Hget : forall v adj b,
            GraphList.get_adj_list (GraphList.mk_graph n m d a) v = Ok adj -> b ∈ adj ->
            0 <= v < n /\ listed a (Z.to_nat v) b).
  { intros v adj b Hadj Hb. unfold GraphList.get_adj_list in Hadj. cbn in Hadj.
    destruct (Z.geb_spec v n) as [Hge|Hlt].
    - injection Hadj as <-. by apply not_elem_of_nil in Hb.
    - apply rd_Ok in Hadj as [Hv Hadj]. split; [lia|]. by exists adj. }
  split.
  - intros v w c. split.
    + intros (adj & b & Hadj & Hb & Hind & Hw).
      destruct (Hget v adj b Hadj Hb) as [Hv Hin].
      apply Hl in Hin as [Hin | (i & e & Hi & He & Hcase)];
        [by apply listed_replicate in Hin|].
      apply elem_of_seqZ in Hi.
      destruct (Hrange i) as (e' & _ & He' & Hs & Hd); [apply elem_of_seqZ; lia|].
      rewrite He in He'. injection He' as <-.
      exists i, e. split; [lia|]. split; [done|].
      destruct Hcase as [[Hve ->] | (Hu & Hve & ->)]; cbn in Hind, Hw.
      * split; [done|]. left. split; [lia | done].
      * specialize (Hd Hu). split; [done|]. right. split; [done|]. split; [done | lia].
    + intros (i & e & Hi & He & Hw & Hcase).
      destruct (Hrange i) as (e' & _ & He' & Hs & Hd); [apply elem_of_seqZ; lia|].
      rewrite He in He'. injection He' as <-.
      assert (Hin : listed a (Z.to_nat v) (mk_vertex w c v)).
      { apply Hl. right. exists i, e. split; [apply elem_of_seqZ; lia|].
        split; [done|]. subst c.
        destruct Hcase as [[<- <-] | (Hu & <- & <-)]; [by left | by right]. }
      assert (Hv : 0 <= v < n).
      { destruct Hcase as [[<- _] | (Hu & _ & <-)]; [lia|]. specialize (Hd Hu). lia. }
      destruct Hin as (l & Hl' & Hb).
      exists l, (mk_vertex w c v). split; [|by split].
      unfold GraphList.get_adj_list. cbn.
      destruct (Z.geb_spec v n); [lia|]. by apply rd_lookup; [lia|].
  - intros v adj b Hadj Hb.
    destruct (Hget v adj b Hadj Hb) as [Hv Hin].
    apply Hl in Hin as [Hin | (i & e & Hi & He & Hcase)];
      [by apply listed_replicate in Hin|].
    destruct (Hrange i Hi) as (e' & _ & He' & Hs & Hd).
    rewrite He in He'. injection He' as <-.
    destruct Hcase as [[Hve ->] | (Hu & Hve & ->)]; cbn; [lia|].
    specialize (Hd Hu). lia.
Qed.

Lemma create_graph_edges_witness :
  GraphList.nb_vertices graph4 = 4.
Proof.
  exact (proj1 (create_graph_edges 4 4 false edges4 graph4 eq_refl)).
Defined.

(** * The run of [dijkstra] *)

Lemma index_count_le (l : list Z) : (index_count l <= length l)%nat.
Proof. induction l as [|s l IH]; cbn; [lia|]. destruct (s =? -1); lia. Qed.

Lemma index_count_free (l : list Z) :
  forall x, l !! x = Some (-1) -> (index_count l < length l)%nat.
Proof.
  induction l as [|s l IH]; intros [|x] Hx; cbn in *; try done.
  - injection Hx as ->. cbn. pose proof (index_count_le l). lia.
  - specialize (IH x Hx). destruct (s =? -1); lia.
Qed.

Lemma index_count_mono (l : list Z) :
  forall l', length l = length l' ->
    (forall x s, l !! x = Some s -> s <> -1 ->
       exists s', l' !! x = Some s' /\ s' <> -1) ->
    (index_count l <= index_count l')%nat.
Proof.
  induction l as [|s l IH]; intros [|s' l'] Hlen Hkeep; cbn in *; try lia.
  assert (Htl : (index_count l <= index_count l')%nat).
  { apply IH; [lia|]. intros x t Hx Ht. apply (Hkeep (S x) t Hx Ht). }
  destruct (Z.eqb_spec s (-1)) as [->|Hs]; [lia|].
  destruct (Hkeep 0%nat s eq_refl Hs) as (t & [= <-] & Ht).
  destruct (Z.eqb_spec s' (-1)); [done | lia].
Qed.

Lemma index_count_mono_strict (l : list Z) :
  forall l' x0, length l = length l' ->
    (forall x s, l !! x = Some s -> s <> -1 ->
       exists s', l' !! x = Some s' /\ s' <> -1) ->
    l !! x0 = Some (-1) ->
    (exists s', l' !! x0 = Some s' /\ s' <> -1) ->
    (index_count l + 1 <= index_count l')%nat.
Proof.
  induction l as [|s l IH]; intros [|s' l'] [|x0] Hlen Hkeep H0 H0'; cbn in *;
    try done.
  - injection H0 as ->. destruct H0' as (t & [= <-] & Ht).
    destruct (Z.eqb_spec s' (-1)); [done|]. cbn.
    assert (Htl : (index_count l <= index_count l')%nat); [|lia].
    apply index_count_mono; [lia|].
    intros x t Hx Ht'. apply (Hkeep (S x) t Hx Ht').
  - assert (Htl : (index_count l + 1 <= index_count l')%nat).
    { apply (IH l' x0); [lia| |done|done].
      intros x t Hx Ht. apply (Hkeep (S x) t Hx Ht). }
    destruct (Z.eqb_spec s (-1)) as [->|Hs]; [lia|].
    destruct (Hkeep 0%nat s eq_refl Hs) as (t & [= <-] & Ht).
    destruct (Z.eqb_spec s' (-1)); [done | lia].
Qed.

Section DijkstraRuns.

Context {W : Type}.
Variable wlt : W -> W -> bool.
Variable wadd : W -> W -> W.
Variable winf : W.
Variable wzero : W.

Import GraphList.

Lemma heap_wf_inds_length (h : heap_s W) :
  heap_wf h -> Z.of_nat (length (inds h)) = max_elements h.
Proof. by intros [(_ & Hli & _) _]. Qed.

(** [heap_add] in the main loop of [dijkstra], after the [heap_remove] of
    the round *)
Lemma heap_add_ready (n : Z) (v : vertex_s W) (h : heap_s W) :
  heap_ready n 1 h -> 0 <= ind v < n ->
  exists h', heap_add wlt v h = Ok h' /\ heap_ready n 1 h'.
Proof.
  intros (Hwf & Hmax & Hcount) Hv.
  pose proof (heap_wf_inds_length h Hwf) as Hli.
  destruct (lookup_lt_is_Some_2 (inds h) (Z.to_nat (ind v)) ltac:(lia)) as [s Hs].
  destruct (decide (s = -1)) as [->|Hne].
  - pose proof (index_count_free _ _ Hs) as Hfree.
    destruct (heap_add_fresh_ok wlt v h Hwf ltac:(lia) Hs ltac:(lia))
      as (h' & Hadd & Hwf' & Hnb' & Hmax' & _).
    exists h'. split; [done|]. split; [done|]. split; [lia|].
    pose proof (heap_wf_inds_length h' Hwf') as Hli'.
    assert (Hc : (index_count (inds h) + 1 <= index_count (inds h'))%nat); [|lia].
    apply (index_count_mono_strict _ _ (Z.to_nat (ind v))); [lia| |done|].
    + intros x t Hx Ht.
      apply (heap_add_indexed wlt v h h' x Hadd). by exists t.
    + apply (heap_add_gives_index wlt v h h' Hadd).
  - destruct (heap_add_present_ok wlt v h s Hwf ltac:(lia) Hs Hne)
      as (h' & Hadd & Hwf' & Hnb' & Hmax' & Hinds').
    exists h'. split; [done|]. split; [done|]. split; [lia|].
    rewrite Hinds'. lia.
Qed.

Lemma relax_ready (n : Z) (v : vertex_s W) (dist : list (vertex_s W))
    (adj : list (vertex_s W)) :
  forall h,
    heap_ready n 1 h -> length dist = Z.to_nat n ->
    (forall a, a ∈ adj -> 0 <= ind a < n) ->
    exists h', relax wlt wadd v dist adj h = Ok h' /\ heap_ready n 1 h'.
Proof.
  induction adj as [|a adj IH]; intros h Hh Hlen Hadj; cbn; [by exists h|].
  pose proof (Hadj a (list_elem_of_here _ _)) as Ha.
  destruct (lookup_lt_is_Some_2 dist (Z.to_nat (ind a)) ltac:(lia)) as [d Hd].
  rewrite (rd_lookup dist (ind a) d) by (lia || done). cbn.
  assert (Hq : exists h1,
            (if wlt (wadd (weight v) (weight a)) (weight d)
             then heap_add wlt (mk_vertex (ind a) (wadd (weight v) (weight a)) (ind v)) h
             else Ok h) = Ok h1 /\ heap_ready n 1 h1).
  { destruct (wlt _ _); [|by exists h]. by apply heap_add_ready. }
  destruct Hq as (h1 & -> & Hh1). cbn.
  apply IH; [done | done |]. intros b Hb. apply Hadj. by apply list_elem_of_further.
Qed.

Lemma dijkstra_step_ready (g : graph_s W) (st : dijkstra_state W) :
  graph_closed g -> dijkstra_ready (nb_vertices g) st ->
  heap_empty (q st) = false ->
  exists st', dijkstra_step wlt wadd g st = Ok st'
    /\ dijkstra_ready (nb_vertices g) st'.
Proof.
  intros [Hadjlen Hclosed] ((Hwf & Hmax & Hcount) & Hlv & Hld) Hne.
  unfold heap_empty in Hne. apply Z.eqb_neq in Hne.
  pose proof Hwf as [(_ & _ & Hnb & Hslots & _) Hlt].
  destruct (heap_remove_ok wlt (q st) Hwf ltac:(lia))
    as (r & h1 & Hpeek & Hrem & Hwf1 & Hnb1 & Hmax1 & _).
  assert (Hr : 0 <= ind r < nb_vertices g).
  { destruct (Hslots 0 ltac:(lia)) as (r' & Hr' & Hrange & _).
    apply heap_peek_Ok in Hpeek as [_ Hr0]; [|lia].
    rewrite Hr0 in Hr'. injection Hr' as <-. lia. }
  assert (Hh1 : heap_ready (nb_vertices g) 1 h1).
  { split; [done|]. split; [congruence|].
    pose proof (heap_wf_inds_length _ Hwf) as Hli.
    pose proof (heap_wf_inds_length _ Hwf1) as Hli1.
    assert (Hc : (index_count (inds (q st)) <= index_count (inds h1))%nat); [|lia].
    apply index_count_mono; [lia|]. intros x t Hx Ht.
    apply (heap_remove_indexed wlt (q st) h1 x Hrem). by exists t. }
  unfold dijkstra_step. rewrite Hpeek, Hrem. cbn.
  destruct (lookup_lt_is_Some_2 (visited_vertices st) (Z.to_nat (ind r)) ltac:(lia))
    as [seen Hseen].
  rewrite (rd_lookup (visited_vertices st) (ind r) seen) by (lia || done). cbn.
  destruct seen; cbn.
  { eexists. split; [reflexivity|]. split; [|by split]. cbn.
    destruct Hh1 as (? & ? & ?). split; [done|]. split; [done | lia]. }
  rewrite (wr_in_range (visited_vertices st) (ind r)) by lia. cbn.
  destruct (lookup_lt_is_Some_2 (dist st) (Z.to_nat (ind r)) ltac:(lia)) as [d Hd].
  rewrite (rd_lookup (dist st) (ind r) d) by (lia || done). cbn.
  rewrite (wr_in_range (dist st) (ind r)) by lia. cbn.
  unfold get_adj_list. destruct (Z.geb_spec (ind r) (nb_vertices g)); [lia|].
  destruct (lookup_lt_is_Some_2 (adj_lists g) (Z.to_nat (ind r)) ltac:(lia))
    as [adj Hadj].
  rewrite (rd_lookup (adj_lists g) (ind r) adj) by (lia || done). cbn.
  destruct (relax_ready (nb_vertices g) r
              (<[Z.to_nat (ind r) := mk_vertex (ind d) (weight r) (prev r)]> (dist st))
              adj h1 Hh1) as (h2 & -> & Hh2).
  { by rewrite length_insert. }
  { intros a Ha. apply (Hclosed (Z.to_nat (ind r))). by exists adj. }
  cbn. eexists. split; [reflexivity|]. split; cbn.
  - destruct Hh2 as (? & ? & ?). split; [done|]. split; [done | lia].
  - by rewrite !length_insert.
Qed.

Lemma dijkstra_loop_ready (g : graph_s W) (fuel : nat) :
  forall st,
    graph_closed g -> dijkstra_ready (nb_vertices g) st ->
    (Z.to_nat (nb_elements (q st)) + pending g 0 (visited_vertices st) <= fuel)%nat ->
    exists st', dijkstra_loop wlt wadd fuel g st = Ok st'
      /\ length (dist st') = Z.to_nat (nb_vertices g).
Proof.
  induction fuel as [|fuel IH]; intros st Hg Hst Hm.
  - cbn. destruct (heap_empty (q st)) eqn:He; [exists st; by destruct Hst as (_ & _ & ?)|].
    unfold heap_empty in He. apply Z.eqb_neq in He.
    destruct Hst as (([(_ & _ & Hnb & _) _] & _) & _). lia.
  - cbn. destruct (heap_empty (q st)) eqn:He; [exists st; by destruct Hst as (_ & _ & ?)|].
    destruct (dijkstra_step_ready g st Hg Hst He) as (st1 & Hstep & Hst1).
    rewrite Hstep. cbn.
    apply dijkstra_step_measure in Hstep as [_ Hm1].
    apply IH; [done | done | lia].
Qed.

Lemma created_graph_closed (n m : Z) (d : bool) (edges : list (edge_s W))
    (g : graph_s W) :
  create_graph n m d edges = Ok g ->
  (forall i e, 0 <= i < m -> edges !! Z.to_nat i = Some e -> 0 <= e_dst e < n) ->
  nb_vertices g = n /\ graph_closed g.
Proof.
  intros Hg Hdst. unfold create_graph in Hg. inv_ok Hg. injection Hg as <-.
  apply add_edges_listed in E as (Hlen & Hrange & Hl).
  rewrite length_replicate in Hlen, Hrange.
  split; [done|]. split; [done|]. cbn. intros v b Hb.
  apply Hl in Hb as [Hb | (i & e & Hi & He & Hcase)];
    [by apply listed_replicate in Hb|].
  destruct (Hrange i Hi) as (e' & _ & He' & Hs & _).
  rewrite He in He'. injection He' as <-. apply elem_of_seqZ in Hi.
  destruct Hcase as [[_ ->] | (_ & _ & ->)]; cbn; [|lia].
  apply (Hdst i e); [lia | done].
Qed.

Lemma init_dist_at (n src : Z) :
  0 <= src < n ->
  ((fun i => mk_vertex (W := W) i winf (-1)) <$> seqZ 0 n) !! Z.to_nat src
  = Some (mk_vertex src winf (-1)).
Proof.
  intros Hsrc. rewrite list_lookup_fmap, lookup_seqZ_lt by lia. cbn.
  do 2 f_equal. lia.
Qed.

(** the run of [dijkstra] up to its main loop *)
Lemma dijkstra_run_start (g : graph_s W) (src : Z) :
  0 <= src < nb_vertices g ->
  exists q0 : heap_s W,
    heap_create (nb_vertices g) = Ok q0 /\ heap_wf q0
    /\ nb_elements q0 = 0 /\ max_elements q0 = nb_vertices g
    /\ (forall x s, inds q0 !! x = Some s -> s = -1)
    /\ dijkstra_run wlt wadd winf wzero g src
       = (q1 ← heap_add wlt (mk_vertex src wzero (-1)) q0;
          dijkstra_loop wlt wadd (dijkstra_fuel g) g
            (mk_state (replicate (Z.to_nat (nb_vertices g)) false)
               (<[Z.to_nat src := mk_vertex src wzero (-1)]>
                  ((fun i => mk_vertex i winf (-1)) <$> seqZ 0 (nb_vertices g)))
               q1)).
Proof.
  intros Hsrc.
  destruct (heap_create_wf (W := W) (nb_vertices g) ltac:(lia))
    as (q0 & Hq0 & Hwf0 & Hnb0 & Hmax0 & _ & Hinds0).
  exists q0. split; [done|]. split; [done|]. split; [done|]. split; [done|].
  split; [done|]. unfold dijkstra_run.
  destruct (Z.leb_spec 0 (nb_vertices g)); [|lia]. cbn. rewrite Hq0. cbn.
  set (dist0 := (fun i => mk_vertex i winf (-1)) <$> seqZ 0 (nb_vertices g)).
  rewrite (rd_lookup dist0 src (mk_vertex src winf (-1)))
    by (lia || by apply init_dist_at). cbn.
  rewrite (wr_in_range dist0 src)
    by (unfold dist0; rewrite length_fmap, length_seqZ; lia). cbn.
  rewrite (rd_lookup _ src (mk_vertex src wzero (-1))).
  - reflexivity.
  - lia.
  - apply list_lookup_insert_eq. unfold dist0. rewrite length_fmap, length_seqZ. lia.
Qed.

Lemma dijkstra_run_ok (g : graph_s W) (src : Z) :
  graph_closed g -> 2 <= nb_vertices g -> 0 <= src < nb_vertices g ->
  exists st, dijkstra_run wlt wadd winf wzero g src = Ok st
    /\ length (dist st) = Z.to_nat (nb_vertices g).
Proof.
  intros Hg Hn Hsrc.
  destruct (dijkstra_run_start g src Hsrc)
    as (q0 & _ & Hwf0 & Hnb0 & Hmax0 & Hinds0 & ->).
  pose proof (heap_wf_inds_length q0 Hwf0) as Hli0.
  destruct (lookup_lt_is_Some_2 (inds q0) (Z.to_nat src) ltac:(lia)) as [s Hs].
  pose proof (Hinds0 _ _ Hs) as ->.
  destruct (heap_add_fresh_ok wlt (mk_vertex src wzero (-1)) q0 Hwf0)
    as (q1 & Hadd & Hwf1 & Hnb1 & Hmax1 & _); [cbn; lia | done | lia|].
  rewrite Hadd. cbn [mbind result_mbind result_bind].
  apply dijkstra_loop_ready; [done| |].
  - split; [|split]; cbn.
    + split; [done|]. split; [congruence|].
      pose proof (heap_wf_inds_length q1 Hwf1) as Hli1.
      assert (Hc : (index_count (inds q0) + 1 <= index_count (inds q1))%nat); [|lia].
      apply (index_count_mono_strict _ _ (Z.to_nat src)); [lia| |done|].
      * intros x t Hx Ht. by apply Hinds0 in Hx.
      * apply (heap_add_gives_index wlt _ q0 q1 Hadd).
    + by rewrite length_replicate.
    + by rewrite length_insert, length_fmap, length_seqZ.
  - cbn. unfold dijkstra_fuel. lia.
Qed.

Lemma dijkstra_run_needs (g : graph_s W) (src : Z) (st : dijkstra_state W) :
  dijkstra_run wlt wadd winf wzero g src = Ok st ->
  2 <= nb_vertices g /\ 0 <= src < nb_vertices g.
Proof.
  intros H.
  assert (Hsrc : 0 <= src < nb_vertices g).
  { unfold dijkstra_run in H. inv_ok H. apply rd_Ok in E1 as [Hs Hd].
    apply lookup_lt_Some in Hd. rewrite length_fmap, length_seqZ in Hd. lia. }
  split; [|done].
  destruct (dijkstra_run_start g src Hsrc)
    as (q0 & _ & Hwf0 & Hnb0 & Hmax0 & Hinds0 & Hrun).
  rewrite Hrun in H. apply bind_Ok in H as (q1 & Hadd & _).
  pose proof (heap_wf_inds_length q0 Hwf0) as Hli0.
  destruct (lookup_lt_is_Some_2 (inds q0) (Z.to_nat src) ltac:(lia)) as [s Hs].
  pose proof (Hinds0 _ _ Hs) as ->.
  destruct (heap_add_fresh_run wlt (mk_vertex src wzero (-1)) q0 Hwf0)
    as (q1' & _ & _ & _ & _ & Hrun'); [cbn; lia | done |].
  rewrite Hrun' in Hadd.
  destruct (Z.ltb_spec (nb_elements q0 + 1) (max_elements q0)); [lia | done].
Qed.

End DijkstraRuns.

(** X7. Total correctness of the run of [dijkstra]. On a graph built by
    [create_graph] whose edges all have their destination within
    [0, nb_vertices), [dijkstra] returns a table exactly when the graph
    has two vertices at least and the source is one of them, whatever
    the weights; the table has one entry per vertex. *)
Theorem dijkstra_returns_iff {W : Type}
    (wlt : W -> W -> bool) (wadd : W -> W -> W) (winf wzero : W)
    (n m : Z) (d : bool) (edges : list (edge_s W)) (g : GraphList.graph_s W)
    (src : Z)
    (Hg : GraphList.create_graph n m d edges = Ok g)
    (Hdst : forall i e, 0 <= i < m -> edges !! Z.to_nat i = Some e ->
              0 <= e_dst e < n) :
  ((exists t, dijkstra wlt wadd winf wzero g src = Ok t)
   <-> 2 <= n /\ 0 <= src < n)
  /\ forall t, dijkstra wlt wadd winf wzero g src = Ok t ->
       length t = Z.to_nat n.
Proof.
  destruct (created_graph_closed n m d edges g Hg Hdst) as [Hn Hclosed].
  rewrite <- Hn. unfold dijkstra. split; [split|].
  - intros [t H]. inv_ok H. by apply dijkstra_run_needs in E.
  - intros [Hn2 Hsrc].
    destruct (dijkstra_run_ok wlt wadd winf wzero g src Hclosed Hn2 Hsrc)
      as (st & -> & _).
    by eexists.
  - intros t H. inv_ok H. injection H as <-.
    pose proof (dijkstra_run_needs wlt wadd winf wzero g src a E) as [Hn2 Hsrc].
    destruct (dijkstra_run_ok wlt wadd winf wzero g src Hclosed Hn2 Hsrc)
      as (st & Hrun & Hlen).
    rewrite Hrun in E. by injection E as <-.
Qed.

Lemma dijkstra_returns_iff_witness :
  (exists t, dijkstra_double graph4 0 = Ok t) <-> 2 <= 4 /\ 0 <= 0 < 4.
Proof.
  refine (proj1 (dijkstra_returns_iff dlt dadd INFINITY (Num 0)
                   4 4 false edges4 graph4 0 eq_refl _)).
  intros i e Hi He.
  assert (Hcase : i = 0 \/ i = 1 \/ i = 2 \/ i = 3) by lia.
  destruct Hcase as [-> | [-> | [-> | ->]]]; injection He as <-; cbn; lia.
Defined.

(** * The path that [print_path] prints *)

Lemma print_cells_reverse (path : list (option Z)) (ys : list Z) :
  forall out,
    take (length ys) path = Some <$> ys ->
    print_cells path (reverse (seqZ 0 (Z.of_nat (length ys)))) = Ok out ->
    out = reverse ys.
Proof.
  induction ys as [|y ys IH] using rev_ind; intros out Htake H.
  { cbn in H. by injection H as <-. }
  rewrite length_app in Htake, H. cbn [length] in Htake, H.
  rewrite Nat.add_1_r in Htake, H. rewrite seqZ_S, reverse_snoc in H.
  cbn in H. inv_ok H. injection H as <-. rewrite reverse_snoc.
  apply rdv_Ok in E as [_ Hy]. rewrite Z.add_0_l, Nat2Z.id in Hy.
  assert (Hy' : take (S (length ys)) path !! length ys = Some (Some y)).
  { rewrite Htake, fmap_app. rewrite lookup_app_r by (rewrite length_fmap; lia).
    by rewrite length_fmap, Nat.sub_diag. }
  rewrite lookup_take_lt in Hy' by lia. rewrite Hy in Hy'. injection Hy' as ->.
  f_equal. apply IH; [|done].
  apply (f_equal (take (length ys))) in Htake.
  rewrite take_take, fmap_app, take_app_length' in Htake by (by rewrite length_fmap).
  by replace (length ys `min` S (length ys))%nat with (length ys) in Htake by lia.
Qed.

Section PrintPathFacts.

Context {W : Type}.

Lemma trace_back_nt (v : list (vertex_s W)) (fuel : nat) :
  forall path path_length current,
    path_length <= Z.of_nat (length path) ->
    Z.of_nat (length path) - path_length < Z.of_nat fuel ->
    trace_back fuel v path path_length current <> Timeout.
Proof.
  induction fuel as [|fuel IH]; intros path len cur Hlen Hfuel; [lia|].
  cbn. apply bind_nt; [apply rd_nt|]. intros d _.
  destruct (negb (prev d =? -1)); [|done].
  apply bind_nt; [apply wr_nt|]. intros path' Hwr.
  apply wr_Ok in Hwr as [Hr ->]. apply IH; rewrite length_insert; lia.
Qed.

Lemma trace_back_chain (v : list (vertex_s W)) (fuel : nat) :
  forall path path_length current path' path_length' current',
    trace_back fuel v path path_length current = Ok (path', path_length', current') ->
    0 <= path_length ->
    exists l,
      prev_chain v current (current' :: l)
      /\ path_length' = path_length + Z.of_nat (length l)
      /\ length path' = length path
      /\ (l <> [] -> path_length' <= Z.of_nat (length path))
      /\ take (Z.to_nat path_length') path'
         = take (Z.to_nat path_length) path ++ (Some <$> reverse l).
Proof.
  induction fuel as [|fuel IH]; intros path len cur path' len' cur' H Hlen;
    cbn in H; inv_ok H; apply rd_Ok in E as [Hcur Hd];
    destruct (Z.eqb_spec (prev a) (-1)) as [Hp|Hp]; cbn in H; try done.
  - injection H as <- <- <-. exists []. split; [by apply (chain_first _ _ _ a)|].
    cbn. split; [lia|]. split; [done|]. split; [done|]. by rewrite app_nil_r.
  - injection H as <- <- <-. exists []. split; [by apply (chain_first _ _ _ a)|].
    cbn. split; [lia|]. split; [done|]. split; [done|]. by rewrite app_nil_r.
  - inv_ok H. apply wr_Ok in E as [Hr ->].
    apply IH in H as (l & Hchain & Hlen' & Hlp & Hroom & Htake); [|lia].
    rewrite length_insert in Hlp, Hroom.
    exists (l ++ [cur]). split; [|split; [|split; [|split]]].
    + by apply (chain_next _ _ _ a (cur' :: l)).
    + rewrite length_app. cbn. lia.
    + done.
    + intros _. destruct l as [|x l]; [cbn in Hlen'; lia|]. by apply Hroom.
    + rewrite Htake, reverse_snoc, fmap_cons.
      replace (Z.to_nat (len + 1)) with (S (Z.to_nat len)) by lia.
      rewrite (take_S_r _ _ (Some cur)) by (apply list_lookup_insert_eq; lia).
      rewrite take_insert_ge by lia. by rewrite <- app_assoc.
Qed.

Lemma prev_chain_last (v : list (vertex_s W)) (w : Z) (p : list Z) :
  prev_chain v w p -> last p = Some w.
Proof. destruct 1; [done | apply last_snoc]. Qed.

Lemma print_path_Some (g : GraphList.graph_s W) (v : list (vertex_s W))
    (dst : Z) (p : list Z) :
  print_path g v dst = Ok (Some p) ->
  0 <= dst < GraphList.nb_vertices g
  /\ prev_chain v dst p
  /\ Z.of_nat (length p) <= GraphList.nb_vertices g.
Proof.
  unfold print_path. intros H.
  destruct (Z.geb_spec dst (GraphList.nb_vertices g)); [done|].
  destruct (Z.ltb_spec dst 0); [done|]. cbn [orb] in H.
  apply bind_Ok in H as ([[path len] cur] & Htrace & H).
  inv_ok H. injection H as <-.
  apply trace_back_chain in Htrace as (l & Hchain & Hlen & Hlp & _ & Htake); [|lia].
  apply wr_Ok in E as [Hr ->]. rewrite Z.add_0_l in Hlen. subst len.
  rewrite length_replicate in Hlp. rewrite Hlp in Hr.
  rewrite take_0, app_nil_l in Htake.
  rewrite Nat2Z.id in Htake.
  replace (Z.of_nat (length l) + 1) with (Z.of_nat (length (reverse l ++ [cur])))
    in E0 by (rewrite length_app, length_reverse; cbn; lia).
  apply print_cells_reverse in E0.
  - subst a0. rewrite reverse_snoc, reverse_involutive.
    split; [lia|]. split; [done|]. cbn [length]. lia.
  - rewrite length_app, length_reverse. cbn [length]. rewrite Nat.add_1_r.
    rewrite Nat2Z.id.
    rewrite (take_S_r _ _ (Some cur)) by (apply list_lookup_insert_eq; lia).
    rewrite take_insert_ge by lia. by rewrite Htake, fmap_app.
Qed.

Lemma prev_chain_fun (v : list (vertex_s W)) (w : Z) (p : list Z) :
  prev_chain v w p -> forall p', prev_chain v w p' -> p = p'.
Proof.
  induction 1 as [w d Hw Hd Hp | w d p Hw Hd Hp Hchain IH]; intros p' H';
    destruct H' as [w d' Hw' Hd' Hp' | w d' p' Hw' Hd' Hp' Hchain'];
    rewrite Hd in Hd'; injection Hd' as <-; try done.
  f_equal. by apply IH.
Qed.

Lemma trace_back_ok (v : list (vertex_s W)) (w : Z) (p : list Z) :
  prev_chain v w p ->
  forall fuel path path_length,
    0 <= path_length ->
    path_length + Z.of_nat (length p) - 1 <= Z.of_nat (length path) ->
    (length p <= S fuel)%nat ->
    exists r, trace_back fuel v path path_length w = Ok r.
Proof.
  induction 1 as [w d Hw Hd Hp | w d p Hw Hd Hp Hchain IH];
    intros fuel path len Hlen Hroom Hfuel.
  - destruct fuel; cbn; rewrite (rd_lookup v w d) by done; cbn;
      rewrite Hp; cbn; by eexists.
  - rewrite length_app in Hroom, Hfuel. cbn [length] in Hroom, Hfuel.
    assert (Hpos : (1 <= length p)%nat).
    { destruct Hchain; [cbn; lia | rewrite length_app; cbn; lia]. }
    destruct fuel as [|fuel]; [lia|]. cbn.
    rewrite (rd_lookup v w d) by done. cbn.
    destruct (Z.eqb_spec (prev d) (-1)); [done|]. cbn.
    rewrite (wr_in_range path len) by lia. cbn.
    apply IH; [lia | rewrite length_insert; lia | lia].
Qed.

Lemma print_cells_ok (path : list (option Z)) (cells : list Z) :
  (forall i, i ∈ cells -> 0 <= i /\ exists x, path !! Z.to_nat i = Some (Some x)) ->
  exists out, print_cells path cells = Ok out.
Proof.
  induction cells as [|i cells IH]; intros Hall; cbn; [by eexists|].
  destruct (Hall i (list_elem_of_here _ _)) as [Hi [x Hx]].
  rewrite (rdv_lookup path i x) by done. cbn.
  destruct IH as [out ->]; [|cbn; by eexists].
  intros j Hj. apply Hall. by apply list_elem_of_further.
Qed.

Lemma print_path_ok (g : GraphList.graph_s W) (v : list (vertex_s W))
    (dst : Z) (p : list Z) :
  0 <= dst < GraphList.nb_vertices g -> prev_chain v dst p ->
  Z.of_nat (length p) <= GraphList.nb_vertices g ->
  print_path g v dst = Ok (Some p).
Proof.
  intros Hdst Hchain Hlen.
  assert (Hsome : exists out, print_path g v dst = Ok (Some out)).
  { unfold print_path.
    destruct (Z.geb_spec dst (GraphList.nb_vertices g)); [lia|].
    destruct (Z.ltb_spec dst 0); [lia|]. cbn [orb].
    destruct (trace_back_ok v dst p Hchain (S (Z.to_nat (GraphList.nb_vertices g)))
                (replicate (Z.to_nat (GraphList.nb_vertices g)) None) 0)
      as [[[path len] cur] Htrace]; [lia | rewrite length_replicate; lia | lia|].
    rewrite Htrace. cbn [mbind result_mbind result_bind].
    apply trace_back_chain in Htrace as (l & Hchain' & Hlen' & Hlp & _ & Htake);
      [|lia].
    rewrite (prev_chain_fun v dst p Hchain _ Hchain') in Hlen. cbn [length] in Hlen.
    rewrite length_replicate in Hlp. rewrite Z.add_0_l in Hlen'. subst len.
    rewrite take_0, app_nil_l, Nat2Z.id in Htake.
    rewrite (wr_in_range path) by lia. cbn [mbind result_mbind result_bind].
    destruct (print_cells_ok (<[Z.to_nat (Z.of_nat (length l)) := Some cur]> path)
                (reverse (seqZ 0 (Z.of_nat (length l) + 1)))) as [out ->];
      [|by eexists].
    intros i Hi. apply elem_of_reverse, elem_of_seqZ in Hi. split; [lia|].
    rewrite Nat2Z.id. destruct (decide (Z.to_nat i = length l)) as [->|Hne].
    - exists cur. apply list_lookup_insert_eq. lia.
    - rewrite list_lookup_insert_ne by done.
      assert (Hi' : (Z.to_nat i < length l)%nat) by lia.
      rewrite <- (lookup_take_lt path (length l)) by done. rewrite Htake.
      rewrite list_lookup_fmap.
      destruct (lookup_lt_is_Some_2 (reverse l) (Z.to_nat i)) as [x ->];
        [rewrite length_reverse; lia|].
      by exists x. }
  destruct Hsome as [out Hout]. rewrite Hout. do 2 f_equal.
  apply print_path_Some in Hout as (_ & Hchain' & _).
  by apply (prev_chain_fun v dst).
Qed.

End PrintPathFacts.

(** X8. [print_path] (Dijkstra program) prints "Invalid destination
    vertex." exactly for a destination outside of [0, nb_vertices), and
    it prints the list [p] exactly when [p] is the chain of the [prev]
    fields from a vertex without predecessor up to the destination and
    has [nb_vertices] vertices at most; a longer chain, or a chain that
    leaves the table, runs over an array. Its first loop always ends. *)
Theorem print_path_prints_prev_chain {W : Type}
    (g : GraphList.graph_s W) (v : list (vertex_s W)) (dst : Z) :
  print_path g v dst <> Timeout
  /\ (print_path g v dst = Ok None <-> ~ 0 <= dst < GraphList.nb_vertices g)
  /\ forall p, print_path g v dst = Ok (Some p) <->
       0 <= dst < GraphList.nb_vertices g /\ prev_chain v dst p
       /\ Z.of_nat (length p) <= GraphList.nb_vertices g.
Proof.
  split; [|split].
  - unfold print_path. destruct (_ || _); [done|].
    apply bind_nt.
    + apply trace_back_nt; rewrite length_replicate; lia.
    + intros [[path len] cur] _. apply bind_nt; [apply wr_nt|]. intros path' _.
      apply bind_nt; [|done]. clear. generalize (reverse (seqZ 0 (len + 1))).
      intros cells. induction cells as [|i cells IH]; cbn; [done|].
      apply bind_nt; [apply rdv_nt|]. intros x _. by apply bind_nt.
  - split.
    + unfold print_path. intros H.
      destruct (Z.geb_spec dst (GraphList.nb_vertices g)); [lia|].
      destruct (Z.ltb_spec dst 0); [lia|]. cbn [orb] in H.
      apply bind_Ok in H as ([[path len] cur] & _ & H). by inv_ok H.
    + intros Hout. unfold print_path.
      destruct (Z.geb_spec dst (GraphList.nb_vertices g)); [done|].
      destruct (Z.ltb_spec dst 0); [done | lia].
  - intros p. split; [apply print_path_Some|].
    intros (Hdst & Hchain & Hlen). by apply print_path_ok.
Qed.

Lemma linked_snoc (R : Z -> Z -> Prop) (p : list Z) (w : Z) :
  linked R p -> (forall u, last p = Some u -> R u w) -> linked R (p ++ [w]).
Proof.
  intros Hp Hlast i u x Hu Hx.
  apply lookup_snoc_Some in Hx as [[Hlt Hx] | [Hlen ->]].
  - rewrite lookup_app_l in Hu by lia. by apply (Hp i).
  - rewrite lookup_app_l in Hu by lia. apply Hlast.
    rewrite last_lookup, <- Hlen. exact Hu.
Qed.

Section DijkstraPaths.

Context {W : Type}.
Variable wlt : W -> W -> bool.
Variable wadd : W -> W -> W.
Variable winf : W.
Variable wzero : W.

Import GraphList.

(** the chain of a visited vertex starts at the source and follows edges *)
Lemma visited_chain (g : graph_s W) (src : Z) (st : dijkstra_state W)
    (w : Z) (p : list Z) :
  dijkstra_inv wadd winf wzero g src st ->
  prev_chain (dist st) w p ->
  visited_vertices st !! Z.to_nat w = Some true ->
  head p = Some src /\ linked (table_edge wadd g (dist st)) p.
Proof.
  intros [Iind _ _ Ivis _ _ _ _].
  induction 1 as [w d Hw Hd Hp | w d p Hw Hd Hp Hchain IH]; intros Hvis.
  - destruct (Ivis _ _ Hvis Hd) as [_ [-> | [Hext _]]].
    + pose proof (Iind _ _ Hd) as Hind. cbn in Hind.
      split; [cbn; f_equal; lia|]. by intros [|i] u x Hu Hx.
    + destruct Hext as (dp & c & Hprev & _). lia.
  - destruct (Ivis _ _ Hvis Hd) as [_ [-> | [Hext Hpv]]];
      [done|].
    destruct (IH Hpv) as [Hhead Hlinked].
    pose proof (Iind _ _ Hd) as Hind.
    split.
    + rewrite head_app. by rewrite Hhead.
    + apply linked_snoc; [done|]. intros u Hu.
      rewrite (prev_chain_last _ _ _ Hchain) in Hu. injection Hu as <-.
      destruct Hext as (dp & c & Hprev & Hdp & _ & Hedge & Hweight).
      exists dp, d, c. split; [done|]. split; [done|]. split; [done|].
      split; [|done]. by replace w with (ind d) by lia.
Qed.

Lemma dijkstra_chain (g : graph_s W) (src : Z) (st : dijkstra_state W)
    (w : Z) (p : list Z) :
  dijkstra_inv wadd winf wzero g src st ->
  prev_chain (dist st) w p ->
  last p = Some w
  /\ linked (table_edge wadd g (dist st)) p
  /\ (head p = Some src
      \/ (p = [w] /\ dist st !! Z.to_nat w = Some (unreached_entry winf w))).
Proof.
  intros Hinv Hchain. split; [by apply (prev_chain_last (dist st))|].
  assert (Hd : exists d, 0 <= w /\ dist st !! Z.to_nat w = Some d).
  { destruct Hchain as [w d Hw Hd _ | w d p Hw Hd _ _]; by exists d. }
  destruct Hd as (d & Hw & Hd).
  destruct (visited_vertices st !! Z.to_nat w) as [[|]|] eqn:Hvis.
  - destruct (visited_chain g src st w p Hinv Hchain Hvis) as [Hhead Hlinked].
    split; [done | by left].
  - destruct Hinv as [_ [_ Isrc] Iunv _ _ _ _ _].
    assert (Hp : prev d = -1 /\ (w = src \/ d = unreached_entry winf w)).
    { destruct (decide (w = src)) as [->|Hne].
      - rewrite Hd in Isrc. injection Isrc as ->. split; [done | by left].
      - pose proof (Iunv _ _ Hvis Hd) as Hu.
        rewrite Z2Nat.id in Hu by lia. rewrite (Hu Hne). split; [done | by right]. }
    destruct Hp as [Hp Hcase].
    assert (Hsingle : p = [w]).
    { apply (prev_chain_fun (dist st) w); [done|]. by apply (chain_first _ _ _ d). }
    subst p. split; [by intros [|i] u x Hu Hx|].
    destruct Hcase as [-> | ->]; [by left | by right].
  - apply lookup_ge_None in Hvis. apply lookup_lt_Some in Hd.
    destruct Hinv as [_ _ _ _ _ _ _ Ilen]. lia.
Qed.

Lemma prev_chain_transfer (v v' : list (vertex_s W)) (w : Z) (p : list Z) :
  prev_chain v w p ->
  (forall x, x ∈ p -> v' !! Z.to_nat x = v !! Z.to_nat x) ->
  prev_chain v' w p.
Proof.
  induction 1 as [w d Hw Hd Hp | w d p Hw Hd Hp Hchain IH]; intros Hsame.
  - apply (chain_first _ _ _ d); [done| |done].
    rewrite Hsame; [done | apply list_elem_of_here].
  - apply (chain_next _ _ _ d); [done| |done|].
    + rewrite Hsame; [done|]. apply elem_of_app. right. apply list_elem_of_here.
    + apply IH. intros x Hx. apply Hsame. apply elem_of_app. by left.
Qed.

Lemma dijkstra_step_chains (g : graph_s W) (src : Z) (st st' : dijkstra_state W) :
  dijkstra_step wlt wadd g st = Ok st' ->
  dijkstra_inv wadd winf wzero g src st ->
  chains_ready (nb_vertices g) st -> chains_ready (nb_vertices g) st'.
Proof.
  unfold dijkstra_step. intros H Hinv [Hlen Hchains]. inv_ok H.
  apply heap_remove_Ok in E0 as (_ & _ & _ & _ & Hnb & _).
  apply heap_peek_Ok in E as Hslot; [|exact Hnb].
  apply rd_Ok in E1 as [Hv Hseen].
  destruct a1; cbn in H.
  { injection H as <-. by split. }
  inv_ok H. injection H as <-.
  apply wr_Ok in E0 as [Hlen_v ->]. apply rd_Ok in E1 as [_ Hd].
  apply wr_Ok in E2 as [Hlen_d ->].
  destruct Hinv as [Iind _ _ _ Iheap _ _ _].
  pose proof (Iheap 0 a Hslot) as Hja. unfold chains_ready.
  cbn [dist visited_vertices]. split; [by rewrite length_insert|].
  assert (Hkeep : forall w p,
            prev_chain (dist st) w p ->
            (forall x, x ∈ p ->
               0 <= x /\ visited_vertices st !! Z.to_nat x = Some true) ->
            prev_chain (<[Z.to_nat (ind a) :=
                           mk_vertex (ind a2) (weight a) (prev a)]> (dist st)) w p
            /\ forall x, x ∈ p ->
                 0 <= x
                 /\ <[Z.to_nat (ind a) := true]> (visited_vertices st) !! Z.to_nat x
                    = Some true).
  { intros w p Hp Hvis. split.
    - apply (prev_chain_transfer (dist st)); [done|]. intros x Hx.
      destruct (Hvis x Hx) as [Hx0 Hxv].
      rewrite list_lookup_insert_ne; [done|]. intros Heq. rewrite Heq in Hseen.
      congruence.
    - intros x Hx. destruct (Hvis x Hx) as [Hx0 Hxv]. split; [done|].
      rewrite list_lookup_insert_ne; [done|]. intros Heq. rewrite Heq in Hseen.
      congruence. }
  intros w Hw Hvis.
  apply list_lookup_insert_Some in Hvis as [(Heq & _ & _) | (Hne & Hvis)].
  - assert (Hwa : w = ind a) by lia. subst w.
    assert (Hnew : <[Z.to_nat (ind a) := mk_vertex (ind a2) (weight a) (prev a)]>
                     (dist st) !! Z.to_nat (ind a)
                   = Some (mk_vertex (ind a2) (weight a) (prev a))).
    { apply list_lookup_insert_eq. lia. }
    assert (Hself : <[Z.to_nat (ind a) := true]> (visited_vertices st)
                      !! Z.to_nat (ind a) = Some true).
    { apply list_lookup_insert_eq. lia. }
    destruct Hja as [-> | [(dp & c & Hprev & _) Hpv]].
    + exists [src]. cbn in *. split; [by eapply chain_first|].
      split; [apply NoDup_singleton|]. intros x Hx.
      apply list_elem_of_singleton in Hx as ->. by split.
    + destruct (Hchains (prev a) Hprev Hpv) as (p & Hp & Hnd & Hpvis).
      destruct (Hkeep _ _ Hp Hpvis) as [Hp' Hpvis'].
      exists (p ++ [ind a]). split; [|split].
      * eapply chain_next; [done | exact Hnew | cbn; lia | done].
      * apply NoDup_app. split; [done|]. split; [|apply NoDup_singleton].
        intros x Hx Hxa. apply list_elem_of_singleton in Hxa as ->.
        destruct (Hpvis _ Hx) as [_ Hxv]. congruence.
      * intros x Hx. apply elem_of_app in Hx as [Hx | Hx]; [by apply Hpvis'|].
        apply list_elem_of_singleton in Hx as ->. by split.
  - destruct (Hchains w Hw Hvis) as (p & Hp & Hnd & Hpvis).
    destruct (Hkeep _ _ Hp Hpvis) as [Hp' Hpvis'].
    by exists p.
Qed.

Lemma dijkstra_loop_chains (g : graph_s W) (src : Z) (fuel : nat) :
  forall st st',
    dijkstra_loop wlt wadd fuel g st = Ok st' ->
    dijkstra_inv wadd winf wzero g src st ->
    chains_ready (nb_vertices g) st -> chains_ready (nb_vertices g) st'.
Proof.
  induction fuel as [|fuel IH]; intros st st' H Hinv Hc; cbn in H;
    destruct (heap_empty (q st)); try discriminate; try (by injection H as <-).
  inv_ok H. apply (IH a st' H).
  - by apply (dijkstra_step_inv wlt wadd winf wzero g src st).
  - by apply (dijkstra_step_chains g src st).
Qed.

Lemma dijkstra_run_chains (g : graph_s W) (src : Z) (st : dijkstra_state W) :
  dijkstra_run wlt wadd winf wzero g src = Ok st ->
  dijkstra_inv wadd winf wzero g src st /\ chains_ready (nb_vertices g) st.
Proof.
  intros H. split; [by apply (dijkstra_run_inv wlt)|].
  destruct (dijkstra_run_needs wlt wadd winf wzero g src st H) as [Hn Hsrc].
  destruct (dijkstra_run_start wlt wadd winf wzero g src Hsrc)
    as (q0 & Hq0 & _ & Hnb0 & _ & _ & Hrun).
  rewrite Hrun in H. apply bind_Ok in H as (q1 & Hadd & Hloop).
  assert (Hlen0 : length ((fun i => mk_vertex (W := W) i winf (-1))
                            <$> seqZ 0 (nb_vertices g))
                  = Z.to_nat (nb_vertices g)).
  { rewrite length_fmap, length_seqZ. lia. }
  apply (dijkstra_loop_chains g src _ _ _ Hloop).
  - apply heap_add_Ok in Hadd as (_ & _ & _ & Hnb & Hlive).
    split; cbn.
    + intros w d Hw.
      apply list_lookup_insert_Some in Hw as [(<- & <- & _) | (_ & Hw)]; [cbn; lia|].
      by apply (init_dist_lookup winf) in Hw as ->.
    + split; [lia|]. apply list_lookup_insert_eq. lia.
    + intros w d _ Hw Hne.
      apply list_lookup_insert_Some in Hw as [(<- & _ & _) | (_ & Hw)]; [lia|].
      by apply (init_dist_lookup winf) in Hw.
    + intros w d Hw _. by apply lookup_replicate in Hw as [[=] _].
    + apply Hlive; [by left | by apply live_all_empty].
    + intros _. apply Hlive; [done | by apply live_all_empty].
    + lia.
    + by rewrite length_insert, length_replicate.
  - split; cbn.
    + by rewrite length_insert.
    + intros w _ Hw. by apply lookup_replicate in Hw as [[=] _].
Qed.

Lemma dijkstra_has_chain (g : graph_s W) (src dst : Z) (st : dijkstra_state W) :
  dijkstra_inv wadd winf wzero g src st -> chains_ready (nb_vertices g) st ->
  0 <= dst < nb_vertices g ->
  exists p, prev_chain (dist st) dst p /\ NoDup p
    /\ Z.of_nat (length p) <= nb_vertices g.
Proof.
  intros Hinv [Hlen Hchains] Hdst.
  destruct (lookup_lt_is_Some_2 (dist st) (Z.to_nat dst) ltac:(lia)) as [d Hd].
  destruct (visited_vertices st !! Z.to_nat dst) as [[|]|] eqn:Hvis.
  - destruct (Hchains dst ltac:(lia) Hvis) as (p & Hp & Hnd & Hpvis).
    exists p. split; [done|]. split; [done|].
    assert (Hsub : p ⊆+ seqZ 0 (nb_vertices g)).
    { apply NoDup_submseteq; [done|]. intros x Hx.
      destruct (Hpvis x Hx) as [Hx0 Hxv]. apply lookup_lt_Some in Hxv.
      destruct Hinv as [_ _ _ _ _ _ _ Ilen]. apply elem_of_seqZ. lia. }
    apply submseteq_length in Hsub. rewrite length_seqZ in Hsub. lia.
  - destruct Hinv as [_ [_ Isrc] Iunv _ _ _ _ _].
    assert (Hp : prev d = -1).
    { destruct (decide (dst = src)) as [->|Hne].
      - rewrite Hd in Isrc. by injection Isrc as ->.
      - pose proof (Iunv _ _ Hvis Hd) as Hu.
        rewrite Z2Nat.id in Hu by lia. by rewrite (Hu Hne). }
    exists [dst]. split; [by apply (chain_first _ _ _ d); [lia|..]|].
    split; [apply NoDup_singleton|]. cbn. lia.
  - apply lookup_ge_None in Hvis. destruct Hinv as [_ _ _ _ _ _ _ Ilen]. lia.
Qed.

End DijkstraPaths.

(** X9. For every destination within [0, nb_vertices), [print_path]
    prints a path for the table of [dijkstra], without running over its
    array: the vertices it prints are pairwise distinct, the last one is
    the destination, each one is recorded as the predecessor of the
    next, an edge of the graph joins them, and the distance of the table
    grows by the weight of that edge; the first one is the source,
    unless the destination was never reached, in which case the
    destination is printed alone. *)
Theorem dijkstra_print_path_is_path {W : Type}
    (wlt : W -> W -> bool) (wadd : W -> W -> W) (winf wzero : W)
    (g : GraphList.graph_s W) (src dst : Z) (t : list (vertex_s W))
    (Ht : dijkstra wlt wadd winf wzero g src = Ok t)
    (Hdst : 0 <= dst < GraphList.nb_vertices g) :
  exists p,
    print_path g t dst = Ok (Some p)
    /\ NoDup p
    /\ last p = Some dst
    /\ linked (table_edge wadd g t) p
    /\ (head p = Some src
        \/ (p = [dst] /\ t !! Z.to_nat dst = Some (unreached_entry winf dst))).
Proof.
  unfold dijkstra in Ht. inv_ok Ht. injection Ht as <-.
  apply dijkstra_run_chains in E as [Hinv Hchains].
  destruct (dijkstra_has_chain wadd winf wzero g src dst a Hinv Hchains Hdst)
    as (p & Hp & Hnd & Hlen).
  exists p. split; [by apply print_path_ok|]. split; [done|].
  by apply (dijkstra_chain wadd winf wzero g src a dst p).
Qed.

Lemma dijkstra_print_path_is_path_witness :
  exists p,
    print_path graph4 table4 3 = Ok (Some p)
    /\ NoDup p
    /\ last p = Some 3
    /\ linked (table_edge dadd graph4 table4) p
    /\ (head p = Some 0
        \/ (p = [3] /\ table4 !! Z.to_nat 3 = Some (unreached_entry INFINITY 3))).
Proof.
  apply (dijkstra_print_path_is_path dlt dadd INFINITY (Num 0) graph4 0 3 table4).
  - vm_compute. reflexivity.
  - cbn. lia.
Defined.

(** * The table of [bellman_ford] when no negative cycle is flagged *)



(** * The adjacency matrix that [create_graph] builds *)

Lemma aget_lookup {A} `{Inhabited A} (l : list A) (i : Z) (x : A) :
  l !! Z.to_nat i = Some x -> aget l i = x.
Proof. intros Hx. unfold aget. by rewrite list_lookup_total_alt, Hx. Qed.

Lemma aget_elem_of {A} `{Inhabited A} (l : list A) (i : Z) :
  0 <= i < Z.of_nat (length l) -> aget l i ∈ l.
Proof.
  intros Hi. destruct (lookup_lt_is_Some_2 l (Z.to_nat i) ltac:(lia)) as [x Hx].
  rewrite (aget_lookup l i x Hx). by apply list_elem_of_lookup_2 in Hx.
Qed.

Lemma square_aset2 {A} `{Inhabited A} (n : Z) (m : list (list A)) (i j : Z) (x : A) :
  square n m -> 0 <= i < n -> square n (aset2 m i j x).
Proof.
  intros [Hlen Hrows] Hi. unfold aset2, aset. split; [by rewrite length_insert|].
  intros row Hrow. apply list_elem_of_lookup_1 in Hrow as [k Hk].
  apply list_lookup_insert_Some in Hk as [(_ & <- & _) | (_ & Hk)].
  - rewrite length_insert. apply Hrows, aget_elem_of. lia.
  - apply Hrows. by apply list_elem_of_lookup_2 in Hk.
Qed.

Lemma aget2_aset2_eq {A} `{Inhabited A} (n : Z) (m : list (list A)) (i j : Z) (x : A) :
  square n m -> 0 <= i < n -> 0 <= j < n -> aget2 (aset2 m i j x) i j = x.
Proof.
  intros [Hlen Hrows] Hi Hj. unfold aget2, aset2.
  rewrite aget_aset_eq by lia. apply aget_aset_eq.
  rewrite (Hrows (aget m i)); [lia|]. apply aget_elem_of. lia.
Qed.

Lemma aget2_aset2_ne {A} `{Inhabited A} (m : list (list A)) (i j i' j' : Z) (x : A) :
  0 <= i -> 0 <= j -> 0 <= i' -> 0 <= j' -> i < Z.of_nat (length m) ->
  (i, j) <> (i', j') -> aget2 (aset2 m i j x) i' j' = aget2 m i' j'.
Proof.
  intros Hi Hj Hi' Hj' Hlen Hne. unfold aget2, aset2.
  destruct (decide (i = i')) as [<-|Hii].
  - rewrite aget_aset_eq by lia. apply aget_aset_ne; [lia | lia | congruence].
  - by rewrite aget_aset_ne by lia.
Qed.

Lemma joins_dec {W} (d : bool) (e : edge_s W) (u w : Z) :
  joins d e u w \/ ~ joins d e u w.
Proof.
  unfold joins.
  destruct (decide ((e_src e = u /\ e_dst e = w)
                    \/ (d = false /\ e_src e = w /\ e_dst e = u))); auto.
Qed.

Lemma add_edge_cell (n : Z) (d : bool) (m m' : list (list double)) (e : edge_s double) :
  square n m -> GraphMatrix.add_edge n d m e = Ok m' ->
  (0 <= e_src e < n /\ 0 <= e_dst e < n)
  /\ square n m'
  /\ forall u w, 0 <= u < n -> 0 <= w < n ->
       (joins d e u w -> aget2 m' u w = e_weight e)
       /\ (~ joins d e u w -> aget2 m' u w = aget2 m u w).
Proof.
  intros Hsq H. unfold GraphMatrix.add_edge, GraphMatrix.in_range in H.
  destruct (Z.leb_spec 0 (e_src e)), (Z.ltb_spec (e_src e) n),
    (Z.leb_spec 0 (e_dst e)), (Z.ltb_spec (e_dst e) n); cbn in H; try done.
  injection H as <-. split; [lia|].
  pose proof (square_aset2 n m (e_src e) (e_dst e) (e_weight e) Hsq ltac:(lia)) as Hsq1.
  pose proof Hsq as [Hlen _]. pose proof Hsq1 as [Hlen1 _].
  destruct d; cbn.
  - split; [done|]. intros u w Hu Hw. split.
    + intros [[<- <-] | (Hf & _)]; [|done]. by apply (aget2_aset2_eq n).
    + intros Hno. apply aget2_aset2_ne; try lia.
      intros [= <- <-]. apply Hno. by left.
  - split; [by apply square_aset2; [|lia]|]. intros u w Hu Hw. split.
    + intros Hj. destruct (decide ((e_dst e, e_src e) = (u, w))) as [[= <- <-]|Hne].
      * by apply (aget2_aset2_eq n).
      * rewrite aget2_aset2_ne by (lia || done).
        destruct Hj as [[<- <-] | (_ & <- & <-)]; [|done].
        by apply (aget2_aset2_eq n).
    + intros Hno. rewrite !aget2_aset2_ne; try lia; try done.
      * intros [= <- <-]. apply Hno. by left.
      * intros [= <- <-]. apply Hno. by right.
Qed.

Lemma add_edge_in_range (n : Z) (d : bool) (m : list (list double)) (e : edge_s double) :
  0 <= e_src e < n -> 0 <= e_dst e < n ->
  exists m', GraphMatrix.add_edge n d m e = Ok m'.
Proof.
  intros Hs Hd. unfold GraphMatrix.add_edge, GraphMatrix.in_range.
  destruct (Z.leb_spec 0 (e_src e)), (Z.ltb_spec (e_src e) n),
    (Z.leb_spec 0 (e_dst e)), (Z.ltb_spec (e_dst e) n); try lia.
  cbn. by eexists.
Qed.

Lemma add_edges_cells (n : Z) (d : bool) (edges : list (edge_s double)) (len : nat) :
  forall lo (m0 m : list (list double)),
    0 <= lo -> square n m0 ->
    GraphMatrix.add_edges n d m0 edges (seqZ lo (Z.of_nat len)) = Ok m ->
    square n m
    /\ (forall i, lo <= i < lo + Z.of_nat len ->
          exists e, edges !! Z.to_nat i = Some e
            /\ 0 <= e_src e < n /\ 0 <= e_dst e < n)
    /\ forall u w, 0 <= u < n -> 0 <= w < n ->
         cell_of d edges lo (lo + Z.of_nat len) m0 u w (aget2 m u w).
Proof.
  induction len as [|len IH]; intros lo m0 m Hlo Hsq H.
  { cbn in H. injection H as <-. split; [done|]. split; [intros i Hi; lia|].
    intros u w _ _. right. split; [intros i e Hi; lia | done]. }
  rewrite seqZ_cons in H by lia. cbn [GraphMatrix.add_edges] in H. inv_ok H.
  apply rd_Ok in E as [_ He].
  apply (add_edge_cell n d m0 a0 a Hsq) in E0 as (Hrange & Hsq1 & Hcell1).
  replace (Z.pred (Z.of_nat (S len))) with (Z.of_nat len) in H by lia.
  apply IH in H as (Hsq' & Hrest & Hcells); [|lia|done].
  split; [done|]. split.
  - intros i Hi. destruct (decide (i = lo)) as [->|Hne]; [by exists a|].
    apply Hrest. lia.
  - intros u w Hu Hw.
    destruct (Hcell1 u w Hu Hw) as [Hyes Hno].
    destruct (Hcells u w Hu Hw)
      as [(i & e & Hi & Hei & Hj & Hlast & Hx) | [Hnone Hx]].
    + left. exists i, e. split; [lia|]. split; [done|]. split; [done|].
      split; [|done]. intros j e' Hji. apply Hlast. lia.
    + destruct (joins_dec d a u w) as [Hj | Hj].
      * left. exists lo, a. split; [lia|]. split; [done|]. split; [done|].
        split; [|by rewrite Hx, Hyes]. intros j e' Hji. apply Hnone. lia.
      * right. split; [|by rewrite Hx, Hno].
        intros i e Hi Hei. destruct (decide (i = lo)) as [->|Hne].
        -- rewrite He in Hei. by injection Hei as <-.
        -- apply (Hnone i e); [lia | done].
Qed.

Lemma add_edges_in_range (n : Z) (d : bool) (edges : list (edge_s double)) (len : nat) :
  forall lo (m0 : list (list double)),
    0 <= lo ->
    (forall i, lo <= i < lo + Z.of_nat len ->
       exists e, edges !! Z.to_nat i = Some e
         /\ 0 <= e_src e < n /\ 0 <= e_dst e < n) ->
    exists m, GraphMatrix.add_edges n d m0 edges (seqZ lo (Z.of_nat len)) = Ok m.
Proof.
  induction len as [|len IH]; intros lo m0 Hlo Hall; [by eexists|].
  rewrite seqZ_cons by lia. cbn [GraphMatrix.add_edges].
  destruct (Hall lo ltac:(lia)) as (e & He & Hs & Hd).
  rewrite (rd_lookup edges lo e) by (lia || done). cbn.
  destruct (add_edge_in_range n d m0 e Hs Hd) as [m1 ->]. cbn.
  replace (Z.pred (Z.of_nat (S len))) with (Z.of_nat len) by lia.
  apply IH; [lia|]. intros i Hi. apply Hall. lia.
Qed.

Lemma square_init_matrix (n : Z) : square n (GraphMatrix.init_matrix n).
Proof.
  unfold GraphMatrix.init_matrix. split.
  - rewrite length_fmap, length_seqZ. lia.
  - intros row Hrow. apply list_elem_of_fmap in Hrow as (i & -> & _).
    rewrite length_fmap, length_seqZ. lia.
Qed.

Lemma aget2_init_matrix (n u w : Z) :
  0 <= u < n -> 0 <= w < n ->
  aget2 (GraphMatrix.init_matrix n) u w = if u =? w then Num 0 else INFINITY.
Proof.
  intros Hu Hw. unfold aget2, GraphMatrix.init_matrix.
  rewrite (aget_lookup _ u
             ((fun j => if u =? j then Num 0 else INFINITY) <$> seqZ 0 n)).
  - apply aget_lookup. rewrite list_lookup_fmap, lookup_seqZ_lt by lia. cbn.
    by replace (0 + Z.of_nat (Z.to_nat w)) with w by lia.
  - rewrite list_lookup_fmap, lookup_seqZ_lt by lia. cbn.
    by replace (0 + Z.of_nat (Z.to_nat u)) with u by lia.
Qed.


(** * The matrices of [floyd_warshall] *)

Lemma walk_app (n : Z) (adj : list (list double)) (u v w : Z) (c1 c2 : Z) :
  walk n adj u v c1 -> walk n adj v w c2 -> walk n adj u w (c1 + c2).
Proof.
  intros H1 H2. induction H2 as [|x w c a _ IH Hx Hw Ha].
  - by rewrite Z.add_0_r.
  - rewrite Z.add_assoc. by apply (walk_step _ _ _ x).
Qed.

Lemma aget2_fmap_seqZ {A} `{Inhabited A} (n : Z) (f : Z -> Z -> A) (v w : Z) :
  0 <= v < n -> 0 <= w < n ->
  aget2 ((fun i => (fun j => f i j) <$> seqZ 0 n) <$> seqZ 0 n) v w = f v w.
Proof.
  intros Hv Hw. unfold aget2.
  rewrite (aget_lookup _ v ((fun j => f v j) <$> seqZ 0 n)).
  - apply aget_lookup. rewrite list_lookup_fmap, lookup_seqZ_lt by lia. cbn.
    by replace (0 + Z.of_nat (Z.to_nat w)) with w by lia.
  - rewrite list_lookup_fmap, lookup_seqZ_lt by lia. cbn.
    by replace (0 + Z.of_nat (Z.to_nat v)) with v by lia.
Qed.

Lemma square_fmap_seqZ {A} (n : Z) (f : Z -> Z -> A) :
  square n ((fun i => (fun j => f i j) <$> seqZ 0 n) <$> seqZ 0 n).
Proof.
  split.
  - rewrite length_fmap, length_seqZ. lia.
  - intros row Hrow. apply list_elem_of_fmap in Hrow as (i & -> & _).
    rewrite length_fmap, length_seqZ. lia.
Qed.

Section FloydWarshallFacts.

Import FloydWarshall.

Variable n : Z.
Variable adj : list (list double).

Lemma fw_init_inv : fw_inv n adj (init n adj).
Proof.
  unfold fw_inv, init. cbn [fst snd].
  split; [apply square_fmap_seqZ|]. split; [apply square_fmap_seqZ|].
  intros v w Hv Hw.
  rewrite (aget2_fmap_seqZ n (fun v w => aget2 adj v w)) by lia.
  rewrite (aget2_fmap_seqZ n
             (fun v w => if is_finite (aget2 adj v w) then v else -1)) by lia.
  destruct (aget2 adj v w) as [a|] eqn:Ha; cbn [is_finite].
  - split; [|split; [|split]].
    + intros z [= <-]. apply (walk_step n adj v v w 0 a); [apply walk_here|lia|lia|done].
    + split; [lia | done].
    + intros _. split; [lia|]. by rewrite Ha.
    + cbn. lia.
  - split; [done|]. split; [done|]. split; [done | reflexivity].
Qed.

Lemma fw_relax_via_inv (k v w : Z) (st : list (list double) * list (list Z)) :
  0 <= k < n -> 0 <= v < n -> 0 <= w < n ->
  fw_inv n adj st -> fw_inv n adj (relax_via k v w st).
Proof.
  intros Hk Hv Hw Hinv. destruct st as [dist parent].
  destruct Hinv as (Hsd & Hsp & Hcells). cbn [fst snd] in *.
  unfold relax_via.
  destruct (dlt (dadd (aget2 dist v k) (aget2 dist k w)) (aget2 dist v w)) eqn:Hlt;
    [|exact (conj Hsd (conj Hsp Hcells))].
  destruct (aget2 dist v k) as [z1|] eqn:H1; [|done].
  destruct (aget2 dist k w) as [z2|] eqn:H2; [|done]. cbn [dadd] in *.
  destruct (Hcells v k Hv Hk) as (Hwalk1 & _).
  destruct (Hcells k w Hk Hw) as (Hwalk2 & Hpar2 & Hedge2 & _).
  destruct (Hcells v w Hv Hw) as (_ & _ & _ & Hle).
  assert (Hp2 : aget2 parent k w <> -1).
  { intros Hp. apply Hpar2 in Hp. congruence. }
  pose proof Hsd as [Hld _]. pose proof Hsp as [Hlp _].
  unfold fw_inv. cbn [fst snd].
  split; [by apply square_aset2|]. split; [by apply square_aset2|].
  intros v' w' Hv' Hw'.
  destruct (decide ((v, w) = (v', w'))) as [[= <- <-]|Hne].
  - rewrite (aget2_aset2_eq n) by done. rewrite (aget2_aset2_eq n) by done.
    split; [|split; [|split]].
    + intros z [= <-]. apply (walk_app n adj v k w); auto.
    + split; [done | done].
    + intros _. by apply Hedge2.
    + destruct (aget2 adj v w) as [a|]; [|done].
      destruct (aget2 dist v w) as [z|]; cbn in *; lia.
  - rewrite !aget2_aset2_ne by (lia || done). by apply Hcells.
Qed.

Lemma fw_triple_loop_inv : fw_inv n adj (triple_loop n (init n adj)).
Proof.
  unfold triple_loop.
  apply for_loop_invariant; [apply fw_init_inv|]. intros k st1 Hk Hst1.
  apply for_loop_invariant; [exact Hst1|]. intros v st2 Hv Hst2.
  apply for_loop_invariant; [exact Hst2|]. intros w st3 Hw Hst3.
  by apply fw_relax_via_inv.
Qed.

End FloydWarshallFacts.



(** * The run of [dijkstra_markov] *)

Section MarkovRuns.

Context {W : Type}.
Variables (wlt wgt : W -> W -> bool) (wmul : W -> W -> W).
Variables (wneg wexp wlog : W -> W) (wzero wone : W).

Import GraphList.

Lemma relax_markov_ready (n : Z) (v : vertex_s W) (dist : list (vertex_s W))
    (adj : list (vertex_s W)) :
  forall h,
    heap_ready n 1 h -> length dist = Z.to_nat n ->
    (forall a, a ∈ adj -> 0 <= ind a < n) ->
    exists h', relax_markov W wlt wgt wmul wneg wlog v dist adj h = Ok h'
      /\ heap_ready n 1 h'
      /\ nb_elements h <= nb_elements h' <= nb_elements h + Z.of_nat (length adj).
Proof.
  induction adj as [|a adj IH]; intros h Hh Hlen Hadj; cbn.
  { exists h. split; [done|]. split; [done | lia]. }
  pose proof (Hadj a (list_elem_of_here _ _)) as Ha.
  destruct (lookup_lt_is_Some_2 dist (Z.to_nat (ind a)) ltac:(lia)) as [d Hd].
  rewrite (rd_lookup dist (ind a) d) by (lia || done). cbn.
  assert (Hq : exists h1,
            (if wgt (wmul (weight v) (weight a)) (weight d)
             then heap_add wlt
                    (mk_vertex (ind a) (wneg (wlog (wmul (weight v) (weight a)))) (ind v)) h
             else Ok h) = Ok h1 /\ heap_ready n 1 h1
            /\ nb_elements h <= nb_elements h1 <= nb_elements h + 1).
  { destruct (wgt _ _); [|exists h; split; [done|]; split; [done | lia]].
    destruct (heap_add_ready wlt n
                (mk_vertex (ind a) (wneg (wlog (wmul (weight v) (weight a)))) (ind v))
                h Hh Ha) as (h1 & Hadd & Hh1).
    exists h1. split; [done|]. split; [done|].
    apply heap_add_Ok in Hadd as (_ & _ & _ & Hnb & _). lia. }
  destruct Hq as (h1 & -> & Hh1 & Hnb1). cbn.
  destruct (IH h1 Hh1 Hlen) as (h' & -> & Hh' & Hnb').
  { intros b Hb. apply Hadj. by apply list_elem_of_further. }
  exists h'. split; [done|]. split; [done|]. cbn [length]. lia.
Qed.

Lemma markov_step_ready (g : graph_s W) (src : Z) (st : dijkstra_state W) :
  graph_closed g -> 0 <= src < nb_vertices g ->
  markov_ready wneg wexp wone (nb_vertices g) src st ->
  heap_empty (q st) = false ->
  exists st', markov_step W wlt wgt wmul wneg wexp wlog g st = Ok st'
    /\ markov_ready wneg wexp wone (nb_vertices g) src st'
    /\ visited_vertices st' !! Z.to_nat src = Some true
    /\ (Z.to_nat (nb_elements (q st')) + pending g 0 (visited_vertices st')
        < Z.to_nat (nb_elements (q st)) + pending g 0 (visited_vertices st))%nat.
Proof.
  intros [Hadjlen Hclosed] Hsrc
    (((Hwf & Hmax & Hcount) & Hlv & Hld) & Hind & Hfirst & Hdone) Hne.
  unfold heap_empty in Hne. apply Z.eqb_neq in Hne.
  pose proof Hwf as [(_ & _ & Hnb & Hslots & _) Hlt].
  destruct (heap_remove_ok wlt (q st) Hwf ltac:(lia))
    as (r & h1 & Hpeek & Hrem & Hwf1 & Hnb1 & Hmax1 & _).
  pose proof (heap_peek_Ok _ _ Hpeek ltac:(lia)) as Hslot.
  assert (Hr : 0 <= ind r < nb_vertices g).
  { destruct (Hslots 0 ltac:(lia)) as (r' & Hr' & Hrange & _).
    destruct Hslot as [_ Hr0]. rewrite Hr0 in Hr'. injection Hr' as <-. lia. }
  assert (Hh1 : heap_ready (nb_vertices g) 1 h1).
  { split; [done|]. split; [congruence|].
    pose proof (heap_wf_inds_length _ Hwf) as Hli.
    pose proof (heap_wf_inds_length _ Hwf1) as Hli1.
    assert (Hc : (index_count (inds (q st)) <= index_count (inds h1))%nat); [|lia].
    apply index_count_mono; [lia|]. intros x t Hx Ht.
    apply (heap_remove_indexed wlt (q st) h1 x Hrem). by exists t. }
  assert (Hweaken : forall h : heap_s W, heap_ready (nb_vertices g) 1 h ->
            heap_ready (nb_vertices g) 0 h).
  { intros h (? & ? & ?). split; [done|]. split; [done | lia]. }
  assert (Hsrc_vis : forall b, visited_vertices st !! Z.to_nat (ind r) = Some b ->
            (b = true \/ ind r <> src) ->
            visited_vertices st !! Z.to_nat src = Some true).
  { intros b Hb Hcase.
    destruct (visited_vertices st !! Z.to_nat src) as [[|]|] eqn:Hs; [done| |].
    - destruct (Hfirst eq_refl) as [_ Hlive]. pose proof (Hlive 0 r Hslot) as ->.
      cbn in Hb, Hcase. destruct Hcase as [-> | Hcase]; [congruence | done].
    - apply lookup_ge_None in Hs. lia. }
  unfold markov_step. rewrite Hpeek, Hrem.
  cbn [mbind result_mbind result_bind ind prev weight].
  destruct (lookup_lt_is_Some_2 (visited_vertices st) (Z.to_nat (ind r)) ltac:(lia))
    as [seen Hseen].
  rewrite (rd_lookup (visited_vertices st) (ind r) seen) by (lia || done).
  cbn [mbind result_mbind result_bind].
  destruct seen; cbn [negb].
  { eexists. split; [reflexivity|].
    pose proof (Hsrc_vis true Hseen ltac:(by left)) as Hs.
    split; [|split; [done | cbn [q visited_vertices]; lia]].
    split; [|split; [|split]]; cbn [q visited_vertices dist].
    - split; [by apply Hweaken | by split].
    - done.
    - intros Hf. congruence.
    - done. }
  rewrite (wr_in_range (visited_vertices st) (ind r)) by lia.
  cbn [mbind result_mbind result_bind].
  destruct (lookup_lt_is_Some_2 (dist st) (Z.to_nat (ind r)) ltac:(lia)) as [d Hd].
  rewrite (rd_lookup (dist st) (ind r) d) by (lia || done).
  cbn [mbind result_mbind result_bind].
  rewrite (wr_in_range (dist st) (ind r)) by lia.
  cbn [mbind result_mbind result_bind].
  assert (Hget : get_adj_list g (ind r) = Ok (adj_of g (ind r))
                 /\ forall a, a ∈ adj_of g (ind r) -> 0 <= ind a < nb_vertices g).
  { unfold adj_of, get_adj_list. destruct (Z.geb_spec (ind r) (nb_vertices g)); [lia|].
    destruct (lookup_lt_is_Some_2 (adj_lists g) (Z.to_nat (ind r)) ltac:(lia))
      as [adj Hadj].
    rewrite (rd_lookup (adj_lists g) (ind r) adj) by (lia || done).
    split; [done|]. intros a Ha. apply (Hclosed (Z.to_nat (ind r))). by exists adj. }
  destruct Hget as [-> Hadj]. cbn [mbind result_mbind result_bind].
  pose proof (Hind _ _ Hd) as Hdr. rewrite Z2Nat.id in Hdr by lia.
  set (dist' := <[Z.to_nat (ind r) := _]> (dist st)).
  destruct (relax_markov_ready (nb_vertices g)
              (mk_vertex (ind r) (wexp (wneg (weight r))) (prev r))
              dist' (adj_of g (ind r)) h1 Hh1) as (h2 & -> & Hh2 & Hnb2).
  { unfold dist'. by rewrite length_insert. }
  { done. }
  cbn [mbind result_mbind result_bind]. eexists. split; [reflexivity|].
  assert (Hvis' : <[Z.to_nat (ind r) := true]> (visited_vertices st) !! Z.to_nat src
                  = Some true).
  { destruct (decide (ind r = src)) as [<-|Hrs]; [apply list_lookup_insert_eq; lia|].
    rewrite list_lookup_insert_ne by lia.
    apply (Hsrc_vis false Hseen). by right. }
  split; [|split; [done|]].
  - split; [|split; [|split]]; cbn [q visited_vertices dist].
    + split; [by apply Hweaken|]. cbn [visited_vertices dist].
      split; [by rewrite length_insert | unfold dist'; by rewrite length_insert].
    + intros w e He. unfold dist' in He.
      apply list_lookup_insert_Some in He as [(<- & <- & _) | (_ & He)];
        [cbn; lia | by apply Hind].
    + intros Hf. congruence.
    + intros _. unfold dist'.
      destruct (decide (ind r = src)) as [Hrs|Hrs].
      * rewrite Hrs in *. rewrite list_lookup_insert_eq by lia. f_equal.
        destruct (Hfirst Hseen) as [_ Hlive]. rewrite (Hlive 0 r Hslot).
        unfold markov_source. cbn. f_equal. exact Hdr.
      * rewrite list_lookup_insert_ne by lia. apply Hdone.
        apply (Hsrc_vis false Hseen). by right.
  - cbn [q visited_vertices].
    pose proof (pending_visit g _ 0 _ Hseen) as Hp.
    rewrite Z.add_0_l, Z2Nat.id in Hp by lia. lia.
Qed.

Lemma markov_loop_ready (g : graph_s W) (src : Z) (fuel : nat) :
  forall st,
    graph_closed g -> 0 <= src < nb_vertices g ->
    markov_ready wneg wexp wone (nb_vertices g) src st ->
    (Z.to_nat (nb_elements (q st)) + pending g 0 (visited_vertices st) <= fuel)%nat ->
    exists st', markov_loop W wlt wgt wmul wneg wexp wlog fuel g st = Ok st'
      /\ markov_ready wneg wexp wone (nb_vertices g) src st'
      /\ heap_empty (q st') = true.
Proof.
  induction fuel as [|fuel IH]; intros st Hg Hsrc Hst Hm.
  - cbn. destruct (heap_empty (q st)) eqn:He; [by exists st|].
    unfold heap_empty in He. apply Z.eqb_neq in He.
    destruct Hst as ((([(_ & _ & Hnb & _) _] & _) & _) & _). lia.
  - cbn. destruct (heap_empty (q st)) eqn:He; [by exists st|].
    destruct (markov_step_ready g src st Hg Hsrc Hst He)
      as (st1 & -> & Hst1 & _ & Hm1).
    cbn [mbind result_mbind result_bind]. apply IH; [done | done | done | lia].
Qed.

(** the run of [dijkstra_markov] up to its main loop *)
Lemma markov_run_start (g : graph_s W) (src : Z) :
  0 <= src < nb_vertices g ->
  exists q0 : heap_s W,
    heap_wf q0 /\ nb_elements q0 = 0 /\ max_elements q0 = nb_vertices g
    /\ (forall x s, inds q0 !! x = Some s -> s = -1)
    /\ markov_run W wlt wgt wmul wneg wexp wlog wzero wone g src
       = (q1 ← heap_add wlt (markov_pushed wone src) q0;
          markov_loop W wlt wgt wmul wneg wexp wlog (dijkstra_fuel g) g
            (mk_state (replicate (Z.to_nat (nb_vertices g)) false)
               (<[Z.to_nat src := markov_pushed wone src]>
                  ((fun i => mk_vertex i wzero (-1)) <$> seqZ 0 (nb_vertices g)))
               q1)).
Proof.
  intros Hsrc.
  destruct (heap_create_wf (W := W) (nb_vertices g) ltac:(lia))
    as (q0 & Hq0 & Hwf0 & Hnb0 & Hmax0 & _ & Hinds0).
  exists q0. split; [done|]. split; [done|]. split; [done|]. split; [done|].
  unfold markov_run.
  destruct (Z.leb_spec 0 (nb_vertices g)); [|lia]. cbn. rewrite Hq0. cbn.
  set (dist0 := (fun i => mk_vertex i wzero (-1)) <$> seqZ 0 (nb_vertices g)).
  rewrite (rd_lookup dist0 src (mk_vertex src wzero (-1)))
    by (lia || by apply init_dist_at). cbn.
  rewrite (wr_in_range dist0 src)
    by (unfold dist0; rewrite length_fmap, length_seqZ; lia). cbn.
  rewrite (rd_lookup _ src (mk_vertex src wone (-1))).
  - reflexivity.
  - lia.
  - apply list_lookup_insert_eq. unfold dist0. rewrite length_fmap, length_seqZ. lia.
Qed.

Lemma markov_run_ok (g : graph_s W) (src : Z) :
  graph_closed g -> 2 <= nb_vertices g -> 0 <= src < nb_vertices g ->
  exists st, markov_run W wlt wgt wmul wneg wexp wlog wzero wone g src = Ok st
    /\ length (dist st) = Z.to_nat (nb_vertices g)
    /\ dist st !! Z.to_nat src = Some (markov_source wneg wexp wone src).
Proof.
  intros Hg Hn Hsrc.
  destruct (markov_run_start g src Hsrc) as (q0 & Hwf0 & Hnb0 & Hmax0 & Hinds0 & ->).
  pose proof (heap_wf_inds_length q0 Hwf0) as Hli0.
  destruct (lookup_lt_is_Some_2 (inds q0) (Z.to_nat src) ltac:(lia)) as [s Hs].
  pose proof (Hinds0 _ _ Hs) as ->.
  destruct (heap_add_fresh_ok wlt (markov_pushed wone src) q0 Hwf0)
    as (q1 & Hadd & Hwf1 & Hnb1 & Hmax1 & _); [cbn; lia | done | lia|].
  rewrite Hadd. cbn [mbind result_mbind result_bind].
  destruct (markov_loop_ready g src (dijkstra_fuel g)
              (mk_state (replicate (Z.to_nat (nb_vertices g)) false)
                 (<[Z.to_nat src := markov_pushed wone src]>
                    ((fun i => mk_vertex i wzero (-1)) <$> seqZ 0 (nb_vertices g)))
                 q1) Hg Hsrc)
    as (st & -> & Hready & He).
  - split; [|split; [|split]]; cbn [q visited_vertices dist].
    + split; [|split]; cbn [q visited_vertices dist].
      * split; [done|]. split; [congruence|].
        pose proof (heap_wf_inds_length q1 Hwf1) as Hli1.
        assert (Hc : (index_count (inds q0) + 1 <= index_count (inds q1))%nat); [|lia].
        apply (index_count_mono_strict _ _ (Z.to_nat src)); [lia| |done|].
        -- intros x t Hx Ht. by apply Hinds0 in Hx.
        -- apply (heap_add_gives_index wlt _ q0 q1 Hadd).
      * by rewrite length_replicate.
      * by rewrite length_insert, length_fmap, length_seqZ.
    + intros w d Hw.
      apply list_lookup_insert_Some in Hw as [(<- & <- & _) | (_ & Hw)]; [cbn; lia|].
      apply list_lookup_fmap_Some in Hw as (i & -> & Hi).
      apply lookup_seqZ in Hi as [-> _]. cbn. lia.
    + intros _. split; [lia|].
      apply heap_add_Ok in Hadd as (_ & _ & _ & _ & Hlive).
      apply Hlive; [done|]. intros i a [Hi _]. lia.
    + intros Hf. by apply lookup_replicate in Hf as [[=] _].
  - cbn [q visited_vertices]. unfold dijkstra_fuel. lia.
  - destruct Hready as ((_ & Hlv & Hld) & _ & Hfirst & Hdone).
    exists st. split; [done|]. split; [done|]. apply Hdone.
    destruct (visited_vertices st !! Z.to_nat src) as [[|]|] eqn:Hvs; [done| |].
    + destruct (Hfirst eq_refl) as [Hone _]. unfold heap_empty in He.
      apply Z.eqb_eq in He. lia.
    + apply lookup_ge_None in Hvs. lia.
Qed.

Lemma markov_run_needs (g : graph_s W) (src : Z) (st : dijkstra_state W) :
  markov_run W wlt wgt wmul wneg wexp wlog wzero wone g src = Ok st ->
  2 <= nb_vertices g /\ 0 <= src < nb_vertices g.
Proof.
  intros H.
  assert (Hsrc : 0 <= src < nb_vertices g).
  { unfold markov_run in H. inv_ok H. apply rd_Ok in E1 as [Hs Hd].
    apply lookup_lt_Some in Hd. rewrite length_fmap, length_seqZ in Hd. lia. }
  split; [|done].
  destruct (markov_run_start g src Hsrc) as (q0 & Hwf0 & Hnb0 & Hmax0 & Hinds0 & Hrun).
  rewrite Hrun in H. apply bind_Ok in H as (q1 & Hadd & _).
  pose proof (heap_wf_inds_length q0 Hwf0) as Hli0.
  destruct (lookup_lt_is_Some_2 (inds q0) (Z.to_nat src) ltac:(lia)) as [s Hs].
  pose proof (Hinds0 _ _ Hs) as ->.
  destruct (heap_add_fresh_run wlt (markov_pushed wone src) q0 Hwf0)
    as (q1' & _ & _ & _ & _ & Hrun'); [cbn; lia | done |].
  rewrite Hrun' in Hadd.
  destruct (Z.ltb_spec (nb_elements q0 + 1) (max_elements q0)); [lia | done].
Qed.

End MarkovRuns.

(** X13. [dijkstra_markov] on a graph built by [create_graph] whose
    edges all have their destination within [0, nb_vertices): it
    returns a table exactly when the graph has two vertices at least
    and the source is one of them, whatever the weights; the table has
    one entry per vertex, and the entry of the source has no
    predecessor and the score [exp(-1.0)], the key 1.0 it was pushed
    with being taken for a negated logarithm. *)
Theorem dijkstra_markov_returns_iff {W : Type}
    (wlt wgt : W -> W -> bool) (wmul : W -> W -> W)
    (wneg wexp wlog : W -> W) (wzero wone : W)
    (n m : Z) (d : bool) (edges : list (edge_s W)) (g : GraphList.graph_s W)
    (src : Z)
    (Hg : GraphList.create_graph n m d edges = Ok g)
    (Hdst : forall i e, 0 <= i < m -> edges !! Z.to_nat i = Some e ->
              0 <= e_dst e < n) :
  ((exists t, dijkstra_markov wlt wgt wmul wneg wexp wlog wzero wone g src = Ok t)
   <-> 2 <= n /\ 0 <= src < n)
  /\ forall t, dijkstra_markov wlt wgt wmul wneg wexp wlog wzero wone g src = Ok t ->
       length t = Z.to_nat n
       /\ t !! Z.to_nat src = Some (mk_vertex src (wexp (wneg wone)) (-1)).
Proof.
  destruct (created_graph_closed n m d edges g Hg Hdst) as [Hn Hclosed].
  rewrite <- Hn. unfold dijkstra_markov. split; [split|].
  - intros [t H]. inv_ok H. by apply markov_run_needs in E.
  - intros [Hn2 Hsrc].
    destruct (markov_run_ok wlt wgt wmul wneg wexp wlog wzero wone g src
                Hclosed Hn2 Hsrc) as (st & -> & _).
    by eexists.
  - intros t H. inv_ok H. injection H as <-.
    pose proof (markov_run_needs wlt wgt wmul wneg wexp wlog wzero wone g src a E)
      as [Hn2 Hsrc].
    destruct (markov_run_ok wlt wgt wmul wneg wexp wlog wzero wone g src
                Hclosed Hn2 Hsrc) as (st & Hrun & Hlen & Hs).
    rewrite Hrun in E. by injection E as <-.
Qed.

Lemma dijkstra_markov_returns_iff_witness :
  (exists t,
     dijkstra_markov_real
       (GraphList.mk_graph 3 3 true
          [[mk_vertex 2 (4 / 10)%R 0; mk_vertex 1 (6 / 10)%R 0];
           [mk_vertex 2 1%R 1]; []]) 0 = Ok t)
  <-> 2 <= 3 /\ 0 <= 0 < 3.
Proof.
  refine (proj1 (dijkstra_markov_returns_iff Rltb Rgtb Rmult Ropp exp ln 0%R 1%R
                   3 3 true edges_chain _ 0 _ _)).
  - reflexivity.
  - intros i e Hi He.
    assert (Hcase : i = 0 \/ i = 1 \/ i = 2) by lia.
    destruct Hcase as [-> | [-> | ->]]; injection He as <-; cbn; lia.
Defined.

(** * The path that [print_path] prints for [bellman_ford] *)

Section BellmanFordPrintFacts.

Import BellmanFordPrint.

Lemma bf_trace_back_nt (parent : list Z) (fuel : nat) :
  forall path path_length current,
    path_length <= Z.of_nat (length path) ->
    Z.of_nat (length path) - path_length < Z.of_nat fuel ->
    trace_back fuel parent path path_length current <> Timeout.
Proof.
  induction fuel as [|fuel IH]; intros path len cur Hlen Hfuel; [lia|].
  cbn. apply bind_nt; [apply rd_nt|]. intros d _.
  destruct (negb (d =? cur)); [|done].
  apply bind_nt; [apply wr_nt|]. intros path' Hwr.
  apply wr_Ok in Hwr as [Hr ->]. apply IH; rewrite length_insert; lia.
Qed.

Lemma bf_trace_back_chain (parent : list Z) (fuel : nat) :
  forall path path_length current path' path_length' current',
    trace_back fuel parent path path_length current
      = Ok (path', path_length', current') ->
    0 <= path_length ->
    exists l,
      parent_chain parent current (current' :: l)
      /\ path_length' = path_length + Z.of_nat (length l)
      /\ length path' = length path
      /\ take (Z.to_nat path_length') path'
         = take (Z.to_nat path_length) path ++ (Some <$> reverse l).
Proof.
  induction fuel as [|fuel IH]; intros path len cur path' len' cur' H Hlen;
    cbn in H; inv_ok H; apply rd_Ok in E as [Hcur Hd];
    destruct (Z.eqb_spec a cur) as [Hp|Hp]; cbn in H; try done.
  - injection H as <- <- <-. subst a. exists []. split; [by apply chain_root|].
    cbn. split; [lia|]. split; [done|]. by rewrite app_nil_r.
  - injection H as <- <- <-. subst a. exists []. split; [by apply chain_root|].
    cbn. split; [lia|]. split; [done|]. by rewrite app_nil_r.
  - inv_ok H. apply wr_Ok in E as [Hr ->].
    apply IH in H as (l & Hchain & Hlen' & Hlp & Htake); [|lia].
    rewrite length_insert in Hlp.
    exists (l ++ [cur]). split; [|split; [|split]].
    + by apply (chain_child _ _ a (cur' :: l)).
    + rewrite length_app. cbn. lia.
    + done.
    + rewrite Htake, reverse_snoc, fmap_cons.
      replace (Z.to_nat (len + 1)) with (S (Z.to_nat len)) by lia.
      rewrite (take_S_r _ _ (Some cur)) by (apply list_lookup_insert_eq; lia).
      rewrite take_insert_ge by lia. by rewrite <- app_assoc.
Qed.

Lemma parent_chain_fun (parent : list Z) (w : Z) (p : list Z) :
  parent_chain parent w p -> forall p', parent_chain parent w p' -> p = p'.
Proof.
  induction 1 as [w Hw Hd | w u p Hw Hd Hp Hchain IH]; intros p' H';
    destruct H' as [w Hw' Hd' | w u' p' Hw' Hd' Hp' Hchain'];
    rewrite Hd in Hd'; [done | congruence | congruence |].
  injection Hd' as <-. f_equal. by apply IH.
Qed.

Lemma parent_chain_last (parent : list Z) (w : Z) (p : list Z) :
  parent_chain parent w p -> last p = Some w.
Proof. destruct 1; [done | apply last_snoc]. Qed.

Lemma bf_trace_back_ok (parent : list Z) (w : Z) (p : list Z) :
  parent_chain parent w p ->
  forall fuel path path_length,
    0 <= path_length ->
    path_length + Z.of_nat (length p) - 1 <= Z.of_nat (length path) ->
    (length p <= S fuel)%nat ->
    exists r, trace_back fuel parent path path_length w = Ok r.
Proof.
  induction 1 as [w Hw Hd | w u p Hw Hd Hp Hchain IH];
    intros fuel path len Hlen Hroom Hfuel.
  - destruct fuel; cbn; rewrite (rd_lookup parent w w) by done; cbn;
      rewrite Z.eqb_refl; cbn; by eexists.
  - rewrite length_app in Hroom, Hfuel. cbn [length] in Hroom, Hfuel.
    assert (Hpos : (1 <= length p)%nat).
    { destruct Hchain; [cbn; lia | rewrite length_app; cbn; lia]. }
    destruct fuel as [|fuel]; [lia|]. cbn.
    rewrite (rd_lookup parent w u) by done. cbn.
    destruct (Z.eqb_spec u w); [done|]. cbn.
    rewrite (wr_in_range path len) by lia. cbn.
    apply IH; [lia | rewrite length_insert; lia | lia].
Qed.

Lemma bf_print_path_Path (g : BellmanFord.graph_s) (dst : Z) (p : list Z) :
  print_path g dst = Ok (Path p) ->
  0 <= dst < BellmanFord.nb_vertices g
  /\ parent_chain (BellmanFord.parent g) dst p
  /\ Z.of_nat (length p) <= BellmanFord.nb_vertices g
  /\ BellmanFord.parent g !! Z.to_nat dst <> Some (-1).
Proof.
  unfold print_path. intros H.
  destruct (Z.geb_spec dst (BellmanFord.nb_vertices g)); [done|].
  destruct (Z.ltb_spec dst 0); [done|]. cbn [orb] in H.
  apply bind_Ok in H as (first & Hfirst & H). apply rd_Ok in Hfirst as [_ Hfirst].
  destruct (Z.eqb_spec first (-1)); [done|].
  apply bind_Ok in H as ([[path len] cur] & Htrace & H).
  inv_ok H. injection H as <-.
  apply bf_trace_back_chain in Htrace as (l & Hchain & Hlen & Hlp & Htake); [|lia].
  apply wr_Ok in E as [Hr ->]. rewrite Z.add_0_l in Hlen. subst len.
  rewrite length_replicate in Hlp. rewrite Hlp in Hr.
  rewrite take_0, app_nil_l in Htake.
  rewrite Nat2Z.id in Htake.
  replace (Z.of_nat (length l) + 1) with (Z.of_nat (length (reverse l ++ [cur])))
    in E0 by (rewrite length_app, length_reverse; cbn; lia).
  apply print_cells_reverse in E0.
  - subst a0. rewrite reverse_snoc, reverse_involutive.
    split; [lia|]. split; [done|]. split; [cbn [length]; lia|]. congruence.
  - rewrite length_app, length_reverse. cbn [length]. rewrite Nat.add_1_r.
    rewrite Nat2Z.id.
    rewrite (take_S_r _ _ (Some cur)) by (apply list_lookup_insert_eq; lia).
    rewrite take_insert_ge by lia. by rewrite Htake, fmap_app.
Qed.

Lemma bf_print_path_ok (g : BellmanFord.graph_s) (dst : Z) (p : list Z) :
  0 <= dst < BellmanFord.nb_vertices g ->
  parent_chain (BellmanFord.parent g) dst p ->
  Z.of_nat (length p) <= BellmanFord.nb_vertices g ->
  BellmanFord.parent g !! Z.to_nat dst <> Some (-1) ->
  print_path g dst = Ok (Path p).
Proof.
  intros Hdst Hchain Hlen Hfirst.
  assert (Hsome : exists out, print_path g dst = Ok (Path out)).
  { unfold print_path.
    destruct (Z.geb_spec dst (BellmanFord.nb_vertices g)); [lia|].
    destruct (Z.ltb_spec dst 0); [lia|]. cbn [orb].
    assert (Hd : exists first, BellmanFord.parent g !! Z.to_nat dst = Some first).
    { destruct Hchain as [w Hw Hd | w u p Hw Hd _ _]; by eexists. }
    destruct Hd as [first Hd].
    rewrite (rd_lookup (BellmanFord.parent g) dst first) by (lia || done).
    cbn [mbind result_mbind result_bind].
    destruct (Z.eqb_spec first (-1)) as [->|_]; [done|].
    destruct (bf_trace_back_ok (BellmanFord.parent g) dst p Hchain
                (S (Z.to_nat (BellmanFord.nb_vertices g)))
                (replicate (Z.to_nat (BellmanFord.nb_vertices g)) None) 0)
      as [[[path len] cur] Htrace]; [lia | rewrite length_replicate; lia | lia|].
    rewrite Htrace. cbn [mbind result_mbind result_bind].
    apply bf_trace_back_chain in Htrace as (l & Hchain' & Hlen' & Hlp & Htake);
      [|lia].
    rewrite (parent_chain_fun _ dst p Hchain _ Hchain') in Hlen. cbn [length] in Hlen.
    rewrite length_replicate in Hlp. rewrite Z.add_0_l in Hlen'. subst len.
    rewrite take_0, app_nil_l, Nat2Z.id in Htake.
    rewrite (wr_in_range path) by lia. cbn [mbind result_mbind result_bind].
    destruct (print_cells_ok (<[Z.to_nat (Z.of_nat (length l)) := Some cur]> path)
                (reverse (seqZ 0 (Z.of_nat (length l) + 1)))) as [out ->];
      [|by eexists].
    intros i Hi. apply elem_of_reverse, elem_of_seqZ in Hi. split; [lia|].
    rewrite Nat2Z.id. destruct (decide (Z.to_nat i = length l)) as [->|Hne].
    - exists cur. apply list_lookup_insert_eq. lia.
    - rewrite list_lookup_insert_ne by done.
      assert (Hi' : (Z.to_nat i < length l)%nat) by lia.
      rewrite <- (lookup_take_lt path (length l)) by done. rewrite Htake.
      rewrite list_lookup_fmap.
      destruct (lookup_lt_is_Some_2 (reverse l) (Z.to_nat i)) as [x ->];
        [rewrite length_reverse; lia|].
      by exists x. }
  destruct Hsome as [out Hout]. rewrite Hout. do 2 f_equal.
  apply bf_print_path_Path in Hout as (_ & Hchain' & _).
  by apply (parent_chain_fun (BellmanFord.parent g) dst).
Qed.

(** a vertex of a chain has its own chain as a prefix *)
Lemma parent_chain_prefix (parent : list Z) (w : Z) (p : list Z) :
  parent_chain parent w p ->
  forall x, x ∈ p -> exists q r, parent_chain parent x q /\ p = q ++ r.
Proof.
  induction 1 as [w Hw Hd | w u p Hw Hd Hp Hchain IH]; intros x Hx.
  - apply list_elem_of_singleton in Hx as ->. exists [w], [].
    split; [by apply chain_root | done].
  - apply elem_of_app in Hx as [Hx | Hx].
    + destruct (IH x Hx) as (q & r & Hq & ->). exists q, (r ++ [w]).
      split; [done | by rewrite app_assoc].
    + apply list_elem_of_singleton in Hx as ->. exists (p ++ [w]), [].
      split; [by apply (chain_child _ _ u) | by rewrite app_nil_r].
Qed.

Lemma parent_chain_NoDup (parent : list Z) (w : Z) (p : list Z) :
  parent_chain parent w p -> NoDup p.
Proof.
  induction 1 as [w Hw Hd | w u p Hw Hd Hp Hchain IH]; [apply NoDup_singleton|].
  apply NoDup_app. split; [done|]. split; [|apply NoDup_singleton].
  intros x Hx Hxw. apply list_elem_of_singleton in Hxw as ->.
  destruct (parent_chain_prefix parent u p Hchain w Hx) as (q & r & Hq & Hpq).
  pose proof (parent_chain_fun parent w q Hq (p ++ [w])
                (chain_child _ _ u p Hw Hd Hp Hchain)) as Heq.
  apply (f_equal length) in Hpq, Heq. rewrite !length_app in *. cbn in Heq. lia.
Qed.

Lemma parent_chain_linked (parent : list Z) (w : Z) (p : list Z) :
  parent_chain parent w p ->
  linked (fun u x => 0 <= x /\ parent !! Z.to_nat x = Some u /\ u <> x) p.
Proof.
  induction 1 as [w Hw Hd | w u p Hw Hd Hp Hchain IH]; [by intros [|i] a b Ha Hb|].
  apply linked_snoc; [done|]. intros a Ha.
  rewrite (parent_chain_last _ _ _ Hchain) in Ha. by injection Ha as <-.
Qed.

Lemma parent_chain_transfer (parent parent' : list Z) (w : Z) (p : list Z) :
  parent_chain parent w p ->
  (forall x, x ∈ p -> parent' !! Z.to_nat x = parent !! Z.to_nat x) ->
  parent_chain parent' w p.
Proof.
  induction 1 as [w Hw Hd | w u p Hw Hd Hp Hchain IH]; intros Hsame.
  - apply chain_root; [done|]. rewrite Hsame; [done | apply list_elem_of_here].
  - apply (chain_child _ _ u); [done| |done|].
    + rewrite Hsame; [done|]. apply elem_of_app. right. apply list_elem_of_here.
    + apply IH. intros x Hx. apply Hsame. apply elem_of_app. by left.
Qed.

End BellmanFordPrintFacts.

Lemma lookup_aget {A} `{Inhabited A} (l : list A) (i : Z) :
  0 <= i < Z.of_nat (length l) -> l !! Z.to_nat i = Some (aget l i).
Proof.
  intros Hi. destruct (lookup_lt_is_Some_2 l (Z.to_nat i) ltac:(lia)) as [x Hx].
  by rewrite (aget_lookup l i x Hx).
Qed.

Section BellmanFordTree.

Import BellmanFord BellmanFordPrint.

Variable n : Z.
Variable adj : list (list double).
Variable src : Z.
Hypothesis Hsrc : 0 <= src < n.
Hypothesis Hnnc : no_negative_cycle n adj src.

Lemma nnc_source (st : list double * list Z) :
  bf_inv n adj src st -> aget (fst st) src = Num 0 /\ aget (snd st) src = src.
Proof.
  intros (_ & _ & _ & Hs & Hwalk).
  destruct Hs as [Hs | (z & Hs & Hz)]; [done|]. exfalso.
  pose proof (Hnnc src 0 z (walk_here n adj src) (Hwalk src z Hsrc Hs)). lia.
Qed.

(** the part of a chain of parents from one of its vertices on is a walk
    that the distances account for *)
Lemma chain_segment (dist : list double) (parent : list Z) (w zw : Z) :
  bf_inv n adj src (dist, parent) -> bf_tree n adj src (dist, parent) ->
  aget dist w = Num zw ->
  forall x p, parent_chain parent x p ->
    (forall y, y ∈ p -> 0 <= y < n /\ is_finite (aget dist y) = true) ->
    w ∈ p ->
    exists c zx, aget dist x = Num zx /\ walk n adj w x c /\ zw + c <= zx.
Proof.
  intros Hinv [Htree _] Hzw.
  destruct (nnc_source _ Hinv) as [_ Hps]. cbn [fst snd] in *.
  induction 1 as [x Hx Hd | x y p Hx Hd Hp Hchain IH]; intros Hel Hw.
  - apply list_elem_of_singleton in Hw as ->. exists 0, zw.
    split; [done|]. split; [apply walk_here | lia].
  - destruct (Hel x) as [Hxr Hxf]; [apply elem_of_app; right; apply list_elem_of_here|].
    destruct (aget dist x) as [zx|] eqn:Hzx; [|done].
    apply elem_of_app in Hw as [Hw | Hw].
    + destruct IH as (c & zy & Hzy & Hwalk & Hle); [|done|].
      { intros y' Hy'. apply Hel. apply elem_of_app. by left. }
      assert (Hne : x <> src).
      { intros ->. apply aget_lookup in Hd. congruence. }
      destruct (Htree x zx Hxr Hne Hzx) as (u & a & zu & Hu & Hur & _ & Ha & Hzu & Hle').
      apply aget_lookup in Hd. rewrite Hd in Hu. subst u.
      rewrite Hzy in Hzu. injection Hzu as <-.
      exists (c + a), zx. split; [done|]. split; [|lia].
      by apply (walk_step n adj w y x c a).
    + apply list_elem_of_singleton in Hw as ->. exists 0, zx.
      split; [done|]. rewrite Hzx in Hzw. injection Hzw as ->.
      split; [apply walk_here | lia].
Qed.

Lemma tree_init : bf_tree n adj src (init n src).
Proof.
  assert (Hget : forall (A : Type) (HA : Inhabited A) (f : Z -> A) w,
            0 <= w < n -> aget (f <$> seqZ 0 n) w = f w).
  { intros A HA f w Hw. unfold aget.
    rewrite list_lookup_total_alt, list_lookup_fmap, lookup_seqZ_lt by lia.
    cbn. f_equal. lia. }
  unfold bf_tree, init. cbn [fst snd]. split.
  - intros w z Hw Hne Hz. rewrite Hget in Hz by lia.
    by destruct (Z.eqb_spec w src).
  - intros w z Hw Hz. rewrite Hget in Hz by lia.
    destruct (Z.eqb_spec w src) as [->|]; [|done].
    exists [src]. split; [|split; [done|]].
    + apply chain_root; [lia|].
      rewrite list_lookup_fmap, lookup_seqZ_lt by lia. cbn.
      destruct (Z.eqb_spec (0 + Z.of_nat (Z.to_nat src)) src); [|lia].
      cbn. f_equal. lia.
    + intros x Hx. apply list_elem_of_singleton in Hx as ->. split; [done|].
      rewrite Hget by lia. by rewrite Z.eqb_refl.
Qed.

Lemma relax_edge_tree (w u : Z) (st : list double * list Z) :
  0 <= w < n -> 0 <= u < n ->
  bf_inv n adj src st -> bf_tree n adj src st ->
  bf_tree n adj src (relax_edge adj w u st).
Proof.
  intros Hw Hu Hinv Htree. destruct st as [dist parent].
  pose proof (nnc_source _ Hinv) as [Hds Hps]. cbn [fst snd] in Hds, Hps.
  pose proof Hinv as (Hld & Hlp & _ & _ & Hwalk). cbn [fst snd] in Hld, Hlp, Hwalk.
  unfold relax_edge.
  destruct (aget2 adj u w) as [a|] eqn:Ha; cbn [is_finite]; [|done].
  destruct (aget dist u) as [zu|] eqn:Hzu; cbn [dadd]; [|cbn; exact Htree].
  destruct (dlt (Num (zu + a)) (aget dist w)) eqn:Hlt; [|done].
  pose proof (Hwalk u zu Hu Hzu) as Hwu.
  assert (Hws : w <> src).
  { intros ->. rewrite Hds in Hlt. cbn in Hlt. apply Z.ltb_lt in Hlt.
    pose proof (Hnnc src 0 (zu + a) (walk_here n adj src)
                  (walk_step n adj src u src zu a Hwu Hu Hw Ha)). lia. }
  assert (Huw : u <> w).
  { intros ->. rewrite Hzu in Hlt. cbn in Hlt. apply Z.ltb_lt in Hlt.
    pose proof (Hnnc w zu (0 + a) Hwu
                  (walk_step n adj w w w 0 a (walk_here n adj w) Hw Hw Ha)). lia. }
  destruct Htree as [Ht1 Ht2]. cbn [fst snd] in Ht1, Ht2.
  destruct (Ht2 u zu Hu Hzu) as (pu & Hpu & Hhead & Hel).
  assert (Hnotin : w ∉ pu).
  { intros Hin. destruct (aget dist w) as [zw|] eqn:Hzw.
    - destruct (chain_segment dist parent w zw Hinv (conj Ht1 Ht2) Hzw u pu Hpu Hel Hin)
        as (c & zx & Hzx & Hseg & Hle).
      rewrite Hzu in Hzx. injection Hzx as <-. cbn in Hlt. apply Z.ltb_lt in Hlt.
      pose proof (Hnnc w zw (c + a) (Hwalk w zw Hw Hzw)
                    (walk_step n adj w u w c a Hseg Hu Hw Ha)). lia.
    - destruct (Hel w Hin) as [_ Hf]. by rewrite Hzw in Hf. }
  assert (Hkeep : forall x, 0 <= x -> x <> w ->
            aset parent w u !! Z.to_nat x = parent !! Z.to_nat x).
  { intros x Hx Hxw. unfold aset. apply list_lookup_insert_ne. lia. }
  assert (Hnew : aset parent w u !! Z.to_nat w = Some u).
  { unfold aset. apply list_lookup_insert_eq. lia. }
  assert (Hfin : forall x, 0 <= x < n -> is_finite (aget dist x) = true ->
            is_finite (aget (aset dist w (Num (zu + a))) x) = true).
  { intros x Hx Hf. destruct (decide (x = w)) as [->|Hxw].
    - by rewrite aget_aset_eq by lia.
    - by rewrite aget_aset_ne by lia. }
  assert (Hchain_w : parent_chain (aset parent w u) w (pu ++ [w])
            /\ head (pu ++ [w]) = Some src
            /\ forall y, y ∈ pu ++ [w] ->
                 0 <= y < n /\ is_finite (aget (aset dist w (Num (zu + a))) y) = true).
  { split; [|split].
    - apply (chain_child _ _ u); [lia | done | done |].
      apply (parent_chain_transfer parent); [done|]. intros x Hx.
      destruct (Hel x Hx) as [Hxr _]. apply Hkeep; [lia|]. by intros ->.
    - rewrite head_app. by rewrite Hhead.
    - intros y Hy. apply elem_of_app in Hy as [Hy | Hy].
      + destruct (Hel y Hy) as [Hyr Hyf]. split; [done | by apply Hfin].
      + apply list_elem_of_singleton in Hy as ->. split; [done|].
        by rewrite aget_aset_eq by lia. }
  unfold bf_tree. cbn [fst snd]. split.
  - intros x z Hx Hxs Hz. destruct (decide (x = w)) as [->|Hxw].
    + rewrite aget_aset_eq in Hz by lia. injection Hz as <-.
      exists u, a, zu. rewrite aget_aset_eq by lia. rewrite aget_aset_ne by lia.
      split; [done|]. split; [done|]. split; [done|]. split; [done|]. split; [done | lia].
    + rewrite aget_aset_ne in Hz by lia.
      destruct (Ht1 x z Hx Hxs Hz) as (y & a' & zy & Hy & Hyr & Hyx & Ha' & Hzy & Hle).
      rewrite (aget_aset_ne parent) by lia.
      destruct (decide (y = w)) as [->|Hyw].
      * exists w, a', (zu + a). rewrite aget_aset_eq by lia.
        rewrite Hzy in Hlt. cbn in Hlt. apply Z.ltb_lt in Hlt.
        split; [done|]. split; [done|]. split; [done|]. split; [done|].
        split; [done | lia].
      * exists y, a', zy. rewrite aget_aset_ne by lia.
        split; [done|]. split; [done|]. split; [done|]. split; [done|]. by split.
  - assert (Hre : forall x p, parent_chain parent x p ->
              (forall y, y ∈ p -> 0 <= y < n /\ is_finite (aget dist y) = true) ->
              exists p', parent_chain (aset parent w u) x p'
                /\ head p' = Some src
                /\ forall y, y ∈ p' ->
                     0 <= y < n
                     /\ is_finite (aget (aset dist w (Num (zu + a))) y) = true).
    { induction 1 as [x Hx Hd | x y p Hx Hd Hp Hchain IH]; intros Hel'.
      - destruct (Hel' x (list_elem_of_here _ _)) as [Hxr Hxf].
        destruct (decide (x = src)) as [->|Hxs].
        + exists [src]. split; [|split; [done|]].
          * apply chain_root; [lia|]. by rewrite Hkeep by (lia || done).
          * intros y Hy. apply list_elem_of_singleton in Hy as ->.
            split; [done | by apply Hfin].
        + exfalso. destruct (aget dist x) as [zx|] eqn:Hzx; [|done].
          destruct (Ht1 x zx Hxr Hxs Hzx) as (y & _ & _ & Hy & _ & Hyx & _).
          apply aget_lookup in Hd. congruence.
      - destruct (decide (x = w)) as [->|Hxw]; [by exists (pu ++ [w])|].
        destruct IH as (p' & Hp' & Hhead' & Hel'').
        { intros y' Hy'. apply Hel'. apply elem_of_app. by left. }
        destruct (Hel' x) as [Hxr Hxf];
          [apply elem_of_app; right; apply list_elem_of_here|].
        exists (p' ++ [x]). split; [|split].
        * apply (chain_child _ _ y); [done| |done|done].
          by rewrite Hkeep by (lia || done).
        * rewrite head_app. by rewrite Hhead'.
        * intros y' Hy'. apply elem_of_app in Hy' as [Hy' | Hy']; [by apply Hel''|].
          apply list_elem_of_singleton in Hy' as ->. split; [done | by apply Hfin]. }
    intros x z Hx Hz. destruct (decide (x = w)) as [->|Hxw]; [by exists (pu ++ [w])|].
    rewrite aget_aset_ne in Hz by lia.
    destruct (Ht2 x z Hx Hz) as (p & Hp & _ & Help).
    by apply (Hre x p).
Qed.

Lemma relax_pass_tree (st : list double * list Z) :
  bf_inv n adj src st /\ bf_tree n adj src st ->
  bf_inv n adj src (relax_pass n adj st) /\ bf_tree n adj src (relax_pass n adj st).
Proof.
  intros Hst. unfold relax_pass.
  apply (for_loop_invariant (fun st => bf_inv n adj src st /\ bf_tree n adj src st));
    [exact Hst|].
  intros w st1 Hw Hst1.
  apply (for_loop_invariant (fun st => bf_inv n adj src st /\ bf_tree n adj src st));
    [exact Hst1|].
  intros u st2 Hu [Hinv2 Htree2]. split.
  - by apply relax_edge_inv.
  - by apply relax_edge_tree.
Qed.

Lemma main_loop_tree :
  bf_inv n adj src (main_loop n adj (init n src))
  /\ bf_tree n adj src (main_loop n adj (init n src)).
Proof.
  unfold main_loop.
  apply (for_loop_invariant (fun st => bf_inv n adj src st /\ bf_tree n adj src st)).
  - split; [by apply init_inv | apply tree_init].
  - intros k st _. apply relax_pass_tree.
Qed.

End BellmanFordTree.

Lemma walk_cycles (n : Z) (adj : list (list double)) (src w c c' : Z) (k : nat) :
  walk n adj src w c -> walk n adj w w c' -> walk n adj src w (c + Z.of_nat k * c').
Proof.
  intros Hw Hc. induction k as [|k IH].
  - by rewrite Z.add_0_r.
  - replace (c + Z.of_nat (S k) * c') with (c + Z.of_nat k * c' + c') by lia.
    by apply (walk_app n adj src w w).
Qed.

(** when no pair passes the test of the last loops, no closed walk that
    the source leads to has a negative weight *)
Lemma fixpoint_no_negative_cycle (n : Z) (adj : list (list double)) (src : Z)
    (dist : list double) :
  (forall w u, 0 <= w < n -> 0 <= u < n -> BellmanFord.improves adj dist w u = false) ->
  aget dist src = Num 0 ->
  no_negative_cycle n adj src.
Proof.
  intros Hfix Hs w c c' Hw Hc.
  destruct (walk_bound n adj src dist 0 Hfix Hs w c Hw) as (zw & Hzw & Hle).
  destruct (Z.le_gt_cases 0 c') as [|Hneg]; [done|]. exfalso.
  pose proof (walk_cycles n adj src w c c' (Z.to_nat (c - zw) + 1) Hw Hc) as Hlong.
  destruct (walk_bound n adj src dist 0 Hfix Hs w _ Hlong) as (zw' & Hzw' & Hle').
  rewrite Hzw in Hzw'. injection Hzw' as <-. nia.
Qed.



(** X15. [print_path] (Bellman-Ford program) prints "Invalid vertices."
    exactly for a destination outside of [0, nb_vertices), "No path"
    exactly when the parent of the destination is -1, and the list [p]
    exactly when [p] is the chain of the parents from a vertex that is
    its own parent up to the destination and has [nb_vertices] vertices
    at most; a longer chain, or one that leaves the table, runs over an
    array. Its first loop always ends. *)
Theorem bf_print_path_prints_parent_chain (g : BellmanFord.graph_s) (dst : Z) :
  BellmanFordPrint.print_path g dst <> Timeout
  /\ (BellmanFordPrint.print_path g dst = Ok BellmanFordPrint.Invalid_vertices
      <-> ~ 0 <= dst < BellmanFord.nb_vertices g)
  /\ (forall d, BellmanFordPrint.print_path g dst = Ok (BellmanFordPrint.No_path d)
        <-> 0 <= dst < BellmanFord.nb_vertices g /\ d = dst
            /\ BellmanFord.parent g !! Z.to_nat dst = Some (-1))
  /\ forall p, BellmanFordPrint.print_path g dst = Ok (BellmanFordPrint.Path p)
       <-> 0 <= dst < BellmanFord.nb_vertices g
           /\ BellmanFordPrint.parent_chain (BellmanFord.parent g) dst p
           /\ Z.of_nat (length p) <= BellmanFord.nb_vertices g
           /\ BellmanFord.parent g !! Z.to_nat dst <> Some (-1).
Proof.
  split; [|split; [|split]].
  - unfold BellmanFordPrint.print_path. destruct (_ || _); [done|].
    apply bind_nt; [apply rd_nt|]. intros first _. destruct (first =? -1); [done|].
    apply bind_nt.
    + apply bf_trace_back_nt; rewrite length_replicate; lia.
    + intros [[path len] cur] _. apply bind_nt; [apply wr_nt|]. intros path' _.
      apply bind_nt; [|done]. clear. generalize (reverse (seqZ 0 (len + 1))).
      intros cells. induction cells as [|i cells IH]; cbn; [done|].
      apply bind_nt; [apply rdv_nt|]. intros x _. by apply bind_nt.
  - unfold BellmanFordPrint.print_path.
    destruct (Z.geb_spec dst (BellmanFord.nb_vertices g));
      [split; [lia | done]|].
    destruct (Z.ltb_spec dst 0); [split; [lia | done]|]. cbn [orb].
    split; [|lia]. intros Hp. apply bind_Ok in Hp as (first & _ & Hp).
    destruct (first =? -1); [done|].
    apply bind_Ok in Hp as ([[path len] cur] & _ & Hp). by inv_ok Hp.
  - intros d. unfold BellmanFordPrint.print_path.
    destruct (Z.geb_spec dst (BellmanFord.nb_vertices g));
      [split; [done | lia]|].
    destruct (Z.ltb_spec dst 0); [split; [done | lia]|]. cbn [orb]. split.
    + intros Hp. apply bind_Ok in Hp as (first & Hfirst & Hp).
      apply rd_Ok in Hfirst as [_ Hfirst].
      destruct (Z.eqb_spec first (-1)) as [->|].
      * injection Hp as <-. split; [lia | by split].
      * apply bind_Ok in Hp as ([[path len] cur] & _ & Hp). by inv_ok Hp.
    + intros (_ & -> & Hfirst).
      by rewrite (rd_lookup (BellmanFord.parent g) dst (-1)) by (lia || done).
  - intros p. split; [apply bf_print_path_Path|].
    intros (Hdst & Hchain & Hlen & Hfirst). by apply bf_print_path_ok.
Qed.

(** * [floyd_warshall] on a matrix without negative entries *)

Lemma for_loop_indexed {St} (P : Z -> St -> Prop) (lo hi : Z)
    (body : Z -> St -> St) (s : St) :
  lo <= hi -> P lo s ->
  (forall i s, lo <= i < hi -> P i s -> P (i + 1) (body i s)) ->
  P hi (for_loop lo hi body s).
Proof.
  intros Hle Hs Hbody. unfold for_loop.
  assert (Hgen : forall (len : nat) lo s,
            lo + Z.of_nat len <= hi -> P lo s ->
            (forall i s, lo <= i < hi -> P i s -> P (i + 1) (body i s)) ->
            P (lo + Z.of_nat len)
              (foldl (fun s i => body i s) s (seqZ lo (Z.of_nat len)))).
  { clear. induction len as [|len IH]; intros lo s Hle Hs Hbody.
    - cbn. by rewrite Z.add_0_r.
    - rewrite seqZ_cons by lia. cbn [foldl].
      replace (Z.pred (Z.of_nat (S len))) with (Z.of_nat len) by lia.
      replace (lo + Z.of_nat (S len)) with (Z.succ lo + Z.of_nat len) by lia.
      apply IH; [lia | |].
      + replace (Z.succ lo) with (lo + 1) by lia. apply Hbody; [lia | done].
      + intros i s' Hi. apply Hbody. lia. }
  replace hi with (lo + Z.of_nat (Z.to_nat (hi - lo))) at 1 by lia.
  replace (hi - lo) with (Z.of_nat (Z.to_nat (hi - lo))) by lia.
  rewrite Nat2Z.id. apply Hgen; [lia | done | done].
Qed.

Section FloydWarshallLeast.

Import FloydWarshall.

Variable n : Z.
Variable adj : list (list double).
Hypothesis Hnonneg : nonneg_matrix n adj.

Lemma walk_below_range (k v w c : Z) :
  walk_below n adj k v w c -> 0 <= v < n /\ 0 <= w < n /\ 0 <= c.
Proof.
  induction 1 as [w a Hv Hw Ha | u w c a _ IH Hu Hw Ha].
  - split; [done|]. split; [done|]. by apply (Hnonneg v w).
  - destruct IH as (Hv & Hur & Hc). split; [done|]. split; [done|].
    pose proof (Hnonneg u w a Hur Hw Ha). lia.
Qed.

Lemma walk_below_mono (k k' v w c : Z) :
  walk_below n adj k v w c -> k <= k' -> walk_below n adj k' v w c.
Proof.
  induction 1 as [w a Hv Hw Ha | u w c a _ IH Hu Hw Ha]; intros Hk.
  - by apply below_edge.
  - apply (below_step _ _ _ _ u); [by apply IH | lia | done | done].
Qed.

(** a walk through the vertices below [k + 1] either stays below [k], or
    is not lighter than a walk to [k] followed by a walk from [k], both
    below [k] *)
Lemma walk_below_split (k v w c : Z) :
  walk_below n adj (k + 1) v w c ->
  (exists c', c' <= c /\ walk_below n adj k v w c')
  \/ (exists c1 c2, c1 + c2 <= c
        /\ walk_below n adj k v k c1 /\ walk_below n adj k k w c2).
Proof.
  induction 1 as [w a Hv Hw Ha | u w c a Hwalk IH Hu Hw Ha].
  - left. exists a. split; [lia | by apply below_edge].
  - destruct (walk_below_range _ _ _ _ Hwalk) as (Hv & Hur & _).
    destruct IH as [(c0 & Hc0 & H0) | (c1 & c2 & Hc & H1 & H2)].
    + destruct (decide (u = k)) as [->|Hne].
      * right. exists c0, a. split; [lia|]. split; [done | by apply below_edge].
      * left. exists (c0 + a). split; [lia|].
        apply (below_step _ _ _ _ u); [done | lia | done | done].
    + right. destruct (decide (u = k)) as [->|Hne].
      * destruct (walk_below_range _ _ _ _ H2) as (_ & _ & Hc2).
        exists c1, a. split; [lia|]. split; [done | by apply below_edge].
      * exists c1, (c2 + a). split; [lia|]. split; [done|].
        apply (below_step _ _ _ _ u); [done | lia | done | done].
Qed.

Lemma at_most_relax_via (k v w v' w' c : Z) (st : list (list double) * list (list Z)) :
  0 <= k < n -> 0 <= v < n -> 0 <= w < n -> 0 <= v' < n -> 0 <= w' < n ->
  fw_inv n adj st -> at_most (fst st) v' w' c ->
  at_most (fst (relax_via k v w st)) v' w' c.
Proof.
  intros Hk Hv Hw Hv' Hw' (Hsd & _) (z & Hz & Hle). destruct st as [dist parent].
  cbn [fst snd] in *. unfold relax_via.
  destruct (dlt (dadd (aget2 dist v k) (aget2 dist k w)) (aget2 dist v w)) eqn:Hlt;
    [|by exists z].
  cbn [fst]. pose proof Hsd as [Hld _]. unfold at_most.
  destruct (decide ((v, w) = (v', w'))) as [[= <- <-]|Hne].
  - rewrite (aget2_aset2_eq n) by done. rewrite Hz in Hlt.
    destruct (dadd _ _) as [new|]; [|done]. cbn in Hlt. apply Z.ltb_lt in Hlt.
    exists new. split; [done | lia].
  - rewrite aget2_aset2_ne by (lia || done). by exists z.
Qed.

Lemma fw_round_step (k v w : Z) (st : list (list double) * list (list Z)) :
  0 <= k < n -> 0 <= v < n -> 0 <= w < n ->
  fw_round n adj k v w st -> fw_round n adj k v (w + 1) (relax_via k v w st).
Proof.
  intros Hk Hv Hw (Hinv & Hbelow & Hdone).
  split; [by apply fw_relax_via_inv|]. split.
  - intros v' w' c Hwalk.
    destruct (walk_below_range _ _ _ _ Hwalk) as (Hv' & Hw' & _).
    apply at_most_relax_via; try done. by apply Hbelow.
  - intros v' w' c1 c2 Hpos H1 H2.
    destruct (walk_below_range _ _ _ _ H1) as (Hv' & _ & _).
    destruct (walk_below_range _ _ _ _ H2) as (_ & Hw' & _).
    destruct (decide ((v', w') = (v, w))) as [[= -> ->]|Hne].
    + destruct (Hbelow v k c1 H1) as (z1 & Hz1 & Hle1).
      destruct (Hbelow k w c2 H2) as (z2 & Hz2 & Hle2).
      destruct st as [dist parent]. cbn [fst snd] in *.
      destruct Hinv as (Hsd & _). cbn [fst] in Hsd.
      unfold relax_via. rewrite Hz1, Hz2. cbn [dadd].
      destruct (dlt (Num (z1 + z2)) (aget2 dist v w)) eqn:Hlt; cbn [fst].
      * exists (z1 + z2). split; [by apply (aget2_aset2_eq n) | lia].
      * destruct (aget2 dist v w) as [z|] eqn:Hz; [|done].
        cbn in Hlt. apply Z.ltb_ge in Hlt. exists z. split; [done | lia].
    + apply at_most_relax_via; try done. apply Hdone; [|done|done].
      destruct Hpos as [Hlt | [-> Hlt]]; [by left|]. right. split; [done|].
      destruct (decide (w' = w)) as [->|]; [done | lia].
Qed.

Lemma fw_below_init : fw_below n adj 0 (fst (init n adj)).
Proof.
  intros v w c Hwalk. unfold init. cbn [fst].
  destruct Hwalk as [w a Hv Hw Ha | u w c a Hwalk Hu Hw Ha].
  - exists a. split; [|lia].
    by rewrite (aget2_fmap_seqZ n (fun v w => aget2 adj v w)) by lia.
  - destruct (walk_below_range _ _ _ _ Hwalk) as (_ & Hur & _). lia.
Qed.

Lemma fw_triple_loop_below :
  0 <= n ->
  fw_below n adj n (fst (triple_loop n (init n adj))).
Proof.
  intros Hn. unfold triple_loop.
  apply (for_loop_indexed
           (fun k st => fw_inv n adj st /\ fw_below n adj k (fst st)) 0 n); [done| |].
  { split; [apply fw_init_inv | apply fw_below_init]. }
  intros k st1 Hk [Hinv1 Hbelow1].
  assert (Hrows : fw_round n adj k n 0
            (for_loop 0 n (fun v => for_loop 0 n (fun w => relax_via k v w)) st1)).
  { apply (for_loop_indexed (fun v st => fw_round n adj k v 0 st) 0 n); [done| |].
    { split; [done|]. split; [done|]. intros v' w' c1 c2 Hpos H1 H2.
      destruct (walk_below_range _ _ _ _ H1) as (Hv' & _ & _).
      destruct (walk_below_range _ _ _ _ H2) as (_ & Hw' & _). lia. }
    intros v st2 Hv Hst2.
    assert (Hrow : fw_round n adj k v n
              (for_loop 0 n (fun w => relax_via k v w) st2)).
    { apply (for_loop_indexed (fun w st => fw_round n adj k v w st) 0 n);
        [done | done |].
      intros w st3 Hw Hst3. by apply fw_round_step. }
    destruct Hrow as (Hinv & Hbelow & Hdone).
    split; [done|]. split; [done|]. intros v' w' c1 c2 Hpos H1 H2.
    destruct (walk_below_range _ _ _ _ H2) as (_ & Hw' & _).
    apply Hdone; [|done|done]. destruct Hpos as [Hlt | [-> Hlt]]; [|lia].
    destruct (decide (v' = v)) as [->|]; [right; split; [done | lia] | left; lia]. }
  destruct Hrows as (Hinv & Hbelow & Hdone). split; [done|].
  intros v w c Hwalk.
  destruct (walk_below_range _ _ _ _ Hwalk) as (Hv & Hw & _).
  destruct (walk_below_split k v w c Hwalk)
    as [(c' & Hc' & H') | (c1 & c2 & Hc & H1 & H2)].
  - destruct (Hbelow v w c' H') as (z & Hz & Hle). exists z. split; [done | lia].
  - destruct (Hdone v w c1 c2 ltac:(lia) H1 H2) as (z & Hz & Hle).
    exists z. split; [done | lia].
Qed.

Lemma walk_nonempty (v w c : Z) :
  0 <= v < n -> walk n adj v w c ->
  (w = v /\ c = 0) \/ walk_below n adj n v w c.
Proof.
  intros Hv. induction 1 as [|u w c a _ IH Hu Hw Ha]; [by left|]. right.
  destruct IH as [[-> ->] | IH].
  - by apply below_edge.
  - apply (below_step _ _ _ _ u); [done | lia | done | done].
Qed.

End FloydWarshallLeast.



(** * The scores of [dijkstra_markov] *)

Section MarkovScores.

Import GraphList.

Lemma Rgtb_gt (x y : R) : Rgtb x y = true -> (x > y)%R.
Proof. unfold Rgtb. by destruct (Rgt_dec x y). Qed.

Lemma relax_markov_keeps (P : vertex_s R -> Prop) (v : vertex_s R)
    (dist : list (vertex_s R)) (adj : list (vertex_s R)) :
  forall q q',
    relax_markov R Rltb Rgtb Rmult Ropp ln v dist adj q = Ok q' ->
    (forall a d, a ∈ adj -> dist !! Z.to_nat (ind a) = Some d ->
       (weight v * weight a > weight d)%R ->
       P (mk_vertex (ind a) (- ln (weight v * weight a))%R (ind v))) ->
    live_all P q -> live_all P q'.
Proof.
  induction adj as [|a adj IH]; intros q q' H Hadj HP; cbn in H.
  { by injection H as <-. }
  inv_ok H. apply rd_Ok in E as [_ Hd].
  apply (IH a1 q' H).
  - intros b d Hb. apply Hadj. by apply list_elem_of_further.
  - destruct (Rgtb (weight v * weight a) (weight a0)) eqn:Hgt.
    + apply heap_add_Ok in E0 as (_ & _ & _ & _ & Hlive).
      apply Hlive; [|done]. apply (Hadj a a0); [apply list_elem_of_here | done|].
      by apply Rgtb_gt.
    + by injection E0 as <-.
Qed.

Lemma markov_scored_mono (g : graph_s R) (visited : list bool)
    (dist : list (vertex_s R)) (u : nat) (d : vertex_s R) (p w : Z) (x : R) :
  visited !! u = Some false ->
  markov_scored g visited dist p w x ->
  markov_scored g (<[u := true]> visited) (<[u := d]> dist) p w x.
Proof.
  intros Hu (dp & c & Hp & Hdp & Hvis & Hedge & Hx & Hpos).
  assert (Hne : u <> Z.to_nat p) by congruence.
  exists dp, c. rewrite !list_lookup_insert_ne by done. auto 7.
Qed.

Lemma markov_step_inv (g : graph_s R) (src : Z) (st st' : dijkstra_state R) :
  markov_step R Rltb Rgtb Rmult Ropp exp ln g st = Ok st' ->
  markov_inv g src st -> markov_inv g src st'.
Proof.
  unfold markov_step. intros H (Iind & Iunv & Ivis & Iheap & Ifirst & Isrc & Ilen).
  inv_ok H.
  apply heap_remove_Ok in E0 as (_ & _ & _ & _ & Hnb & Hlive).
  apply heap_peek_Ok in E as Hslot; [|exact Hnb].
  cbn [ind weight prev] in H, E1.
  apply rd_Ok in E1 as [Hv Hseen].
  destruct a1; cbn [negb] in H.
  { injection H as <-. unfold markov_inv. cbn [visited_vertices dist q].
    split; [done|]. split; [done|]. split; [done|]. split; [by apply Hlive|].
    split; [|by split]. intros Hf. by apply Hlive, Ifirst. }
  inv_ok H. injection H as <-.
  apply wr_Ok in E0 as [Hlen_v ->]. apply rd_Ok in E1 as [_ Hd].
  apply wr_Ok in E2 as [Hlen_d ->].
  pose proof (Iind _ _ Hd) as [Hind _]. rewrite Z2Nat.id in Hind by lia.
  pose proof (Iheap 0 a Hslot) as Hka.
  remember (Z.to_nat (ind a)) as u eqn:Hu.
  set (d' := mk_vertex (ind a2) (exp (- weight a)) (prev a)).
  assert (Hd' : markov_entry g src (<[u := true]> (visited_vertices st))
                  (<[u := d']> (dist st)) d' /\ (0 <= weight d')%R
                /\ (u = Z.to_nat src -> d' = markov_source Ropp exp 1%R src)).
  { destruct Hka as [-> | (x & Hsc & Hw)].
    - cbn in Hind. unfold d'. rewrite Hind. cbn.
      split; [by left|]. split; [left; apply exp_pos | done].
    - assert (Hx : (0 < x)%R) by (by destruct Hsc as (? & ? & _ & _ & _ & _ & _ & ?)).
      assert (Hwx : exp (- weight a) = x) by (rewrite Hw; by apply exp_opp_ln).
      split; [|split].
      + right. unfold d'. cbn [ind weight prev]. rewrite Hwx, Hind.
        by apply markov_scored_mono.
      + unfold d'. cbn. left. apply exp_pos.
      + intros Hus. exfalso.
        assert (Hvs : visited_vertices st !! Z.to_nat src = Some false)
          by (by rewrite <- Hus).
        pose proof (Ifirst Hvs 0 a Hslot) as ->.
        destruct Hsc as (dp & c & Hp & _). cbn in Hp. lia. }
  destruct Hd' as (Hentry & Hpos & Hsrc_case).
  assert (Hmono_k : forall e,
            markov_keyed g src (visited_vertices st) (dist st) e ->
            markov_keyed g src (<[u := true]> (visited_vertices st))
              (<[u := d']> (dist st)) e).
  { intros e [-> | (x & Hsc & Hw)]; [by left|]. right. exists x.
    split; [by apply markov_scored_mono | done]. }
  unfold markov_inv. cbn [visited_vertices dist q].
  split; [|split; [|split; [|split; [|split; [|split]]]]].
  - intros w d Hw.
    apply list_lookup_insert_Some in Hw as [(<- & <- & _) | (_ & Hw)]; [|by apply Iind].
    split; [unfold d'; cbn; lia | done].
  - intros w d Hw Hd0.
    apply list_lookup_insert_Some in Hw as [(_ & [=] & _) | (Hne & Hw)].
    rewrite list_lookup_insert_ne in Hd0 by done. by apply (Iunv w).
  - intros w d Hw Hd0.
    apply list_lookup_insert_Some in Hd0 as [(<- & <- & _) | (Hne & Hd0)]; [done|].
    rewrite list_lookup_insert_ne in Hw by done.
    destruct (Ivis w d Hw Hd0) as [-> | Hsc]; [by left|]. right.
    by apply markov_scored_mono.
  - apply (relax_markov_keeps _ _ _ _ _ _ E4).
    + intros e de He Hde Hgt. right. cbn [ind weight prev].
      exists (exp (- weight a) * weight e)%R. split; [|done].
      exists d', (weight e). rewrite <- Hu.
      split; [done|]. split; [apply list_lookup_insert_eq; lia|].
      split; [apply list_lookup_insert_eq; lia|].
      split; [by exists a4, e|]. split; [done|].
      assert (Hde0 : (0 <= weight de)%R).
      { apply list_lookup_insert_Some in Hde as [(_ & <- & _) | (_ & Hde)]; [done|].
        by apply (Iind _ _ Hde). }
      cbn [weight] in Hgt. lra.
    + apply Hlive. eapply live_all_impl; [exact Hmono_k | exact Iheap].
  - intros Hf. exfalso. destruct (decide (u = Z.to_nat src)) as [Heq|Hne].
    + rewrite <- Heq, list_lookup_insert_eq in Hf by lia. discriminate.
    + rewrite list_lookup_insert_ne in Hf by done.
      pose proof (Ifirst Hf 0 a Hslot) as ->. cbn in Hu. by apply Hne.
  - done.
  - by rewrite !length_insert.
Qed.

Lemma markov_loop_inv (g : graph_s R) (src : Z) (fuel : nat) :
  forall st st',
    markov_loop R Rltb Rgtb Rmult Ropp exp ln fuel g st = Ok st' ->
    markov_inv g src st -> markov_inv g src st'.
Proof.
  induction fuel as [|fuel IH]; intros st st' H Hinv; cbn in H;
    destruct (heap_empty (q st)); try discriminate; try (by injection H as <-).
  inv_ok H. apply (IH a st'); [exact H|]. by apply (markov_step_inv g src st).
Qed.

Lemma markov_run_inv (g : graph_s R) (src : Z) (st : dijkstra_state R) :
  markov_run R Rltb Rgtb Rmult Ropp exp ln 0%R 1%R g src = Ok st ->
  markov_inv g src st.
Proof.
  unfold markov_run. intros H. inv_ok H.
  apply (markov_loop_inv g src _ _ _ H). clear H.
  apply assert_Ok in E. apply Z.leb_le in E.
  unfold heap_create in E0. destruct (Z.ltb_spec (nb_vertices g) 0); [lia|].
  injection E0 as <-.
  assert (Hinit : forall w d,
            ((fun i => mk_vertex i 0%R (-1)) <$> seqZ 0 (nb_vertices g)) !! w = Some d ->
            d = mk_vertex (Z.of_nat w) 0%R (-1)).
  { intros w d Hw. apply list_lookup_fmap_Some in Hw as (i & -> & Hi).
    by apply lookup_seqZ in Hi as [-> _]. }
  apply rd_Ok in E1 as [Hsrc Hd]. apply Hinit in Hd as ->.
  cbn [ind prev] in E2. rewrite Z2Nat.id in E2 by lia.
  apply wr_Ok in E2 as [Hlen ->].
  apply rd_Ok in E3 as [_ Hd].
  rewrite list_lookup_insert_eq in Hd by lia. injection Hd as <-.
  apply heap_add_Ok in E4 as (_ & _ & _ & _ & Hlive).
  unfold markov_inv. cbn [visited_vertices dist q].
  split; [|split; [|split; [|split; [|split; [|split]]]]].
  - intros w d Hw.
    apply list_lookup_insert_Some in Hw as [(<- & <- & _) | (_ & Hw)].
    + cbn. split; [lia | lra].
    + apply Hinit in Hw as ->. cbn. split; [done | lra].
  - intros w d _ Hw.
    apply list_lookup_insert_Some in Hw as [(<- & <- & _) | (_ & Hw)].
    + cbn. split; [done|]. right. lia.
    + apply Hinit in Hw as ->. cbn. split; [done | by left].
  - intros w d Hw _. by apply lookup_replicate in Hw as [[=] _].
  - apply Hlive; [by left|]. intros i e [Hi _]. cbn in Hi. lia.
  - intros _. apply Hlive; [done|]. intros i e [Hi _]. cbn in Hi. lia.
  - done.
  - by rewrite length_insert, length_replicate, length_fmap, length_seqZ.
Qed.

End MarkovScores.


